(** * consistenthash: a weighted ring hash with a load adjuster

    A shallow embedding of [consistenthash.go] (the version that keeps a
    per-node hash cache and runs the load adjuster on every mutation),
    followed by the properties of the ring that its description states.

    Data follow the Go declarations: Go's [int] is the 64-bit integer
    (the package uses the constant [1<<32] as an [int]), modelled as [Z]
    with its wrap-around written out by [int64]; [uint32] hash values are
    reduced modulo [2^32]; [float64] is the kernel's binary64; Go maps are
    [gmap]s and slices are lists. *)

From Stdlib Require Import ZArith String Ascii List.
From Stdlib Require Import PrimFloat.
From Stdlib Require FloatOps SpecFloat Uint63 DecimalString.
From stdpp Require Import base tactics option list sorting gmap fin_maps strings.

Local Open Scope string_scope.
Local Open Scope list_scope.
Local Open Scope Z_scope.

(** ** Outcomes

    A Go call either returns or panics.  Mutators are state transformers
    that yield an outcome together with the state the receiver is left in
    (a panic leaves the receiver as it was when the panic was raised). *)

Inductive outcome (A : Type) : Type :=
  | Ret (a : A)
  | Panic (msg : string).
Arguments Ret {A} a.
Arguments Panic {A} msg.

#[global] Instance outcome_eq_dec {A} `{EqDecision A} : EqDecision (outcome A).
Proof. solve_decision. Defined.

Definition index_panic : string := "runtime error: index out of range".

(** ** Machine integers and floats *)

Definition int64 (z : Z) : Z := (z + 2 ^ 63) mod 2 ^ 64 - 2 ^ 63.

Definition uint32 (z : Z) : Z := z mod 2 ^ 32.

(** [float64(z)] for an [int] [z]: the nearest binary64. *)
Definition float64 (z : Z) : PrimFloat.float :=
  if z =? - 2 ^ 63 then
    PrimFloat.opp (PrimFloat.mul (PrimFloat.of_uint63 (Uint63.of_Z (2 ^ 62)))
                                 (PrimFloat.of_uint63 (Uint63.of_Z 2)))
  else if z <? 0 then PrimFloat.opp (PrimFloat.of_uint63 (Uint63.of_Z (- z)))
  else PrimFloat.of_uint63 (Uint63.of_Z z).

(** [int(f)] for a [float64] [f]: truncation toward zero; a value that
    does not fit (or is not a number) gives the smallest [int], as the
    amd64 conversion instruction does. *)
Definition int_of_float (f : PrimFloat.float) : Z :=
  match FloatOps.Prim2SF f with
  | SpecFloat.S754_zero _ => 0
  | SpecFloat.S754_finite s m e =>
      let a := if 0 <=? e then Z.shiftl (Z.pos m) e else Z.shiftr (Z.pos m) (- e) in
      let z := if s then - a else a in
      if (- 2 ^ 63 <=? z) && (z <? 2 ^ 63) then z else - 2 ^ 63
  | _ => - 2 ^ 63
  end.

(** ** Strings: [strconv.Itoa], [strconv.Atoi], [crc32.ChecksumIEEE] *)

Definition Itoa (i : nat) : string :=
  DecimalString.NilEmpty.string_of_uint (Nat.to_uint i).

(** [crc32.ChecksumIEEE]: the reflected CRC-32 with polynomial
    [0xedb88320], one bit at a time. *)
Definition crc_bit (c : Z) : Z :=
  if Z.testbit c 0 then Z.lxor (Z.shiftr c 1) 3988292384 else Z.shiftr c 1.

Definition crc_byte (c : Z) (b : ascii) : Z :=
  Nat.iter 8 crc_bit (Z.lxor c (Z.of_nat (nat_of_ascii b))).

Definition ChecksumIEEE (data : string) : Z :=
  Z.lxor (fold_left crc_byte (list_ascii_of_string data) 4294967295) 4294967295.

(** The hash function of [TestHashing]: [strconv.Atoi] of the key, as a
    [uint32].  The test's function panics on a key that is not a decimal
    number; here such a key hashes to 0 (the function is only applied to
    decimal labels below). *)
Definition atoi_digits (s : string) : option Z :=
  match s with
  | EmptyString => None
  | _ => Z.of_uint <$> DecimalString.NilEmpty.uint_of_string s
  end.

Definition Atoi (s : string) : option Z :=
  let v := match s with
           | String "-" s' => Z.opp <$> atoi_digits s'
           | String "+" s' => atoi_digits s'
           | _ => atoi_digits s
           end in
  v ≫= λ i, if (- 2 ^ 63 <=? i) && (i <? 2 ^ 63) then Some i else None.

Definition atoi_hash (key : string) : Z :=
  match Atoi key with
  | Some i => uint32 i
  | None => 0
  end.

(** ** The ring *)

Record Map : Type := mkMap {
  hash : string → Z;
  replica : Z;
  keys : list Z;
  hashMap : gmap Z string;
  hashs : gmap string (list Z);
  replicas : gmap string Z;
  (** Ghost: the number of runs of [calc] so far; it indexes the order
      in which the next run visits its weight map. *)
  ranges : nat
}.

Definition set_keys (ks : list Z) (m : Map) : Map :=
  mkMap (hash m) (replica m) ks (hashMap m) (hashs m) (replicas m) (ranges m).

Definition set_replicas (rs : gmap string Z) (m : Map) : Map :=
  mkMap (hash m) (replica m) (keys m) (hashMap m) (hashs m) rs (ranges m).

Definition set_hashs (hs : gmap string (list Z)) (m : Map) : Map :=
  mkMap (hash m) (replica m) (keys m) (hashMap m) hs (replicas m) (ranges m).

(** Go does not specify the order in which [range] visits a map, and it
    may differ from one loop to the next.  The order matters in the loop
    of [calc] that places the nodes, where the node written last for a
    position owns it; a [RangeOrder] fixes, for the n-th run of [calc]
    and the weight map it ranges over, an enumeration of the entries.
    The other loops over maps (the sums of weights, the loop over [stat])
    compute the same in every order, see [total_weight_order] and
    [adjust_pass_order], and are written over [map_to_list]. *)
Record RangeOrder : Type := mkRangeOrder {
  visit : nat → gmap string Z → list (string * Z);
  visit_perm : ∀ n (w : gmap string Z), visit n w ≡ₚ map_to_list w
}.

Definition New (replicas : Z) (fn : option (string → Z)) : Map :=
  mkMap (default ChecksumIEEE fn) replicas [] ∅ ∅ ∅ 0.

Definition IsEmpty (m : Map) : bool := (size (replicas m) =? 0)%nat.

(** The ring position of replica [i] of node [key]:
    [int(m.hash([]byte(strconv.Itoa(i) + key)))]. *)
Definition position (h : string → Z) (i : nat) (key : string) : Z :=
  uint32 (h (String.append (Itoa i) key)).

(** The owner recorded for a position: [m.hashMap[p]], the empty string
    when the table has no entry. *)
Definition owner (m : Map) (p : Z) : string := default "" (hashMap m !! p).

(** *** calc *)

(** One turn of the inner loop of [calc]; the state is the node's cache
    [hs], the ring [m.keys] and the table [m.hashMap]. *)
Definition place (h : string → Z) (key : string)
    (st : list Z * list Z * gmap Z string) (i : nat)
    : list Z * list Z * gmap Z string :=
  let '(hs, ks, hm) := st in
  match hs !! i with
  | Some p => (hs, ks ++ [p], <[p := key]> hm)
  | None => let p := position h i key in (hs ++ [p], ks ++ [p], <[p := key]> hm)
  end.

(** One turn of the outer loop of [calc], for the entry [key, r]. *)
Definition calc_node (m : Map) (kr : string * Z) : Map :=
  let '(key, r) := kr in
  let '(hs, ks, hm) :=
    foldl (place (hash m) key) (default [] (hashs m !! key), keys m, hashMap m)
          (seq 0 (Z.to_nat r)) in
  mkMap (hash m) (replica m) ks hm (<[key := hs]> (hashs m)) (replicas m) (ranges m).

(** [calc]; the local [total] of the source is never read and is left
    out. *)
Definition calc (rg : RangeOrder) (reps : gmap string Z) (m : Map) : Map :=
  let m1 := foldl calc_node
              (mkMap (hash m) (replica m) [] (hashMap m) (hashs m) (replicas m)
                     (S (ranges m)))
              (visit rg (ranges m) reps) in
  set_keys (merge_sort Z.le (keys m1)) m1.

(** *** adjust *)

(** [stat[m.hashMap[h]] += h - prev]. *)
Definition stat_add (m : Map) (stat : gmap string Z) (prev h : Z) : gmap string Z :=
  <[owner m h := int64 (default 0 (stat !! owner m h) + (h - prev))]> stat.

Fixpoint arcs (m : Map) (prev : Z) (ks : list Z) (stat : gmap string Z)
    : gmap string Z :=
  match ks with
  | [] => stat
  | h :: ks' => arcs m h ks' (stat_add m stat prev h)
  end.

(** The arc owned by each node, for the ring [k0 :: rest]. *)
Definition load_stat (m : Map) (k0 : Z) (rest : list Z) : gmap string Z :=
  arcs m k0 rest {[ owner m k0 := int64 (k0 + 2 ^ 32 - List.last rest k0) ]}.

(** The correction computed for a node with working weight [rep], target
    weight [target] and arc [v]. *)
Definition correction (scale : PrimFloat.float) (rep target total v : Z) : Z :=
  let actual := PrimFloat.div (float64 v) (float64 (2 ^ 32)) in
  let expect := PrimFloat.div (float64 target) (float64 total) in
  int_of_float
    (PrimFloat.mul
       (PrimFloat.div (PrimFloat.mul (float64 rep) (PrimFloat.sub expect actual)) expect)
       scale).

(** The test of the source: [adjust > 1 || adjust < 1]. *)
Definition applies (adjust : Z) : bool := (1 <? adjust) || (adjust <? 1).

(** One turn of the loop over [stat]. *)
Definition adjust_node (scale : PrimFloat.float) (m : Map) (total : Z)
    (acc : gmap string Z * bool) (kv : string * Z) : gmap string Z * bool :=
  let '(reps, changed) := acc in
  let '(k, v) := kv in
  let rep := default 0 (reps !! k) in
  let a := correction scale rep (default 0 (replicas m !! k)) total v in
  if applies a then (<[k := int64 (rep + a)]> reps, true) else (reps, changed).

(** One pass: the new working weights and the [changed] flag. *)
Definition adjust_pass (scale : PrimFloat.float) (m : Map) (total : Z)
    (reps : gmap string Z) (k0 : Z) (rest : list Z) : gmap string Z * bool :=
  foldl (adjust_node scale m total) (reps, false) (map_to_list (load_stat m k0 rest)).

Fixpoint adjust_loop (rg : RangeOrder) (tries : nat) (scale : PrimFloat.float)
    (total : Z) (reps : gmap string Z) (m : Map) : outcome unit * Map :=
  match tries with
  | O => (Ret tt, m)
  | S t =>
      match keys m with
      | [] => (Panic index_panic, m)
      | k0 :: rest =>
          let '(reps', changed) := adjust_pass scale m total reps k0 rest in
          if changed then adjust_loop rg t scale total reps' (calc rg reps' m)
          else (Ret tt, m)
      end
  end.

(** The sum of the target weights. *)
Definition total_weight (w : gmap string Z) : Z :=
  foldr (λ kr acc, int64 (acc + kr.2)) 0 (map_to_list w).

Definition adjust (rg : RangeOrder) (tries : Z) (scale : PrimFloat.float)
    (m : Map) : outcome unit * Map :=
  if negb (length (keys m) =? 0)%nat then (Ret tt, m)
  else
    let m1 := calc rg (replicas m) m in
    if (size (replicas m1) <=? 1)%nat || (replica m1 <? 10) then (Ret tt, m1)
    else adjust_loop rg (Z.to_nat tries) scale (total_weight (replicas m1))
                     (replicas m1) m1.

(** *** Mutators *)

Definition AddWithWeight (rg : RangeOrder) (key : string) (replica : Z) (m : Map)
    : outcome unit * Map :=
  if replica <? 1 then (Panic "replica should be positive", m)
  else if bool_decide (default 0 (replicas m !! key) = replica) then (Ret tt, m)
  else adjust rg 5 0.75%float
         (set_replicas (<[key := replica]> (replicas m)) (set_keys [] m)).

Fixpoint Add (rg : RangeOrder) (ks : list string) (m : Map) : outcome unit * Map :=
  match ks with
  | [] => (Ret tt, m)
  | key :: ks' =>
      match AddWithWeight rg key (replica m) m with
      | (Ret _, m') => Add rg ks' m'
      | (Panic msg, m') => (Panic msg, m')
      end
  end.

Definition Remove (rg : RangeOrder) (key : string) (m : Map) : outcome unit * Map :=
  match replicas m !! key with
  | Some _ =>
      adjust rg 5 0.75%float
        (set_keys [] (set_hashs (delete key (hashs m))
                                (set_replicas (delete key (replicas m)) m)))
  | None => (Ret tt, m)
  end.

(** *** Lookups *)

(** [sort.Search]: binary search for the least index in [0, n) at which
    [f] holds, [n] when there is none. *)
Fixpoint search_loop (fuel : nat) (f : nat → bool) (i j : nat) : nat :=
  match fuel with
  | O => i
  | S fuel' =>
      if (i <? j)%nat then
        let h := ((i + j) / 2)%nat in
        if f h then search_loop fuel' f i h else search_loop fuel' f (h + 1)%nat j
      else i
  end.

Definition Search (n : nat) (f : nat → bool) : nat := search_loop n f 0%nat n.

Definition lookup (key : string) (m : Map) : nat :=
  let hash := uint32 (hash m key) in
  let idx := Search (length (keys m)) (λ i, hash <=? nth i (keys m) 0) in
  if (idx =? length (keys m))%nat then 0%nat else idx.

(** [m.hashMap[m.keys[idx]]]. *)
Definition owner_at (m : Map) (idx : nat) : outcome string :=
  match keys m !! idx with
  | Some p => Ret (owner m p)
  | None => Panic index_panic
  end.

Definition Get (key : string) (m : Map) : outcome string :=
  if IsEmpty m then Ret "" else owner_at m (lookup key m).

(** The scanning loop of [Get2]; [None] when [fuel] turns did not end
    it. *)
Fixpoint scan (fuel : nat) (first : string) (idx2 : nat) (m : Map)
    : option (outcome nat) :=
  match owner_at m idx2 with
  | Panic msg => Some (Panic msg)
  | Ret o =>
      if bool_decide (o = first) then
        match fuel with
        | O => None
        | S fuel' =>
            let idx2' := S idx2 in
            scan fuel' first (if (idx2' =? length (keys m))%nat then 0%nat else idx2') m
        end
      else Some (Ret idx2)
  end.

Definition Get2 (fuel : nat) (key : string) (m : Map)
    : option (outcome (string * string)) :=
  if IsEmpty m then Some (Ret ("", ""))
  else
    let idx := lookup key m in
    match owner_at m idx with
    | Panic msg => Some (Panic msg)
    | Ret first =>
        if (1 <? size (replicas m))%nat then
          match scan fuel first idx m with
          | None => None
          | Some (Panic msg) => Some (Panic msg)
          | Some (Ret idx2) =>
              match owner_at m idx2 with
              | Panic msg => Some (Panic msg)
              | Ret second => Some (Ret (first, second))
              end
          end
        else Some (Ret (first, ""))
    end.

(** ** Two visiting orders *)

Definition map_order : RangeOrder :=
  mkRangeOrder (λ _ w, map_to_list w) (λ _ w, reflexivity _).

Definition reverse_order : RangeOrder :=
  mkRangeOrder (λ _ w, reverse (map_to_list w)) (λ _ w, reverse_Permutation _).

(** * Notions used to state the properties *)

(** ** Positions and caches *)

(** The positions of the entry [key, r] of a weight map. *)
Definition positions_of (h : string → Z) (kr : string * Z) : list Z :=
  (λ i, position h i kr.1) <$> seq 0 (Z.to_nat kr.2).

(** The positions of a list of entries, in order. *)
Definition ring_list (h : string → Z) (l : list (string * Z)) : list Z :=
  l ≫= positions_of h.

(** The ring built from the weight map [w] without adjustment. *)
Definition ring_keys (h : string → Z) (w : gmap string Z) : list Z :=
  merge_sort Z.le (ring_list h (map_to_list w)).

(** The only node that has [p] among its positions, if there is exactly
    one. *)
Definition sole_owner (h : string → Z) (reps : gmap string Z) (p : Z)
    : option string :=
  match filter (λ kr, p ∈ positions_of h kr) (map_to_list reps) with
  | [kr] => Some kr.1
  | _ => None
  end.

(** The index at which [lookup] lands on the ring [ks] for the hash
    value [hk]. *)
Definition lookup_in (hk : Z) (ks : list Z) : nat :=
  let idx := Search (length ks) (λ i, hk <=? nth i ks 0) in
  if (idx =? length ks)%nat then 0%nat else idx.

(** The index that follows [idx] on a ring of [n] positions. *)
Definition next_index (n idx : nat) : nat :=
  if (S idx =? n)%nat then 0%nat else S idx.

(** The table after the positions [ps] were written for [key]. *)
Definition write_all (key : string) (hm : gmap Z string) (ps : list Z)
    : gmap Z string :=
  foldl (λ hm p, <[p := key]> hm) hm ps.

(** A cache is valid when entry [i] of node [k] is [position h i k]. *)
Definition cache_valid (h : string → Z) (k : string) (hs : list Z) : Prop :=
  ∀ i p, hs !! i = Some p → p = position h i k.

(** Every cache of the ring is valid. *)
Definition cache_ok (m : Map) : Prop :=
  ∀ k hs, hashs m !! k = Some hs → cache_valid (hash m) k hs.

(** The caches of [c'] extend those of [c]. *)
Definition cache_le (c c' : gmap string (list Z)) : Prop :=
  ∀ k hs, c !! k = Some hs → ∃ ext, c' !! k = Some (hs ++ ext).

(** No position is cached for two different nodes. *)
Definition cache_disjoint (c : gmap string (list Z)) : Prop :=
  ∀ k1 k2 hs1 hs2 p,
    c !! k1 = Some hs1 → c !! k2 = Some hs2 → p ∈ hs1 → p ∈ hs2 → k1 = k2.

(** [cache_disjoint], as a test. *)
Definition cache_disjointb (c : gmap string (list Z)) : bool :=
  forallb (λ a : string * list Z, forallb (λ b : string * list Z,
      bool_decide (a.1 = b.1) || forallb (λ p, bool_decide (p ∉ b.2)) a.2)
    (map_to_list c)) (map_to_list c).

(** [p] is the position of the ring [ks] that serves the hash value [h]:
    the smallest position at or after [h], or the smallest position of
    all when [h] is beyond every position. *)
Definition closest (h : Z) (ks : list Z) (p : Z) : Prop :=
  p ∈ ks ∧
  ((h ≤ p ∧ ∀ q, q ∈ ks → h ≤ q → p ≤ q) ∨
   ((∀ q, q ∈ ks → q < h) ∧ ∀ q, q ∈ ks → p ≤ q)).

(** ** Calls and reachable states *)

(** The mutating calls of the package. *)
Inductive op : Type :=
  | OpAdd (ks : list string)
  | OpAddWithWeight (key : string) (replica : Z)
  | OpRemove (key : string).

Definition exec (rg : RangeOrder) (o : op) (m : Map) : outcome unit * Map :=
  match o with
  | OpAdd ks => Add rg ks m
  | OpAddWithWeight key w => AddWithWeight rg key w m
  | OpRemove key => Remove rg key m
  end.

(** A sequence of calls; it stops at the first panic. *)
Fixpoint run (rg : RangeOrder) (ops : list op) (m : Map) : outcome unit * Map :=
  match ops with
  | [] => (Ret tt, m)
  | o :: ops' =>
      match exec rg o m with
      | (Ret _, m') => run rg ops' m'
      | (Panic msg, m') => (Panic msg, m')
      end
  end.

(** The states a ring can be in: a new ring, and the state any call
    leaves a reachable ring in, whether the call returned or panicked
    (and the panic was recovered). *)
Inductive reachable (rg : RangeOrder) : Map → Prop :=
  | reach_New r fn : reachable rg (New r fn)
  | reach_exec o m out m' :
      reachable rg m → exec rg o m = (out, m') → reachable rg m'.

Definition is_remove (o : op) : bool :=
  match o with OpRemove _ => true | _ => false end.

(** A call aborts when it panics: the panic unwinds the caller and ends
    the program unless a caller recovers it. *)
Definition aborts {A} (o : outcome A) : Prop := ∃ msg, o = Panic msg.

(** The number of positions that the weights [w] ask for. *)
Definition positions_total (w : gmap string Z) : Z :=
  foldr (λ kr acc, kr.2 + acc) 0 (map_to_list w).

(** A call whose weight is valid on a ring of default replica count [r]:
    [AddWithWeight] with a weight of at least 1, [Add] of nodes when [r]
    is at least 1, any [Remove]. *)
Definition valid_op (r : Z) (o : op) : bool :=
  match o with
  | OpAdd ks => (1 <=? r) || bool_decide (ks = [])
  | OpAddWithWeight _ w => 1 <=? w
  | OpRemove _ => true
  end.

(** ** Invariants *)

(** What the outer loop leaves behind, whatever the order of the
    entries: the ring grows by the positions of the entries, the caches
    grow and stay valid, every entry's cache covers its positions, and
    the table maps each written position to a node that it was written
    for. *)
Record nodes_placed (h : string → Z) (l : list (string * Z)) (m0 m1 : Map)
    : Prop := {
  np_hash : hash m1 = hash m0;
  np_replica : replica m1 = replica m0;
  np_replicas : replicas m1 = replicas m0;
  np_ranges : ranges m1 = ranges m0;
  np_keys : keys m1 = keys m0 ++ ring_list h l;
  np_cache_ok : cache_ok m1;
  np_cache_le : cache_le (hashs m0) (hashs m1);
  np_cache_cover : ∀ kr, kr ∈ l →
    ∃ hs, hashs m1 !! kr.1 = Some hs ∧ (Z.to_nat kr.2 ≤ length hs)%nat ∧
          ∀ p, p ∈ positions_of h kr → p ∈ hs;
  np_owner : ∀ p, p ∈ ring_list h l →
    ∃ kr, kr ∈ l ∧ p ∈ positions_of h kr ∧ hashMap m1 !! p = Some kr.1;
  np_other : ∀ p, p ∉ ring_list h l → hashMap m1 !! p = hashMap m0 !! p
}.

(** The ring of [m] is the one [calc] builds from the weights [reps]. *)
Record built (m : Map) (reps : gmap string Z) : Prop := {
  bt_sorted : Sorted Z.le (keys m);
  bt_keys : keys m ≡ₚ ring_list (hash m) (map_to_list reps);
  bt_owner : ∀ p, p ∈ keys m →
    ∃ k r, reps !! k = Some r ∧ p ∈ positions_of (hash m) (k, r) ∧
           hashMap m !! p = Some k;
  bt_cover : ∀ k r, reps !! k = Some r →
    ∃ hs, hashs m !! k = Some hs ∧ (Z.to_nat r ≤ length hs)%nat
}.

(** What a run of the adjuster preserves. *)
Record adjusted (m m' : Map) : Prop := {
  adj_hash : hash m' = hash m;
  adj_replica : replica m' = replica m;
  adj_replicas : replicas m' = replicas m;
  adj_cache_ok : cache_ok m';
  adj_cache_le : cache_le (hashs m) (hashs m');
  adj_built : ∃ reps, built m' reps ∧ dom reps ⊆ dom (replicas m')
}.

(** The invariant of the ring: valid caches, positive target weights, a
    ring built from working weights of registered nodes, which are the
    target weights when the adjuster is skipped. *)
Record ring_inv (m : Map) : Prop := {
  ri_cache_ok : cache_ok m;
  ri_weights : ∀ k r, replicas m !! k = Some r → 1 ≤ r;
  ri_built : ∃ reps, built m reps ∧ dom reps ⊆ dom (replicas m);
  ri_plain : replica m < 10 ∨ (size (replicas m) ≤ 1)%nat → built m (replicas m)
}.

(** The cache of every registered node covers its target weight. *)
Definition covered (m : Map) : Prop :=
  ∀ k r, replicas m !! k = Some r →
    ∃ hs, hashs m !! k = Some hs ∧ (Z.to_nat r ≤ length hs)%nat.

(** Two rings agree when they hold the same positions and record the
    same owner for each of them (the tables may differ elsewhere). *)
Definition ring_eq (a b : Map) : Prop :=
  keys a = keys b ∧ ∀ p, p ∈ keys a → hashMap a !! p = hashMap b !! p.

(** Two rings agree and have the same hash function, default replica
    count and target weights. *)
Record agree (a b : Map) : Prop := {
  ag_hash : hash a = hash b;
  ag_replica : replica a = replica b;
  ag_replicas : replicas a = replicas b;
  ag_ring : ring_eq a b
}.

(** The ring of a reachable state is the outcome of the rebuild that the
    last effective mutation ran. *)
Definition fresh (rg : RangeOrder) (m : Map) : Prop :=
  (replicas m = ∅) ∨
  ∃ m0 o, cache_ok m0 ∧ keys m0 = [] ∧ hash m0 = hash m ∧
          replica m0 = replica m ∧ replicas m0 = replicas m ∧
          adjust rg 5 0.75%float m0 = (o, m).

(** ** Concrete rings *)

(** The ring of [TestHashing] after [Add("6", "4", "2")], and after the
    further [Add("8")]. *)
Definition scenario (rg : RangeOrder) : Map :=
  (Add rg ["6"; "4"; "2"] (New 3 (Some atoi_hash))).2.

Definition scenario8 (rg : RangeOrder) : Map := (Add rg ["8"] (scenario rg)).2.

(** Two nodes of weights 1 and 3 on a ring with default replica count
    10, on which the adjuster runs; and the weight of node 1 raised by
    one. *)
Definition skewed_calls : list op :=
  [OpAddWithWeight "1" 1; OpAddWithWeight "2" 3].

Definition skewed : Map :=
  (run map_order skewed_calls (New 10 (Some atoi_hash))).2.

Definition skewed_grown : outcome unit * Map :=
  AddWithWeight map_order "1" 2 skewed.

(** The ring [skewed] reached by other calls, with the maps visited in
    the opposite order. *)
Definition skewed_again : Map :=
  (run reverse_order
       [OpAddWithWeight "2" 2; OpAddWithWeight "1" 1; OpAddWithWeight "2" 3]
       (New 10 (Some atoi_hash))).2.

(** Two nodes whose positions collide ([Atoi] reads 01, 11, 21 and 001,
    101, 201 as the same numbers). *)
Definition collided (rg : RangeOrder) : Map :=
  (run rg [OpAdd ["1"; "01"]] (New 3 (Some atoi_hash))).2.

(** The membership of [skewed] on a ring with default replica count 1. *)
Definition unadjusted : Map :=
  (run map_order [OpAddWithWeight "1" 1; OpAddWithWeight "2" 3]
       (New 1 (Some atoi_hash))).2.

(** Two nodes of weight 2 on a ring with default replica count 10: the
    ring after the first call, the state in which the second call enters
    the adjuster, the ring it builds before its first pass, the ring it
    builds after that pass, and the outcome of the second call. *)
Definition pair_calls : list op :=
  [OpAddWithWeight "1" 2; OpAddWithWeight "2" 2].

Definition pair_first : Map :=
  (AddWithWeight map_order "1" 2 (New 10 (Some atoi_hash))).2.

Definition pair_start : Map :=
  set_replicas (<["2" := 2]> (replicas pair_first)) (set_keys [] pair_first).

Definition pair_pass1 : Map := calc map_order (replicas pair_start) pair_start.

Definition pair_pass2 : Map :=
  calc map_order (<["2" := 2]> {["1" := 1]}) pair_pass1.

Definition pair_ring : outcome unit * Map :=
  AddWithWeight map_order "2" 2 pair_first.

(** Three nodes added with the default weight 10, whose working weights
    the adjuster drives to zero or below by its fifth pass. *)
Definition emptied_calls : list op :=
  [OpAdd ["3435973836"; "2000000000"; "9"]].

Definition emptied : outcome unit * Map :=
  run map_order emptied_calls (New 10 (Some atoi_hash)).

(** * The earlier version of the package

    [consistenthash.go] also holds the version of the package that
    precedes the hash cache: the mutators only record the weights and
    mark the ring as stale by setting [hashMap] to nil, and [Get]
    rebuilds a stale ring through [init] before it searches.  [init]
    makes a single adjustment pass, with no dead band. *)

Module V1.

(** [hashMap] is [None] for Go's nil map; [ranges] counts the runs of
    [calc], as in the later version. *)
Record Map : Type := mkMap {
  hash : string → Z;
  replica : Z;
  keys : list Z;
  hashMap : option (gmap Z string);
  replicas : gmap string Z;
  ranges : nat
}.

Definition New (r : Z) (fn : option (string → Z)) : Map :=
  mkMap (default ChecksumIEEE fn) r [] None ∅ 0.

Definition IsEmpty (m : Map) : bool := (size (replicas m) =? 0)%nat.

Definition AddWithWeight (key : string) (w : Z) (m : Map) : outcome unit * Map :=
  if w <? 1 then (Panic "replica should be positive", m)
  else if bool_decide (default 0 (replicas m !! key) = w) then (Ret tt, m)
  else (Ret tt, mkMap (hash m) (replica m) (keys m) None
                      (<[key := w]> (replicas m)) (ranges m)).

Fixpoint Add (ks : list string) (m : Map) : outcome unit * Map :=
  match ks with
  | [] => (Ret tt, m)
  | key :: ks' =>
      match AddWithWeight key (replica m) m with
      | (Ret _, m') => Add ks' m'
      | (Panic msg, m') => (Panic msg, m')
      end
  end.

Definition Remove (key : string) (m : Map) : Map :=
  mkMap (hash m) (replica m) (keys m) None (delete key (replicas m)) (ranges m).

(** [m.hashMap[p]]: the empty string when the table is nil or has no
    entry. *)
Definition owner (m : Map) (p : Z) : string :=
  default "" (hm ← hashMap m; hm !! p).

(** One turn of the inner loop of [calc]. *)
Definition place (h : string → Z) (key : string)
    (st : list Z * gmap Z string) (i : nat) : list Z * gmap Z string :=
  let p := position h i key in (st.1 ++ [p], <[p := key]> st.2).

(** One turn of the outer loop of [calc], for the entry [key, r]. *)
Definition calc_node (h : string → Z) (st : list Z * gmap Z string)
    (kr : string * Z) : list Z * gmap Z string :=
  foldl (place h kr.1) st (seq 0 (Z.to_nat kr.2)).

Definition calc (rg : RangeOrder) (reps : gmap string Z) (m : Map) : Map :=
  let st := foldl (calc_node (hash m)) ([], ∅) (visit rg (ranges m) reps) in
  mkMap (hash m) (replica m) (merge_sort Z.le st.1) (Some st.2) (replicas m)
        (S (ranges m)).

(** [stat[m.hashMap[h]] += h - prev]. *)
Definition stat_add (m : Map) (stat : gmap string Z) (prev h : Z) : gmap string Z :=
  <[owner m h := int64 (default 0 (stat !! owner m h) + (h - prev))]> stat.

Fixpoint arcs (m : Map) (prev : Z) (ks : list Z) (stat : gmap string Z)
    : gmap string Z :=
  match ks with
  | [] => stat
  | h :: ks' => arcs m h ks' (stat_add m stat prev h)
  end.

Definition load_stat (m : Map) (k0 : Z) (rest : list Z) : gmap string Z :=
  arcs m k0 rest {[ owner m k0 := int64 (k0 + 2 ^ 32 - List.last rest k0) ]}.

(** One turn of the loop over [stat]: [reps[k] = rep + adjust], where
    the weight [rep] is both the working and the target weight. *)
Definition adjust_node (scale : PrimFloat.float) (m : Map) (total : Z)
    (reps : gmap string Z) (kv : string * Z) : gmap string Z :=
  let rep := default 0 (replicas m !! kv.1) in
  <[kv.1 := int64 (rep + correction scale rep rep total kv.2)]> reps.

Definition init (rg : RangeOrder) (scale : PrimFloat.float) (m : Map)
    : outcome unit * Map :=
  match hashMap m with
  | Some _ => (Ret tt, m)
  | None =>
      let m1 := calc rg (replicas m) m in
      if (size (replicas m1) <=? 1)%nat || (replica m1 <? 10) then (Ret tt, m1)
      else
        match keys m1 with
        | [] => (Panic index_panic, m1)
        | k0 :: rest =>
            let reps := foldl (adjust_node scale m1 (total_weight (replicas m1))) ∅
                              (map_to_list (load_stat m1 k0 rest)) in
            (Ret tt, calc rg reps m1)
        end
  end.

(** [Get] rebuilds a stale ring, so it yields the state it leaves
    behind together with its outcome. *)
Definition Get (rg : RangeOrder) (key : string) (m : Map) : outcome string * Map :=
  if IsEmpty m then (Ret "", m)
  else
    match init rg 1%float m with
    | (Panic msg, m1) => (Panic msg, m1)
    | (Ret _, m1) =>
        match keys m1 !! lookup_in (uint32 (hash m1 key)) (keys m1) with
        | Some p => (Ret (owner m1 p), m1)
        | None => (Panic index_panic, m1)
        end
    end.

(** The calls of the package, [Get] among them since it changes the
    state. *)
Inductive call : Type :=
  | CAdd (ks : list string)
  | CAddWithWeight (key : string) (w : Z)
  | CRemove (key : string)
  | CGet (key : string).

Definition exec (rg : RangeOrder) (c : call) (m : Map) : Map :=
  match c with
  | CAdd ks => (Add ks m).2
  | CAddWithWeight key w => (AddWithWeight key w m).2
  | CRemove key => Remove key m
  | CGet key => (Get rg key m).2
  end.

(** The states a ring can be in: a new ring, and the state any call
    leaves a reachable ring in. *)
Inductive reachable (rg : RangeOrder) : Map → Prop :=
  | reach_New r fn : reachable rg (New r fn)
  | reach_exec c m : reachable rg m → reachable rg (exec rg c m).

(** The ring of [m] is built from the weights [reps]. *)
Record built (m : Map) (reps : gmap string Z) : Prop := {
  bt_sorted : Sorted Z.le (keys m);
  bt_keys : keys m ≡ₚ ring_list (hash m) (map_to_list reps);
  bt_owner : ∀ p, p ∈ keys m →
    ∃ k r, reps !! k = Some r ∧ p ∈ positions_of (hash m) (k, r) ∧
           (hm ← hashMap m; hm !! p) = Some k
}.

(** The invariant: positive weights, and a ring that is not stale is
    built from weights of registered nodes, the registered weights when
    the adjustment is skipped. *)
Record ring_inv (m : Map) : Prop := {
  ri_weights : ∀ k r, replicas m !! k = Some r → 1 ≤ r;
  ri_built : is_Some (hashMap m) →
    ∃ reps, built m reps ∧ dom reps ⊆ dom (replicas m);
  ri_plain : is_Some (hashMap m) →
    replica m < 10 ∨ (size (replicas m) ≤ 1)%nat → built m (replicas m)
}.

End V1.

(** * Lemmas *)

(** ** Ring builder: what [calc] computes *)

Lemma write_all_lookup key ps hm p :
  write_all key hm ps !! p = if bool_decide (p ∈ ps) then Some key else hm !! p.
Proof.
  unfold write_all. revert hm.
  induction ps as [|q ps IH]; intros hm; cbn [foldl].
  - rewrite bool_decide_eq_false_2; [done | apply not_elem_of_nil].
  - rewrite IH. destruct (decide (p ∈ ps)) as [Hin|Hin].
    + rewrite !bool_decide_eq_true_2; [done | by right | done].
    + rewrite (bool_decide_eq_false_2 (p ∈ ps)) by done.
      destruct (decide (p = q)) as [->|Hne].
      * rewrite lookup_insert_eq, bool_decide_eq_true_2; [done | by left].
      * rewrite lookup_insert_ne by done.
        rewrite bool_decide_eq_false_2; [done |].
        intros [?|?]%elem_of_cons; done.
Qed.

Lemma write_all_snoc key hm ps p :
  write_all key hm (ps ++ [p]) = <[p := key]> (write_all key hm ps).
Proof. unfold write_all. by rewrite foldl_app. Qed.

Section place.
Variable h : string → Z.
Variable key : string.

Lemma cache_valid_nil : cache_valid h key [].
Proof. intros i p Hi. by rewrite lookup_nil in Hi. Qed.

Lemma cache_valid_app hs ext :
  cache_valid h key hs →
  (∀ j p, ext !! j = Some p → p = position h (length hs + j) key) →
  cache_valid h key (hs ++ ext).
Proof.
  intros Hv He i p Hi. apply lookup_app_Some in Hi as [Hi|[Hle Hi]].
  - by apply Hv.
  - apply He in Hi. by replace (length hs + (i - length hs))%nat with i in Hi by lia.
Qed.

(** The inner loop of [calc] run for the indices [0 .. n-1]. *)
Lemma place_fold n hs ks hm :
  cache_valid h key hs →
  foldl (place h key) (hs, ks, hm) (seq 0 n) =
    (hs ++ ((λ i, position h i key) <$> seq (length hs) (n - length hs)),
     ks ++ ((λ i, position h i key) <$> seq 0 n),
     write_all key hm ((λ i, position h i key) <$> seq 0 n)).
Proof.
  intros Hv. induction n as [|n IH].
  - simpl. by rewrite !app_nil_r.
  - rewrite seq_S, foldl_app, IH, !fmap_app. cbn [fmap list_fmap foldl place Nat.add].
    rewrite write_all_snoc.
    destruct (decide (n < length hs)%nat) as [Hlt|Hge].
    + replace (n - length hs)%nat with 0%nat by lia.
      replace (S n - length hs)%nat with 0%nat by lia. simpl.
      rewrite app_nil_r. destruct (lookup_lt_is_Some_2 hs n Hlt) as [p Hp].
      rewrite Hp. rewrite (Hv _ _ Hp). by rewrite <- !(assoc_L (++)).
    + replace (S n - length hs)%nat with (S (n - length hs)) by lia.
      rewrite seq_S, fmap_app. simpl.
      replace (length hs + (n - length hs))%nat with n by lia.
      rewrite lookup_ge_None_2.
      2:{ rewrite length_app, length_fmap, length_seq. lia. }
      by rewrite <- !(assoc_L (++)).
Qed.
End place.

Lemma calc_node_eq m kr :
  cache_ok m →
  calc_node m kr =
    mkMap (hash m) (replica m) (keys m ++ positions_of (hash m) kr)
      (write_all kr.1 (hashMap m) (positions_of (hash m) kr))
      (<[kr.1 := default [] (hashs m !! kr.1) ++
                 ((λ i, position (hash m) i kr.1) <$>
                    seq (length (default [] (hashs m !! kr.1)))
                        (Z.to_nat kr.2 - length (default [] (hashs m !! kr.1))))]>
         (hashs m))
      (replicas m) (ranges m).
Proof.
  intros Hc. destruct kr as [key r]. unfold calc_node, positions_of. simpl.
  rewrite place_fold; [done |].
  destruct (hashs m !! key) as [hs|] eqn:E; simpl.
  - by apply Hc.
  - apply cache_valid_nil.
Qed.

Lemma cache_le_refl c : cache_le c c.
Proof. intros k hs Hk. exists []. by rewrite app_nil_r. Qed.

Lemma cache_le_trans c1 c2 c3 : cache_le c1 c2 → cache_le c2 c3 → cache_le c1 c3.
Proof.
  intros H12 H23 k hs Hk. destruct (H12 _ _ Hk) as [e1 H1].
  destruct (H23 _ _ H1) as [e2 H2]. exists (e1 ++ e2). by rewrite (assoc_L (++)).
Qed.

Lemma cache_disjoint_le c c' : cache_le c c' → cache_disjoint c' → cache_disjoint c.
Proof.
  intros Hle Hd k1 k2 hs1 hs2 p H1 H2 Hp1 Hp2.
  destruct (Hle _ _ H1) as [e1 H1']. destruct (Hle _ _ H2) as [e2 H2'].
  apply (Hd k1 k2 _ _ p H1' H2'); apply elem_of_app; by left.
Qed.

Lemma elem_of_positions_of h kr p :
  p ∈ positions_of h kr ↔ ∃ i, (i < Z.to_nat kr.2)%nat ∧ p = position h i kr.1.
Proof.
  unfold positions_of. rewrite list_elem_of_fmap. split.
  - intros (i & -> & Hi). apply elem_of_seq in Hi. exists i. split; [lia | done].
  - intros (i & Hi & ->). exists i. split; [done |]. apply elem_of_seq. lia.
Qed.

(** *** One turn of the outer loop *)

Section calc_node.
Variable m : Map.
Variable kr : string * Z.
Hypothesis Hok : cache_ok m.

Lemma calc_node_hash : hash (calc_node m kr) = hash m.
Proof. by rewrite calc_node_eq. Qed.

Lemma calc_node_replica : replica (calc_node m kr) = replica m.
Proof. by rewrite calc_node_eq. Qed.

Lemma calc_node_replicas : replicas (calc_node m kr) = replicas m.
Proof. by rewrite calc_node_eq. Qed.

Lemma calc_node_ranges : ranges (calc_node m kr) = ranges m.
Proof. by rewrite calc_node_eq. Qed.

Lemma calc_node_keys :
  keys (calc_node m kr) = keys m ++ positions_of (hash m) kr.
Proof. by rewrite calc_node_eq. Qed.

Lemma calc_node_hashMap p :
  hashMap (calc_node m kr) !! p =
    if bool_decide (p ∈ positions_of (hash m) kr) then Some kr.1
    else hashMap m !! p.
Proof. rewrite calc_node_eq by done. simpl. apply write_all_lookup. Qed.

Lemma calc_node_cache_le : cache_le (hashs m) (hashs (calc_node m kr)).
Proof.
  rewrite calc_node_eq by done. simpl. intros k hs Hk.
  destruct (decide (k = kr.1)) as [->|Hne].
  - rewrite Hk. simpl. eexists. by rewrite lookup_insert_eq.
  - exists []. by rewrite lookup_insert_ne, app_nil_r.
Qed.

Lemma calc_node_cache_ok : cache_ok (calc_node m kr).
Proof.
  rewrite calc_node_eq by done. intros k hs. simpl.
  destruct (decide (k = kr.1)) as [->|Hne].
  - rewrite lookup_insert_eq. intros [= <-]. apply cache_valid_app.
    + destruct (hashs m !! kr.1) as [hs0|] eqn:E; simpl.
      * by apply Hok.
      * apply cache_valid_nil.
    + intros j p Hj. apply list_lookup_fmap_Some in Hj as (i & -> & Hi).
      apply lookup_seq in Hi as [-> _]. done.
  - rewrite lookup_insert_ne by done. apply Hok.
Qed.

Lemma calc_node_cache_len :
  ∃ hs, hashs (calc_node m kr) !! kr.1 = Some hs ∧
        (Z.to_nat kr.2 ≤ length hs)%nat ∧
        ∀ p, p ∈ positions_of (hash m) kr → p ∈ hs.
Proof.
  pose proof calc_node_cache_ok as Hok'. revert Hok'.
  rewrite calc_node_eq by done. simpl. intros Hok'.
  eexists. split; [apply lookup_insert_eq |].
  specialize (Hok' kr.1 _ (lookup_insert_eq _ _ _)).
  match goal with |- (_ ≤ length ?l)%nat ∧ _ => set (hs' := l) in * end.
  assert (Z.to_nat kr.2 ≤ length hs')%nat as Hlen.
  { unfold hs'. rewrite length_app, length_fmap, length_seq. lia. }
  split; [done |].
  intros p (i & Hi & ->)%elem_of_positions_of.
  destruct (lookup_lt_is_Some_2 hs' i) as [q Hq]; [lia |].
  specialize (Hok' _ _ Hq). simpl in Hok'. rewrite <- Hok'.
  by eapply list_elem_of_lookup_2.
Qed.
End calc_node.

(** *** The outer loop and the whole of [calc] *)

Lemma ring_list_snoc h l kr :
  ring_list h (l ++ [kr]) = ring_list h l ++ positions_of h kr.
Proof. unfold ring_list. rewrite bind_app. simpl. by rewrite app_nil_r. Qed.

Lemma elem_of_ring_list h l p :
  p ∈ ring_list h l ↔ ∃ kr, kr ∈ l ∧ p ∈ positions_of h kr.
Proof.
  unfold ring_list. rewrite list_elem_of_bind. split.
  - intros (kr & Hp & Hkr). by exists kr.
  - intros (kr & Hkr & Hp). by exists kr.
Qed.

Lemma ring_list_perm h l1 l2 : l1 ≡ₚ l2 → ring_list h l1 ≡ₚ ring_list h l2.
Proof. intros Hp. unfold ring_list. by rewrite Hp. Qed.

Lemma calc_nodes_placed l m0 :
  cache_ok m0 → nodes_placed (hash m0) l m0 (foldl calc_node m0 l).
Proof.
  intros Hok. induction l as [|kr l IH] using rev_ind.
  - simpl. split; try done.
    + by rewrite app_nil_r.
    + apply cache_le_refl.
    + intros kr Hkr. by apply elem_of_nil in Hkr.
    + intros p Hp. by apply elem_of_nil in Hp.
  - rewrite foldl_app. simpl. set (m1 := foldl calc_node m0 l) in *.
    destruct IH as [Hh Hr Hrs Hrg Hk Hc Hle Hcov Hown Hoth].
    split.
    + by rewrite calc_node_hash.
    + by rewrite calc_node_replica.
    + by rewrite calc_node_replicas.
    + by rewrite calc_node_ranges.
    + rewrite calc_node_keys, Hk, Hh, ring_list_snoc by done.
      by rewrite (assoc_L (++)).
    + by apply calc_node_cache_ok.
    + eapply cache_le_trans; [done | by apply calc_node_cache_le].
    + intros kr' [Hin| ->%list_elem_of_singleton]%elem_of_app.
      * destruct (Hcov _ Hin) as (hs & Hhs & Hlen & Hsub).
        destruct (calc_node_cache_le m1 kr Hc _ _ Hhs) as [ext Hext].
        exists (hs ++ ext). split; [done |]. split.
        -- rewrite length_app. lia.
        -- intros p Hp. apply elem_of_app. left. by apply Hsub.
      * rewrite <- Hh. by apply calc_node_cache_len.
    + intros p Hp. rewrite calc_node_hashMap, Hh by done.
      case_bool_decide as Hnew.
      * exists kr. split; [apply elem_of_app; right; by left | done].
      * rewrite ring_list_snoc in Hp. apply elem_of_app in Hp as [Hp|Hp]; [|done].
        destruct (Hown _ Hp) as (kr' & Hin & Hpos & Hm).
        exists kr'. split; [apply elem_of_app; by left | done].
    + intros p Hp. rewrite ring_list_snoc in Hp.
      rewrite calc_node_hashMap, Hh by done.
      rewrite bool_decide_eq_false_2.
      * apply Hoth. intros ?. apply Hp, elem_of_app. by left.
      * intros ?. apply Hp, elem_of_app. by right.
Qed.

Section calc.
Variable rg : RangeOrder.
Variable reps : gmap string Z.
Variable m : Map.
Hypothesis Hok : cache_ok m.

Lemma elem_of_visit n kr : kr ∈ visit rg n reps ↔ reps !! kr.1 = Some kr.2.
Proof.
  rewrite (visit_perm rg n reps). destruct kr as [k r].
  apply elem_of_map_to_list.
Qed.

Lemma calc_unfold :
  calc rg reps m =
    set_keys (merge_sort Z.le (ring_list (hash m) (visit rg (ranges m) reps)))
      (foldl calc_node
         (mkMap (hash m) (replica m) [] (hashMap m) (hashs m) (replicas m)
                (S (ranges m)))
         (visit rg (ranges m) reps)).
Proof.
  unfold calc. f_equal.
  match goal with |- context [foldl calc_node ?m0 ?l] =>
    destruct (calc_nodes_placed l m0 Hok) as [_ _ _ _ Hk _ _ _ _ _] end.
  by rewrite Hk.
Qed.

Lemma calc_hash : hash (calc rg reps m) = hash m.
Proof.
  unfold calc. simpl.
  match goal with |- context [foldl calc_node ?m0 ?l] =>
    by destruct (calc_nodes_placed l m0 Hok) as [-> _ _ _ _ _ _ _ _ _] end.
Qed.

Lemma calc_replica : replica (calc rg reps m) = replica m.
Proof.
  unfold calc. simpl.
  match goal with |- context [foldl calc_node ?m0 ?l] =>
    by destruct (calc_nodes_placed l m0 Hok) as [_ -> _ _ _ _ _ _ _ _] end.
Qed.

Lemma calc_replicas : replicas (calc rg reps m) = replicas m.
Proof.
  unfold calc. simpl.
  match goal with |- context [foldl calc_node ?m0 ?l] =>
    by destruct (calc_nodes_placed l m0 Hok) as [_ _ -> _ _ _ _ _ _ _] end.
Qed.

Lemma calc_ranges : ranges (calc rg reps m) = S (ranges m).
Proof.
  unfold calc. simpl.
  match goal with |- context [foldl calc_node ?m0 ?l] =>
    by destruct (calc_nodes_placed l m0 Hok) as [_ _ _ -> _ _ _ _ _ _] end.
Qed.

Lemma calc_keys :
  keys (calc rg reps m) =
    merge_sort Z.le (ring_list (hash m) (visit rg (ranges m) reps)).
Proof. by rewrite calc_unfold. Qed.

Lemma calc_keys_perm :
  keys (calc rg reps m) ≡ₚ ring_list (hash m) (map_to_list reps).
Proof.
  rewrite calc_keys, merge_sort_Permutation.
  apply ring_list_perm, visit_perm.
Qed.

Lemma calc_sorted : Sorted Z.le (keys (calc rg reps m)).
Proof. rewrite calc_keys. apply (Sorted_merge_sort Z.le). Qed.

Lemma calc_cache_ok : cache_ok (calc rg reps m).
Proof.
  unfold calc.
  match goal with |- context [foldl calc_node ?m0 ?l] =>
    destruct (calc_nodes_placed l m0 Hok) as [_ _ _ _ _ Hc _ _ _ _] end.
  exact Hc.
Qed.

Lemma calc_cache_le : cache_le (hashs m) (hashs (calc rg reps m)).
Proof.
  unfold calc. simpl.
  match goal with |- context [foldl calc_node ?m0 ?l] =>
    by destruct (calc_nodes_placed l m0 Hok) as [_ _ _ _ _ _ Hle _ _ _] end.
Qed.

(** After [calc] the cache of every node of the weight map covers the
    node's positions. *)
Lemma calc_cache_cover k r :
  reps !! k = Some r →
  ∃ hs, hashs (calc rg reps m) !! k = Some hs ∧ (Z.to_nat r ≤ length hs)%nat ∧
        ∀ p, p ∈ positions_of (hash m) (k, r) → p ∈ hs.
Proof.
  intros Hk. unfold calc. simpl.
  match goal with |- context [foldl calc_node ?m0 ?l] =>
    destruct (calc_nodes_placed l m0 Hok) as [_ _ _ _ _ _ _ Hcov _ _] end.
  apply (Hcov (k, r)). by apply elem_of_visit.
Qed.

(** Every position of the ring is owned by a node of the weight map
    that has it among its positions. *)
Lemma calc_owner p :
  p ∈ keys (calc rg reps m) →
  ∃ k r, reps !! k = Some r ∧ p ∈ positions_of (hash m) (k, r) ∧
         hashMap (calc rg reps m) !! p = Some k.
Proof.
  rewrite calc_keys, merge_sort_Permutation. intros Hp.
  unfold calc. simpl.
  match goal with |- context [foldl calc_node ?m0 ?l] =>
    destruct (calc_nodes_placed l m0 Hok) as [_ _ _ _ _ _ _ _ Hown _] end.
  destruct (Hown _ Hp) as ([k r] & Hin & Hpos & Hm).
  exists k, r. split; [by apply elem_of_visit in Hin | done].
Qed.

(** Conversely, every position of every node of the weight map is in
    the ring. *)
Lemma calc_keys_complete k r p :
  reps !! k = Some r → p ∈ positions_of (hash m) (k, r) →
  p ∈ keys (calc rg reps m).
Proof.
  intros Hk Hp. rewrite calc_keys, merge_sort_Permutation.
  apply elem_of_ring_list. exists (k, r). split; [|done].
  by apply elem_of_visit.
Qed.
End calc.

(** ** The loops whose order does not matter *)

Lemma foldl_distinct_keys_perm {A V} (f : A → string * V → A) (l1 l2 : list (string * V)) :
  (∀ a x y, x.1 ≠ y.1 → f (f a x) y = f (f a y) x) →
  l1 ≡ₚ l2 → NoDup l1.*1 → ∀ a, foldl f a l1 = foldl f a l2.
Proof.
  intros Hcomm Hp. induction Hp as [|x l1 l2 Hp IH|x y l|l1 l2 l3 Hp1 IH1 Hp2 IH2];
    intros Hnd a; simpl.
  - done.
  - apply IH. simpl in Hnd. by apply NoDup_cons in Hnd as [_ Hnd].
  - f_equal. apply Hcomm. simpl in Hnd.
    apply NoDup_cons in Hnd as [Hy _]. intros Heq. apply Hy. rewrite Heq. by left.
  - rewrite IH1 by done. apply IH2. by rewrite <- Hp1.
Qed.

Lemma int64_add_l a b : int64 (int64 a + b) = int64 (a + b).
Proof.
  unfold int64. f_equal.
  replace ((a + 2 ^ 63) mod 2 ^ 64 - 2 ^ 63 + b + 2 ^ 63)
    with ((a + 2 ^ 63) mod 2 ^ 64 + b) by lia.
  rewrite Zplus_mod_idemp_l. f_equal. lia.
Qed.

(** The sum of the weights is the same in whatever order the map is
    visited. *)
Lemma total_weight_order (w : gmap string Z) (l : list (string * Z)) :
  l ≡ₚ map_to_list w →
  foldr (λ kr acc, int64 (acc + kr.2)) 0 l = total_weight w.
Proof.
  intros Hp. unfold total_weight.
  apply (foldr_permutation (=) (λ (kr : string * Z) acc, int64 (acc + kr.2)) 0
           l (map_to_list w)); [|exact Hp].
  intros j1 a1 j2 a2 b _ _ _.
  rewrite !int64_add_l. f_equal. lia.
Qed.

Lemma adjust_node_comm scale m total acc (x y : string * Z) :
  x.1 ≠ y.1 →
  adjust_node scale m total (adjust_node scale m total acc x) y =
  adjust_node scale m total (adjust_node scale m total acc y) x.
Proof.
  destruct acc as [reps changed], x as [k1 v1], y as [k2 v2]. simpl. intros Hne.
  unfold adjust_node.
  destruct (applies (correction scale (default 0 (reps !! k1))
                       (default 0 (replicas m !! k1)) total v1)) eqn:E1;
    destruct (applies (correction scale (default 0 (reps !! k2))
                         (default 0 (replicas m !! k2)) total v2)) eqn:E2;
    rewrite ?lookup_insert_ne by done; rewrite ?E1, ?E2; try done.
  by rewrite insert_insert_ne.
Qed.

(** A pass computes the same in whatever order [stat] is visited. *)
Lemma adjust_pass_order scale m total reps k0 rest (l : list (string * Z)) :
  l ≡ₚ map_to_list (load_stat m k0 rest) →
  foldl (adjust_node scale m total) (reps, false) l =
    adjust_pass scale m total reps k0 rest.
Proof.
  intros Hp. unfold adjust_pass. symmetry.
  apply foldl_distinct_keys_perm; [|done|].
  - intros a x y. apply adjust_node_comm.
  - apply NoDup_fst_map_to_list.
Qed.

(** ** Binary search *)

Section Search.
Variable n : nat.
Variable f : nat → bool.
Hypothesis f_mono : ∀ a b, (a ≤ b)%nat → (b < n)%nat → f a = true → f b = true.

Lemma search_loop_spec fuel i j :
  (i ≤ j)%nat → (j ≤ n)%nat → (j - i ≤ fuel)%nat →
  (∀ k, (k < i)%nat → f k = false) →
  (∀ k, (j ≤ k)%nat → (k < n)%nat → f k = true) →
  let r := search_loop fuel f i j in
  (r ≤ n)%nat ∧ (∀ k, (k < r)%nat → f k = false) ∧
  (∀ k, (r ≤ k)%nat → (k < n)%nat → f k = true).
Proof.
  revert i j. induction fuel as [|fuel IH]; intros i j Hij Hjn Hfuel Hlo Hhi.
  - simpl. assert (i = j) as -> by lia. auto.
  - cbn [search_loop]. cbv zeta in IH |- *.
    destruct (Nat.ltb_spec i j) as [Hlt|Hge].
    + pose proof (Nat.div_mod_eq (i + j) 2) as Hdiv.
      pose proof (Nat.mod_upper_bound (i + j) 2) as Hmod.
      set (h := ((i + j) / 2)%nat) in *.
      assert (i ≤ h ∧ h < j)%nat as [Hih Hhj] by lia.
      destruct (f h) eqn:Hfh.
      * apply IH; try lia; [done |].
        intros k Hk Hkn. by apply (f_mono h).
      * apply IH; try lia; [|done].
        intros k Hk. destruct (f k) eqn:Hfk; [|done].
        destruct (decide (k < i)%nat); [by rewrite Hlo in Hfk |].
        rewrite (f_mono k h) in Hfh; [done | lia | lia | done].
    + assert (i = j) as -> by lia. auto.
Qed.

Lemma Search_spec :
  (Search n f ≤ n)%nat ∧ (∀ k, (k < Search n f)%nat → f k = false) ∧
  (∀ k, (Search n f ≤ k)%nat → (k < n)%nat → f k = true).
Proof.
  apply search_loop_spec; try lia.
Qed.
End Search.

Lemma Sorted_lookup_le (l : list Z) i j x y :
  Sorted Z.le l → (i ≤ j)%nat → l !! i = Some x → l !! j = Some y → x ≤ y.
Proof.
  intros Hs%(Sorted_StronglySorted Z.le). revert i j.
  induction Hs as [|a l Hs IH Hall]; intros i j Hij Hi Hj.
  - by rewrite lookup_nil in Hi.
  - destruct i as [|i], j as [|j]; simpl in *; try lia.
    + naive_solver lia.
    + injection Hi as ->. rewrite Forall_forall in Hall.
      apply Hall. by eapply list_elem_of_lookup_2.
    + apply (IH i j); [lia | done | done].
Qed.

(** ** Lookup on a sorted ring *)

Section lookup.
Variable m : Map.
Variable key : string.
Hypothesis Hsorted : Sorted Z.le (keys m).

Local Abbreviation h := (uint32 (hash m key)).

Lemma lookup_probe_mono a b :
  (a ≤ b)%nat → (b < length (keys m))%nat →
  (h <=? nth a (keys m) 0) = true → (h <=? nth b (keys m) 0) = true.
Proof.
  intros Hab Hb Ha.
  destruct (lookup_lt_is_Some_2 (keys m) a) as [x Hx]; [lia |].
  destruct (lookup_lt_is_Some_2 (keys m) b) as [y Hy]; [lia |].
  rewrite (nth_lookup_Some _ _ _ _ Hx) in Ha.
  rewrite (nth_lookup_Some _ _ _ _ Hy).
  pose proof (Sorted_lookup_le _ _ _ _ _ Hsorted Hab Hx Hy). lia.
Qed.

(** The index chosen by [lookup]: the first position at or after the
    hash of the key, or index 0 when every position is before it. *)
Lemma lookup_spec :
  keys m ≠ [] →
  ∃ p, keys m !! lookup key m = Some p ∧
    ((h ≤ p ∧ (∀ i q, (i < lookup key m)%nat → keys m !! i = Some q → q < h))
     ∨ (lookup key m = 0%nat ∧ ∀ q, q ∈ keys m → q < h)).
Proof.
  intros Hne. unfold lookup. fold h.
  destruct (Search_spec (length (keys m)) (λ i, h <=? nth i (keys m) 0)
              lookup_probe_mono) as (Hle & Hlo & Hhi).
  set (idx := Search _ _) in *.
  destruct (Nat.eqb_spec idx (length (keys m))) as [Heq|Hneq].
  - destruct (keys m) as [|p ks] eqn:Hk; [done |].
    exists p. split; [done |]. right. split; [done |].
    intros q Hq. apply list_elem_of_lookup_1 in Hq as [i Hi].
    pose proof (lookup_lt_Some _ _ _ Hi) as Hlt.
    specialize (Hlo i). rewrite Heq in Hlo. specialize (Hlo Hlt).
    rewrite (nth_lookup_Some _ _ _ _ Hi) in Hlo. lia.
  - destruct (lookup_lt_is_Some_2 (keys m) idx) as [p Hp]; [lia |].
    exists p. split; [done |]. left. split.
    + specialize (Hhi idx). rewrite (nth_lookup_Some _ _ _ _ Hp) in Hhi.
      apply Z.leb_le, Hhi; lia.
    + intros i q Hi Hq. specialize (Hlo i Hi).
      rewrite (nth_lookup_Some _ _ _ _ Hq) in Hlo. lia.
Qed.

Lemma lookup_lt : keys m ≠ [] → (lookup key m < length (keys m))%nat.
Proof.
  intros Hne. destruct (lookup_spec Hne) as (p & Hp & _).
  by eapply lookup_lt_Some.
Qed.
End lookup.

(** ** Invariants of the ring *)

Lemma calc_built rg reps m : cache_ok m → built (calc rg reps m) reps.
Proof.
  intros Hok. split.
  - by apply calc_sorted.
  - rewrite calc_hash by done. by apply calc_keys_perm.
  - intros p Hp. rewrite calc_hash by done. by apply calc_owner.
  - intros k r Hk. destruct (calc_cache_cover rg reps m Hok k r Hk) as (hs & ? & ? & _).
    by exists hs.
Qed.

Lemma built_owner_dom m reps p :
  built m reps → p ∈ keys m → owner m p ∈ dom reps.
Proof.
  intros Hb Hp. destruct (bt_owner _ _ Hb p Hp) as (k & r & Hk & _ & Hm).
  unfold owner. rewrite Hm. simpl. apply elem_of_dom. by exists r.
Qed.

(** The nodes that [stat] mentions own a position of the ring. *)
Lemma arcs_dom m prev ks stat k :
  k ∈ dom (arcs m prev ks stat) → k ∈ dom stat ∨ ∃ p, p ∈ ks ∧ k = owner m p.
Proof.
  revert prev stat. induction ks as [|h ks IH]; intros prev stat Hk; simpl in Hk.
  - by left.
  - apply IH in Hk as [Hk|(p & Hp & ->)].
    + unfold stat_add in Hk. rewrite dom_insert_L in Hk.
      apply elem_of_union in Hk as [->%elem_of_singleton|Hk]; [|by left].
      right. exists h. split; [by left | done].
    + right. exists p. split; [by right | done].
Qed.

Lemma load_stat_dom m k0 rest k :
  k ∈ dom (load_stat m k0 rest) → ∃ p, p ∈ k0 :: rest ∧ k = owner m p.
Proof.
  unfold load_stat. intros [Hk|(p & Hp & ->)]%arcs_dom.
  - rewrite dom_singleton_L in Hk. apply elem_of_singleton in Hk as ->.
    exists k0. split; [by left | done].
  - exists p. split; [by right | done].
Qed.

Lemma adjust_nodes_dom scale m total l acc k :
  k ∈ dom (foldl (adjust_node scale m total) acc l).1 →
  k ∈ dom acc.1 ∨ k ∈ l.*1.
Proof.
  revert acc. induction l as [|[k' v] l IH]; intros [reps changed] Hk; simpl in *.
  - by left.
  - apply IH in Hk as [Hk|Hk]; [|right; by right].
    destruct (applies _); simpl in Hk; [|by left].
    rewrite dom_insert_L in Hk.
    apply elem_of_union in Hk as [->%elem_of_singleton|Hk]; [right; by left | by left].
Qed.

Lemma adjust_pass_dom scale m total reps k0 rest :
  built m reps → keys m = k0 :: rest →
  dom (adjust_pass scale m total reps k0 rest).1 ⊆ dom reps.
Proof.
  intros Hb Hk k Hin. unfold adjust_pass in Hin.
  apply adjust_nodes_dom in Hin as [Hin|Hin]; [done |].
  apply list_elem_of_fmap in Hin as ([k' v] & -> & Hin). simpl.
  apply elem_of_map_to_list in Hin.
  assert (k' ∈ dom (load_stat m k0 rest)) as Hd by (apply elem_of_dom; eauto).
  apply load_stat_dom in Hd as (p & Hp & ->).
  apply (built_owner_dom m reps p Hb). by rewrite Hk.
Qed.

Lemma adjust_loop_adjusted rg tries scale total reps m o m' :
  cache_ok m → built m reps → dom reps ⊆ dom (replicas m) →
  adjust_loop rg tries scale total reps m = (o, m') →
  adjusted m m'.
Proof.
  revert reps m. induction tries as [|t IH]; intros reps m Hok Hb Hd Hrun; simpl in Hrun.
  - injection Hrun as <- <-. split; try done; [apply cache_le_refl | eauto].
  - destruct (keys m) as [|k0 rest] eqn:Hk.
    { injection Hrun as <- <-. split; try done; [apply cache_le_refl | eauto]. }
    pose proof (adjust_pass_dom scale m total reps k0 rest Hb Hk) as Hd'.
    destruct (adjust_pass scale m total reps k0 rest) as [reps' changed].
    destruct changed.
    + apply IH in Hrun.
      * destruct Hrun as [Hh Hr Hrs Hc Hle Hbt]. split.
        -- by rewrite Hh, calc_hash.
        -- by rewrite Hr, calc_replica.
        -- by rewrite Hrs, calc_replicas.
        -- done.
        -- eapply cache_le_trans; [by apply calc_cache_le | done].
        -- done.
      * by apply calc_cache_ok.
      * by apply calc_built.
      * rewrite calc_replicas by done. simpl in Hd'. set_solver.
    + injection Hrun as <- <-. split; try done; [apply cache_le_refl | eauto].
Qed.

Lemma adjust_adjusted rg tries scale m o m' :
  cache_ok m → keys m = [] → adjust rg tries scale m = (o, m') →
  adjusted m m' ∧
  (replica m < 10 ∨ (size (replicas m) ≤ 1)%nat →
     o = Ret tt ∧ m' = calc rg (replicas m) m).
Proof.
  intros Hok Hk Hrun. unfold adjust in Hrun. rewrite Hk in Hrun.
  cbn [length Nat.eqb negb] in Hrun.
  rewrite !calc_replicas, calc_replica in Hrun by done.
  pose proof (calc_built rg (replicas m) m Hok) as Hb.
  assert (adjusted m (calc rg (replicas m) m)) as Hadj.
  { split.
    - by apply calc_hash.
    - by apply calc_replica.
    - by apply calc_replicas.
    - by apply calc_cache_ok.
    - by apply calc_cache_le.
    - exists (replicas m). split; [done |]. by rewrite calc_replicas. }
  destruct (Nat.leb_spec (size (replicas m)) 1) as [Hs|Hs];
    destruct (Z.ltb_spec (replica m) 10) as [Hr|Hr]; simpl in Hrun;
    try (injection Hrun as <- <-; split; [done | auto]).
  apply adjust_loop_adjusted with (reps := replicas m) in Hrun.
  - split; [|lia]. destruct Hadj as [Hh1 Hr1 Hrs1 Hc1 Hle1 _].
    destruct Hrun as [Hh2 Hr2 Hrs2 Hc2 Hle2 Hb2]. split.
    + by rewrite Hh2.
    + by rewrite Hr2.
    + by rewrite Hrs2.
    + done.
    + by eapply cache_le_trans.
    + done.
  - by apply calc_cache_ok.
  - done.
  - by rewrite calc_replicas.
Qed.

Lemma adjust_built_skip rg tries scale m :
  keys m ≠ [] → adjust rg tries scale m = (Ret tt, m).
Proof. intros Hk. unfold adjust. by destruct (keys m). Qed.

Lemma New_inv r fn : ring_inv (New r fn).
Proof.
  assert (built (New r fn) ∅) as Hb.
  { split; simpl.
    - constructor.
    - by rewrite map_to_list_empty.
    - intros p Hp. by apply elem_of_nil in Hp.
    - intros k w Hk. by simplify_map_eq. }
  split; simpl.
  - intros k hs Hk. by simplify_map_eq.
  - intros k w Hk. by simplify_map_eq.
  - by exists ∅.
  - done.
Qed.

(** A mutation that empties the ring and runs the adjuster re-establishes
    the invariant. *)
Lemma rebuild_inv rg m o m' :
  cache_ok m → keys m = [] → (∀ k r, replicas m !! k = Some r → 1 ≤ r) →
  adjust rg 5 0.75%float m = (o, m') → ring_inv m'.
Proof.
  intros Hok Hk Hw Hrun.
  destruct (adjust_adjusted _ _ _ _ _ _ Hok Hk Hrun) as [[Hh Hr Hrs Hc Hle Hb] Hplain].
  split.
  - done.
  - by rewrite Hrs.
  - done.
  - rewrite Hr, Hrs. intros Hskip. destruct (Hplain Hskip) as [_ ->].
    by apply calc_built.
Qed.

Lemma AddWithWeight_inv rg key w m o m' :
  ring_inv m → AddWithWeight rg key w m = (o, m') → ring_inv m'.
Proof.
  intros Hinv Hrun. unfold AddWithWeight in Hrun.
  destruct (Z.ltb_spec w 1) as [Hw|Hw]; [by injection Hrun as <- <- |].
  case_bool_decide; [by injection Hrun as <- <- |].
  eapply rebuild_inv; [| |  |exact Hrun]; simpl.
  - apply (ri_cache_ok _ Hinv).
  - done.
  - intros k r Hk. simpl in Hk.
    apply lookup_insert_Some in Hk as [[-> <-]|[_ Hk]]; [done |].
    by apply (ri_weights _ Hinv k).
Qed.

Lemma Add_inv rg ks m o m' :
  ring_inv m → Add rg ks m = (o, m') → ring_inv m'.
Proof.
  revert m. induction ks as [|key ks IH]; intros m Hinv Hrun; simpl in Hrun.
  - by injection Hrun as <- <-.
  - destruct (AddWithWeight rg key (replica m) m) as [[[]|msg] m1] eqn:E.
    + eapply IH; [|done]. by eapply AddWithWeight_inv.
    + injection Hrun as <- <-. by eapply AddWithWeight_inv.
Qed.

Lemma Remove_inv rg key m o m' :
  ring_inv m → Remove rg key m = (o, m') → ring_inv m'.
Proof.
  intros Hinv Hrun. unfold Remove in Hrun.
  destruct (replicas m !! key) as [r|] eqn:E; [|by injection Hrun as <- <-].
  eapply rebuild_inv; [| |  |exact Hrun]; simpl.
  - intros k hs Hk. simpl in Hk. apply lookup_delete_Some in Hk as [_ Hk].
    by apply (ri_cache_ok _ Hinv k).
  - done.
  - intros k w Hk. simpl in Hk. apply lookup_delete_Some in Hk as [_ Hk].
    by apply (ri_weights _ Hinv k).
Qed.

(** ** Sequences of mutations *)

Lemma exec_inv rg o m out m' : ring_inv m → exec rg o m = (out, m') → ring_inv m'.
Proof.
  destruct o; simpl; eauto using Add_inv, AddWithWeight_inv, Remove_inv.
Qed.

Lemma reachable_inv rg m : reachable rg m → ring_inv m.
Proof. induction 1; eauto using New_inv, exec_inv. Qed.

Lemma run_reachable rg ops m out m' :
  reachable rg m → run rg ops m = (out, m') → reachable rg m'.
Proof.
  revert m. induction ops as [|o ops IH]; intros m Hm Hrun; simpl in Hrun.
  - by injection Hrun as <- <-.
  - destruct (exec rg o m) as [[[]|msg] m1] eqn:E.
    + eapply IH; [|done]. by eapply reach_exec.
    + injection Hrun as <- <-. by eapply reach_exec.
Qed.

(** ** What the mutators do to the fields *)

Lemma AddWithWeight_fields rg key w m o m' :
  cache_ok m → AddWithWeight rg key w m = (o, m') →
  hash m' = hash m ∧ replica m' = replica m ∧ cache_le (hashs m) (hashs m') ∧
  (1 ≤ w → replicas m' = <[key := w]> (replicas m)) ∧
  (w < 1 → o = Panic "replica should be positive" ∧ m' = m) ∧
  (1 ≤ w → replica m < 10 → o = Ret tt).
Proof.
  intros Hok Hrun. unfold AddWithWeight in Hrun.
  destruct (Z.ltb_spec w 1) as [Hw|Hw].
  { injection Hrun as <- <-. repeat split; try lia; apply cache_le_refl. }
  case_bool_decide as Hold.
  { injection Hrun as <- <-. repeat split; try lia; try apply cache_le_refl.
    intros _. symmetry. apply insert_id.
    destruct (replicas m !! key) as [r|]; simpl in Hold; [by subst | lia]. }
  match type of Hrun with adjust _ _ _ ?m0 = _ =>
    destruct (adjust_adjusted rg 5 0.75%float m0 o m') as [[Hh Hr Hrs Hc Hle _] Hplain];
      [exact Hok | done | done |] end.
  simpl in *. repeat split; try done; try lia.
  intros _ Hr10. apply Hplain. by left.
Qed.

Lemma Remove_fields rg key m o m' :
  cache_ok m → Remove rg key m = (o, m') →
  hash m' = hash m ∧ replica m' = replica m ∧
  replicas m' = delete key (replicas m) ∧
  (replica m < 10 → o = Ret tt).
Proof.
  intros Hok Hrun. unfold Remove in Hrun.
  destruct (replicas m !! key) as [r|] eqn:E.
  - match type of Hrun with adjust _ _ _ ?m0 = _ =>
      destruct (adjust_adjusted rg 5 0.75%float m0 o m') as [[Hh Hr Hrs Hc Hle _] Hplain];
        [| done | done |] end.
    { intros k hs Hk. simpl in Hk. apply lookup_delete_Some in Hk as [_ Hk].
      by apply (Hok k). }
    simpl in *. repeat split; try done. intros Hr10. apply Hplain. by left.
  - injection Hrun as <- <-. repeat split; try done.
    symmetry. by apply delete_id.
Qed.

Lemma Add_fields rg ks m o m' :
  cache_ok m → 1 ≤ replica m → Add rg ks m = (o, m') →
  hash m' = hash m ∧ replica m' = replica m ∧
  (o = Ret tt →
     replicas m' = foldl (λ w key, <[key := replica m]> w) (replicas m) ks) ∧
  (replica m < 10 → o = Ret tt).
Proof.
  revert m. induction ks as [|key ks IH]; intros m Hok Hr Hrun; simpl in Hrun.
  - by injection Hrun as <- <-.
  - destruct (AddWithWeight rg key (replica m) m) as [o1 m1] eqn:E.
    pose proof E as Hinv. apply AddWithWeight_fields in Hinv
      as (Hh1 & Hr1 & _ & Hrs1 & _ & Hret1); [|done].
    assert (cache_ok m1) as Hok1.
    { unfold AddWithWeight in E. destruct (replica m <? 1); [by injection E as <- <- |].
      case_bool_decide; [by injection E as <- <- |].
      by apply adjust_adjusted in E as [[] _]. }
    destruct o1 as [[]|msg].
    + apply IH in Hrun as (Hh & Hr' & Hrs & Hret); [| done | by rewrite Hr1].
      rewrite Hh, Hr', Hh1, Hr1. repeat split; try done.
      * intros Ho. simpl. rewrite <- Hrs1, <- Hr1 by done. by apply Hrs.
      * intros Hlt. apply Hret. by rewrite Hr1.
    + injection Hrun as <- <-. repeat split; try done.
      intros Hlt. by apply Hret1.
Qed.

(** ** Rings that the adjuster leaves alone *)

Lemma built_sole_owner m reps p k :
  built m reps → p ∈ keys m → sole_owner (hash m) reps p = Some k →
  owner m p = k.
Proof.
  intros Hb Hp Hsole. destruct (bt_owner _ _ Hb p Hp) as (k' & r & Hk & Hpos & Hm).
  unfold owner. rewrite Hm. simpl. unfold sole_owner in Hsole.
  assert ((k', r) ∈ filter (λ kr, p ∈ positions_of (hash m) kr) (map_to_list reps))
    as Hin.
  { apply list_elem_of_filter. split; [done |]. by apply elem_of_map_to_list. }
  destruct (filter _ _) as [|kr [|]]; try done.
  apply list_elem_of_singleton in Hin as <-. by injection Hsole.
Qed.

Lemma built_keys_eq m reps :
  built m reps → keys m = merge_sort Z.le (ring_list (hash m) (map_to_list reps)).
Proof.
  intros Hb. apply (Sorted_unique Z.le).
  - apply (bt_sorted _ _ Hb).
  - apply (Sorted_merge_sort Z.le).
  - rewrite merge_sort_Permutation. apply (bt_keys _ _ Hb).
Qed.

Lemma built_owners_eq m reps owners :
  built m reps →
  Forall2 (λ p k, sole_owner (hash m) reps p = Some k) (keys m) owners →
  owner m <$> keys m = owners.
Proof.
  intros Hb.
  assert (∀ ks, (∀ p, p ∈ ks → p ∈ keys m) →
            Forall2 (λ p k, sole_owner (hash m) reps p = Some k) ks owners →
            owner m <$> ks = owners) as Hgen; [|by apply Hgen].
  intros ks. revert owners. induction ks as [|p ks IH]; intros owners Hsub Hall.
  - by inversion Hall.
  - inversion Hall as [|? k ? owners' Hp Hrest]; subst. simpl. f_equal.
    + eapply built_sole_owner; [done | | done]. apply Hsub. by left.
    + apply IH; [|done]. intros q Hq. apply Hsub. by right.
Qed.

Lemma Get_owner m key p :
  replicas m ≠ ∅ → keys m !! lookup key m = Some p → Get key m = Ret (owner m p).
Proof.
  intros Hne Hp. unfold Get, IsEmpty, owner_at. rewrite Hp.
  destruct (Nat.eqb_spec (size (replicas m)) 0) as [Hz|Hz]; [|done].
  by apply map_size_empty_iff in Hz.
Qed.

Lemma ring_nonempty_registered m :
  ring_inv m → keys m ≠ [] → replicas m ≠ ∅.
Proof.
  intros Hinv Hk. destruct (ri_built _ Hinv) as (reps & Hb & Hd).
  destruct (keys m) as [|p ks] eqn:E; [done |].
  assert (owner m p ∈ dom reps) as Hin.
  { apply (built_owner_dom m reps p Hb). rewrite E. by left. }
  intros Hemp. rewrite Hemp, dom_empty_L in Hd. set_solver.
Qed.

Lemma lookup_unfold key m : lookup key m = lookup_in (uint32 (hash m key)) (keys m).
Proof. reflexivity. Qed.

Section plain.
Variable rg : RangeOrder.
Variable m : Map.
Variable h : string → Z.
Variable w : gmap string Z.
Hypothesis Hreach : reachable rg m.
Hypothesis Hskip : replica m < 10.
Hypothesis Hh : hash m = h.
Hypothesis Hw : replicas m = w.

Lemma plain_built : built m w.
Proof. rewrite <- Hw. apply ri_plain; [by apply (reachable_inv rg) | by left]. Qed.

Lemma plain_keys : keys m = ring_keys h w.
Proof. rewrite <- Hh. apply built_keys_eq, plain_built. Qed.

Lemma plain_owners owners :
  Forall2 (λ p k, sole_owner h w p = Some k) (ring_keys h w) owners →
  owner m <$> keys m = owners.
Proof.
  intros Hall. apply (built_owners_eq m w); [apply plain_built |].
  by rewrite Hh, plain_keys.
Qed.

Lemma plain_Get key p k :
  w ≠ ∅ →
  ring_keys h w !! lookup_in (uint32 (h key)) (ring_keys h w) = Some p →
  sole_owner h w p = Some k →
  Get key m = Ret k.
Proof.
  intros Hne Hp Hk. rewrite (Get_owner m key p).
  - f_equal. apply (built_sole_owner m w); [apply plain_built | | by rewrite Hh].
    rewrite plain_keys. by eapply list_elem_of_lookup_2.
  - by rewrite Hw.
  - by rewrite lookup_unfold, plain_keys, Hh.
Qed.
End plain.

(** * The properties *)

(** ** The scenario of [TestHashing] *)

Lemma scenario_reachable rg : reachable rg (scenario rg).
Proof.
  eapply (reach_exec rg (OpAdd ["6"; "4"; "2"])); [apply reach_New |].
  simpl. apply surjective_pairing.
Qed.

Lemma scenario8_reachable rg : reachable rg (scenario8 rg).
Proof.
  eapply (reach_exec rg (OpAdd ["8"])); [apply scenario_reachable |].
  simpl. apply surjective_pairing.
Qed.

Lemma scenario_fields rg :
  hash (scenario rg) = atoi_hash ∧ replica (scenario rg) = 3 ∧
  replicas (scenario rg) = <["2" := 3]> (<["4" := 3]> (<["6" := 3]> ∅)).
Proof.
  destruct (Add rg ["6"; "4"; "2"] (New 3 (Some atoi_hash))) as [o m] eqn:E.
  unfold scenario. rewrite E. simpl.
  apply Add_fields in E as (Hh & Hr & Hrs & Hret); simpl in *; try lia.
  - repeat split; try done. apply Hrs, Hret. lia.
  - apply ri_cache_ok, New_inv.
Qed.

Lemma scenario8_fields rg :
  hash (scenario8 rg) = atoi_hash ∧ replica (scenario8 rg) = 3 ∧
  replicas (scenario8 rg) =
    <["8" := 3]> (<["2" := 3]> (<["4" := 3]> (<["6" := 3]> ∅))).
Proof.
  destruct (scenario_fields rg) as (Hh0 & Hr0 & Hrs0).
  destruct (Add rg ["8"] (scenario rg)) as [o m] eqn:E.
  unfold scenario8. rewrite E. simpl.
  apply Add_fields in E as (Hh & Hr & Hrs & Hret); simpl in *; try lia.
  - rewrite Hh, Hr, Hh0, Hr0. repeat split; try done.
    rewrite Hrs, Hrs0, Hr0; [done |]. apply Hret. lia.
  - apply ri_cache_ok, (reachable_inv rg), scenario_reachable.
Qed.

(** C1. With the hash function of the test and replica count 3, after
    [Add("6","4","2")] the ring is 2,4,6,12,14,16,22,24,26 owned by
    2,4,6,2,4,6,2,4,6, and [Get] maps 2, 11, 23, 27 to 2, 2, 4, 2; after
    [Add("8")] the positions 8, 18, 28 are added and 27 maps to 8.  This
    holds whatever order the maps are visited in. *)
Theorem test_hashing_scenario (rg : RangeOrder) :
  keys (scenario rg) = [2; 4; 6; 12; 14; 16; 22; 24; 26] ∧
  owner (scenario rg) <$> keys (scenario rg) =
    ["2"; "4"; "6"; "2"; "4"; "6"; "2"; "4"; "6"] ∧
  Get "2" (scenario rg) = Ret "2" ∧
  Get "11" (scenario rg) = Ret "2" ∧
  Get "23" (scenario rg) = Ret "4" ∧
  Get "27" (scenario rg) = Ret "2" ∧
  keys (scenario8 rg) = [2; 4; 6; 8; 12; 14; 16; 18; 22; 24; 26; 28] ∧
  owner (scenario8 rg) <$> keys (scenario8 rg) =
    ["2"; "4"; "6"; "8"; "2"; "4"; "6"; "8"; "2"; "4"; "6"; "8"] ∧
  Get "27" (scenario8 rg) = Ret "8".
Proof.
  destruct (scenario_fields rg) as (Hh & Hr & Hrs).
  destruct (scenario8_fields rg) as (Hh8 & Hr8 & Hrs8).
  pose proof (scenario_reachable rg) as Hreach.
  pose proof (scenario8_reachable rg) as Hreach8.
  assert (replica (scenario rg) < 10) as Hskip by lia.
  assert (replica (scenario8 rg) < 10) as Hskip8 by lia.
  repeat split.
  - by rewrite (plain_keys rg _ _ _ Hreach Hskip Hh Hrs).
  - apply (plain_owners rg _ _ _ Hreach Hskip Hh Hrs).
    vm_compute. repeat constructor.
  - apply (plain_Get rg _ _ _ Hreach Hskip Hh Hrs _ 2); [apply insert_non_empty | done..].
  - apply (plain_Get rg _ _ _ Hreach Hskip Hh Hrs _ 12); [apply insert_non_empty | done..].
  - apply (plain_Get rg _ _ _ Hreach Hskip Hh Hrs _ 24); [apply insert_non_empty | done..].
  - apply (plain_Get rg _ _ _ Hreach Hskip Hh Hrs _ 2); [apply insert_non_empty | done..].
  - by rewrite (plain_keys rg _ _ _ Hreach8 Hskip8 Hh8 Hrs8).
  - apply (plain_owners rg _ _ _ Hreach8 Hskip8 Hh8 Hrs8).
    vm_compute. repeat constructor.
  - apply (plain_Get rg _ _ _ Hreach8 Hskip8 Hh8 Hrs8 _ 28); [apply insert_non_empty | done..].
Qed.

(** ** Lookup *)

(** C2. On a non-empty ring [Get] returns the owner of the smallest
    position at or after the hash of the key; when the hash is beyond
    every position, it returns the owner of the smallest position.  The
    owner is the node [k] that the table [hashMap] records for the
    position: a registered node, one of whose virtual positions
    [uint32(hash(Itoa(i) + k))] the position is (with [i] below the
    node's weight when the adjuster is skipped), and, when no position
    is cached for two nodes, the only node that has it in its cache. *)
Theorem Get_closest_owner (rg : RangeOrder) (m : Map) (key : string) :
  reachable rg m → keys m ≠ [] →
  ∃ p k,
    Get key m = Ret k ∧ p ∈ keys m ∧
    hashMap m !! p = Some k ∧
    is_Some (replicas m !! k) ∧
    (∃ i, p = position (hash m) i k) ∧
    (replica m < 10 ∨ (size (replicas m) ≤ 1)%nat →
       ∃ r, replicas m !! k = Some r ∧ p ∈ positions_of (hash m) (k, r)) ∧
    (cache_disjoint (hashs m) →
       ∀ k' hs, hashs m !! k' = Some hs → p ∈ hs → k' = k) ∧
    ((uint32 (hash m key) ≤ p ∧
      ∀ q, q ∈ keys m → uint32 (hash m key) ≤ q → p ≤ q)
     ∨ ((∀ q, q ∈ keys m → q < uint32 (hash m key)) ∧
        ∀ q, q ∈ keys m → p ≤ q)).
Proof.
  intros Hreach Hne. pose proof (reachable_inv rg m Hreach) as Hinv.
  destruct (ri_built _ Hinv) as (reps & Hb & Hd).
  pose proof (bt_sorted _ _ Hb) as Hsorted.
  destruct (lookup_spec m key Hsorted Hne) as (p & Hp & Hcase).
  assert (p ∈ keys m) as Hin by (by eapply list_elem_of_lookup_2).
  destruct (bt_owner _ _ Hb p Hin) as (k & r & Hk & Hpos & Hm).
  exists p, k. repeat apply conj.
  - rewrite (Get_owner m key p); [| by apply ring_nonempty_registered | done].
    unfold owner. by rewrite Hm.
  - done.
  - done.
  - apply elem_of_dom, Hd, elem_of_dom. by exists r.
  - apply elem_of_positions_of in Hpos as (i & _ & Hi). by exists i.
  - intros Hskip. destruct (bt_owner _ _ (ri_plain _ Hinv Hskip) p Hin)
      as (k' & r' & Hk' & Hpos' & Hm').
    rewrite Hm in Hm'. injection Hm' as <-. by exists r'.
  - intros Hdis k' hs' Hhs' Hin'.
    destruct (bt_cover _ _ Hb k r Hk) as (hs & Hhs & Hlen).
    apply (Hdis k' k hs' hs p); [done | done | done |].
    apply elem_of_positions_of in Hpos as (i & Hi & ->). cbn [fst snd] in *.
    destruct (lookup_lt_is_Some_2 hs i) as [x Hx]; [lia |].
    rewrite <- (ri_cache_ok _ Hinv k hs Hhs i x Hx). by eapply list_elem_of_lookup_2.
  - destruct Hcase as [[Hle Hbefore]|[Hz Hall]].
    + left. split; [done |]. intros q Hq Hhq.
      apply list_elem_of_lookup_1 in Hq as [j Hj].
      destruct (decide (j < lookup key m)%nat) as [Hlt|Hge].
      * specialize (Hbefore _ _ Hlt Hj). lia.
      * apply (Sorted_lookup_le (keys m) (lookup key m) j); [done | lia | done..].
    + right. split; [done |]. intros q Hq.
      apply list_elem_of_lookup_1 in Hq as [j Hj].
      apply (Sorted_lookup_le (keys m) (lookup key m) j); [done | lia | done..].
Qed.

Lemma Get_closest_owner_witness :
  ∃ p k,
    Get "27" (scenario map_order) = Ret k ∧ p ∈ keys (scenario map_order) ∧
    hashMap (scenario map_order) !! p = Some k ∧
    is_Some (replicas (scenario map_order) !! k) ∧
    (∃ i, p = position (hash (scenario map_order)) i k) ∧
    (replica (scenario map_order) < 10 ∨
     (size (replicas (scenario map_order)) ≤ 1)%nat →
       ∃ r, replicas (scenario map_order) !! k = Some r ∧
            p ∈ positions_of (hash (scenario map_order)) (k, r)) ∧
    (cache_disjoint (hashs (scenario map_order)) →
       ∀ k' hs, hashs (scenario map_order) !! k' = Some hs → p ∈ hs → k' = k) ∧
    ((uint32 (hash (scenario map_order) "27") ≤ p ∧
      ∀ q, q ∈ keys (scenario map_order) →
           uint32 (hash (scenario map_order) "27") ≤ q → p ≤ q)
     ∨ ((∀ q, q ∈ keys (scenario map_order) →
              q < uint32 (hash (scenario map_order) "27")) ∧
        ∀ q, q ∈ keys (scenario map_order) → p ≤ q)).
Proof.
  apply (Get_closest_owner map_order (scenario map_order) "27").
  - apply scenario_reachable.
  - vm_compute. discriminate.
Defined.

(** C8. A query on a ring with no registered node is not an error: [Get]
    returns the empty string and [Get2] returns it for both owners. *)
Theorem empty_ring_queries (m : Map) (key : string) (fuel : nat) :
  replicas m = ∅ →
  IsEmpty m = true ∧ Get key m = Ret "" ∧ Get2 fuel key m = Some (Ret ("", "")).
Proof.
  intros Hemp. unfold Get, Get2, IsEmpty. by rewrite Hemp, map_size_empty.
Qed.

Lemma empty_ring_queries_witness :
  IsEmpty (New 3 None) = true ∧ Get "k" (New 3 None) = Ret "" ∧
  Get2 0 "k" (New 3 None) = Some (Ret ("", "")).
Proof. apply (empty_ring_queries (New 3 None) "k" 0). reflexivity. Defined.

(** ** Invalid weights *)

Lemma AddWithWeight_invalid rg key w m :
  w < 1 → AddWithWeight rg key w m = (Panic "replica should be positive", m).
Proof. intros Hw. unfold AddWithWeight. by rewrite (proj2 (Z.ltb_lt w 1) Hw). Qed.

(** C4, as the code has it.  A weight below 1 makes [AddWithWeight]
    panic with "replica should be positive"; the panic is raised before
    anything is written, so the stored weights and the ring are as they
    were. *)
Theorem AddWithWeight_rejects (rg : RangeOrder) (key : string) (w : Z) (m : Map) :
  w < 1 → AddWithWeight rg key w m = (Panic "replica should be positive", m).
Proof. apply AddWithWeight_invalid. Qed.

Lemma AddWithWeight_rejects_witness :
  AddWithWeight map_order "6" 0 (scenario map_order) =
    (Panic "replica should be positive", scenario map_order).
Proof. apply (AddWithWeight_rejects map_order "6" 0 (scenario map_order)). lia. Defined.

(** C4 as stated fails: the call with weight 0 does not return an error,
    it panics. *)
Lemma AddWithWeight_aborts :
  aborts (AddWithWeight map_order "6" 0 (scenario map_order)).1 ∧
  ¬ ∃ r, (AddWithWeight map_order "6" 0 (scenario map_order)).1 = Ret r.
Proof.
  rewrite AddWithWeight_invalid by lia. simpl. split.
  - by eexists.
  - by intros [r Hr].
Qed.

(** ** The hash cache and growth by one *)

Lemma adjust_loop_cache_le rg tries scale total reps m o m' :
  cache_ok m → adjust_loop rg tries scale total reps m = (o, m') →
  cache_le (hashs m) (hashs m').
Proof.
  revert reps m. induction tries as [|t IH]; intros reps m Hok Hrun; simpl in Hrun.
  - injection Hrun as <- <-. apply cache_le_refl.
  - destruct (keys m) as [|k0 rest]; [injection Hrun as <- <-; apply cache_le_refl |].
    destruct (adjust_pass scale m total reps k0 rest) as [reps' []].
    + apply IH in Hrun; [|by apply calc_cache_ok].
      eapply cache_le_trans; [by apply calc_cache_le | done].
    + injection Hrun as <- <-. apply cache_le_refl.
Qed.

(** After a rebuild the cache of every registered node covers its
    target weight. *)
Lemma adjust_cover rg tries scale m o m' k r :
  cache_ok m → keys m = [] → adjust rg tries scale m = (o, m') →
  replicas m !! k = Some r →
  ∃ hs, hashs m' !! k = Some hs ∧ (Z.to_nat r ≤ length hs)%nat.
Proof.
  intros Hok Hk Hrun Hr. unfold adjust in Hrun. rewrite Hk in Hrun.
  cbn [length Nat.eqb negb] in Hrun.
  destruct (calc_cache_cover rg (replicas m) m Hok k r Hr) as (hs & Hhs & Hlen & _).
  destruct (_ || _).
  - injection Hrun as <- <-. by exists hs.
  - apply adjust_loop_cache_le in Hrun; [|by apply calc_cache_ok].
    destruct (Hrun _ _ Hhs) as [ext Hext]. exists (hs ++ ext).
    split; [done |]. rewrite length_app. lia.
Qed.

Lemma AddWithWeight_covered rg key w m o m' :
  ring_inv m → covered m → AddWithWeight rg key w m = (o, m') → covered m'.
Proof.
  intros Hinv Hcov Hrun. unfold AddWithWeight in Hrun.
  destruct (w <? 1); [by injection Hrun as <- <- |].
  case_bool_decide; [by injection Hrun as <- <- |].
  intros k r Hk.
  match type of Hrun with adjust _ _ _ ?m0 = _ =>
    pose proof (adjust_adjusted rg 5 0.75%float m0 o m' (ri_cache_ok _ Hinv)
                  eq_refl Hrun) as [[_ _ Hrs _ _ _] _];
    apply (adjust_cover rg 5 0.75%float m0 o m' k r (ri_cache_ok _ Hinv) eq_refl Hrun)
  end.
  by rewrite <- Hrs.
Qed.

Lemma Add_covered rg ks m o m' :
  ring_inv m → covered m → Add rg ks m = (o, m') → covered m'.
Proof.
  revert m. induction ks as [|key ks IH]; intros m Hinv Hcov Hrun; simpl in Hrun.
  - by injection Hrun as <- <-.
  - destruct (AddWithWeight rg key (replica m) m) as [[[]|msg] m1] eqn:E.
    + eapply IH; [| |done]; eauto using AddWithWeight_inv, AddWithWeight_covered.
    + injection Hrun as <- <-. eauto using AddWithWeight_covered.
Qed.

Lemma Remove_covered rg key m o m' :
  ring_inv m → covered m → Remove rg key m = (o, m') → covered m'.
Proof.
  intros Hinv Hcov Hrun. unfold Remove in Hrun.
  destruct (replicas m !! key) as [r0|] eqn:E; [|by injection Hrun as <- <-].
  intros k r Hk.
  assert (cache_ok (set_keys [] (set_hashs (delete key (hashs m))
                     (set_replicas (delete key (replicas m)) m)))) as Hok0.
  { intros k' hs Hk'. simpl in Hk'. apply lookup_delete_Some in Hk' as [_ Hk'].
    by apply (ri_cache_ok _ Hinv k'). }
  pose proof (adjust_adjusted rg 5 0.75%float _ o m' Hok0 eq_refl Hrun)
    as [[_ _ Hrs _ _ _] _].
  apply (adjust_cover rg 5 0.75%float _ o m' k r Hok0 eq_refl Hrun).
  by rewrite <- Hrs.
Qed.

Lemma reachable_covered rg m : reachable rg m → covered m.
Proof.
  induction 1 as [r fn|o m out m' Hreach IH Hexec].
  - intros k r' Hk. simpl in Hk. by simplify_map_eq.
  - pose proof (reachable_inv rg m Hreach) as Hinv.
    destruct o; simpl in Hexec;
      eauto using Add_covered, AddWithWeight_covered, Remove_covered.
Qed.

(** A call other than the removal of [key] only extends the cache of
    [key]. *)
Lemma exec_cache_le rg o m out m' key hs :
  ring_inv m → o ≠ OpRemove key → exec rg o m = (out, m') →
  hashs m !! key = Some hs → ∃ ext, hashs m' !! key = Some (hs ++ ext).
Proof.
  intros Hinv Hne Hexec Hhs.
  assert (∀ m1 o1 m2 k w, ring_inv m1 → AddWithWeight rg k w m1 = (o1, m2) →
            cache_le (hashs m1) (hashs m2)) as Hadd.
  { intros m1 o1 m2 k w Hinv1 Hrun.
    by apply AddWithWeight_fields in Hrun as (_ & _ & Hle & _);
      [|apply (ri_cache_ok _ Hinv1)]. }
  destruct o as [ks|k w|k]; simpl in Hexec.
  - clear Hne. revert m Hinv Hexec hs Hhs. induction ks as [|k ks IH]; intros m Hinv Hexec hs Hhs.
    + simpl in Hexec. injection Hexec as <- <-. exists []. by rewrite app_nil_r.
    + simpl in Hexec.
      destruct (AddWithWeight rg k (replica m) m) as [[[]|msg] m1] eqn:E.
      * destruct (Hadd _ _ _ _ _ Hinv E _ _ Hhs) as [e1 H1].
        destruct (IH m1 (AddWithWeight_inv _ _ _ _ _ _ Hinv E) Hexec _ H1) as [e2 H2].
        exists (e1 ++ e2). by rewrite (assoc_L (++)).
      * injection Hexec as <- <-. by apply (Hadd _ _ _ _ _ Hinv E).
  - by apply (Hadd _ _ _ _ _ Hinv Hexec).
  - unfold Remove in Hexec.
    destruct (replicas m !! k) as [r0|] eqn:E.
    + apply adjust_adjusted in Hexec as [[_ _ _ _ Hle _] _]; simpl in *.
      * apply Hle. rewrite lookup_delete_ne; [done | congruence].
      * intros k' hs' Hk'. simpl in Hk'. apply lookup_delete_Some in Hk' as [_ Hk'].
        by apply (ri_cache_ok _ Hinv k').
      * done.
    + injection Hexec as <- <-. exists []. by rewrite app_nil_r.
Qed.

Lemma run_cache_le rg ops m out m' key hs :
  ring_inv m → Forall (λ o, o ≠ OpRemove key) ops → run rg ops m = (out, m') →
  hashs m !! key = Some hs → ∃ ext, hashs m' !! key = Some (hs ++ ext).
Proof.
  revert m hs. induction ops as [|o ops IH]; intros m hs Hinv Hall Hrun Hhs.
  - simpl in Hrun. injection Hrun as <- <-. exists []. by rewrite app_nil_r.
  - apply Forall_cons in Hall as [Ho Hall]. simpl in Hrun.
    destruct (exec rg o m) as [[[]|msg] m1] eqn:E.
    + destruct (exec_cache_le _ _ _ _ _ _ _ Hinv Ho E Hhs) as [e1 H1].
      destruct (IH m1 _ (exec_inv _ _ _ _ _ Hinv E) Hall Hrun H1) as [e2 H2].
      exists (e1 ++ e2). by rewrite (assoc_L (++)).
    + injection Hrun as <- <-. by apply (exec_cache_le _ _ _ _ _ _ _ Hinv Ho E).
Qed.

Lemma positions_of_succ h key r :
  0 ≤ r →
  positions_of h (key, r + 1) = positions_of h (key, r) ++ [position h (Z.to_nat r) key].
Proof.
  intros Hr. unfold positions_of. simpl.
  replace (Z.to_nat (r + 1)) with (S (Z.to_nat r)) by lia.
  by rewrite seq_S, fmap_app.
Qed.

Lemma ring_list_insert h (w : gmap string Z) key r :
  w !! key = Some r → 0 ≤ r →
  ring_list h (map_to_list (<[key := r + 1]> w)) ≡ₚ
    position h (Z.to_nat r) key :: ring_list h (map_to_list w).
Proof.
  intros Hk Hr.
  rewrite <- (insert_delete_eq w key (r + 1)).
  rewrite (ring_list_perm h _ _ (map_to_list_insert (delete key w) key (r + 1)
                                   (lookup_delete_eq w key))).
  rewrite <- (ring_list_perm h _ _ (map_to_list_delete w key r Hk)).
  unfold ring_list. simpl. rewrite positions_of_succ by done.
  rewrite <- (assoc_L (++)). simpl.
  by rewrite <- Permutation_middle.
Qed.

Lemma skewed_reachable : reachable map_order skewed.
Proof.
  eapply run_reachable; [apply reach_New | apply surjective_pairing].
Qed.

(** C7, as the code has it.  Raising the weight of a registered node from
    [r] to [r+1] keeps the node's cached hash values (among them those of
    the indices below [r], which are the node's first [r] positions) and
    only extends the cache; when the adjuster is skipped (default replica
    count below 10, or a single node) the ring gains exactly the position
    of index [r]; and no later call other than the removal of the node
    alters a cached value, whatever happens to the weights. *)
Theorem weight_growth_stable (rg : RangeOrder) (m : Map) (key : string) (r : Z)
    (o : outcome unit) (m' : Map) :
  reachable rg m → replicas m !! key = Some r →
  AddWithWeight rg key (r + 1) m = (o, m') →
  ∃ hs ext,
    hashs m !! key = Some hs ∧ (Z.to_nat r ≤ length hs)%nat ∧
    cache_valid (hash m) key hs ∧
    hashs m' !! key = Some (hs ++ ext) ∧
    (replica m < 10 ∨ (size (replicas m) ≤ 1)%nat →
       o = Ret tt ∧ keys m' ≡ₚ position (hash m) (Z.to_nat r) key :: keys m) ∧
    (∀ ops out m'',
       Forall (λ o, o ≠ OpRemove key) ops → run rg ops m' = (out, m'') →
       ∃ ext', hashs m'' !! key = Some (hs ++ ext')).
Proof.
  intros Hreach Hr Hrun.
  pose proof (reachable_inv rg m Hreach) as Hinv.
  pose proof (ri_weights _ Hinv _ _ Hr) as Hpos.
  destruct (reachable_covered rg m Hreach _ _ Hr) as (hs & Hhs & Hlen).
  pose proof (AddWithWeight_fields _ _ _ _ _ _ (ri_cache_ok _ Hinv) Hrun)
    as (Hh & Hrep & Hle & Hrs & _ & _).
  destruct (Hle _ _ Hhs) as [ext Hext].
  exists hs, ext. repeat split; try done.
  - by apply (ri_cache_ok _ Hinv).
  - unfold AddWithWeight in Hrun.
    rewrite (proj2 (Z.ltb_ge (r + 1) 1)) in Hrun by lia.
    rewrite Hr in Hrun. simpl in Hrun.
    rewrite bool_decide_eq_false_2 in Hrun by lia.
    match type of Hrun with adjust _ _ _ ?m0 = _ =>
      destruct (adjust_adjusted rg 5 0.75%float m0 o m' (ri_cache_ok _ Hinv)
                  eq_refl Hrun) as [_ Hplain] end.
    simpl in Hplain.
    rewrite map_size_insert_Some in Hplain by eauto.
    by destruct (Hplain H) as [-> _].
  - unfold AddWithWeight in Hrun.
    rewrite (proj2 (Z.ltb_ge (r + 1) 1)) in Hrun by lia.
    rewrite Hr in Hrun. simpl in Hrun.
    rewrite bool_decide_eq_false_2 in Hrun by lia.
    match type of Hrun with adjust _ _ _ ?m0 = _ =>
      destruct (adjust_adjusted rg 5 0.75%float m0 o m' (ri_cache_ok _ Hinv)
                  eq_refl Hrun) as [_ Hplain] end.
    simpl in Hplain.
    rewrite map_size_insert_Some in Hplain by eauto.
    destruct (Hplain H) as [_ ->].
    rewrite calc_keys_perm by apply (ri_cache_ok _ Hinv). simpl.
    rewrite ring_list_insert by (done || lia).
    constructor. symmetry. apply (bt_keys _ _ (ri_plain _ Hinv H)).
  - intros ops out m'' Hall Hops.
    pose proof (AddWithWeight_inv _ _ _ _ _ _ Hinv Hrun) as Hinv'.
    destruct (run_cache_le _ _ _ _ _ _ _ Hinv' Hall Hops Hext) as [ext' Hext'].
    exists (ext ++ ext'). by rewrite (assoc_L (++)).
Qed.

Lemma weight_growth_stable_witness :
  ∃ hs ext,
    hashs (scenario map_order) !! "4" = Some hs ∧ (Z.to_nat 3 ≤ length hs)%nat ∧
    cache_valid (hash (scenario map_order)) "4" hs ∧
    hashs (AddWithWeight map_order "4" (3 + 1) (scenario map_order)).2 !! "4" =
      Some (hs ++ ext) ∧
    (replica (scenario map_order) < 10 ∨ (size (replicas (scenario map_order)) ≤ 1)%nat →
       (AddWithWeight map_order "4" (3 + 1) (scenario map_order)).1 = Ret tt ∧
       keys (AddWithWeight map_order "4" (3 + 1) (scenario map_order)).2 ≡ₚ
         position (hash (scenario map_order)) (Z.to_nat 3) "4" ::
         keys (scenario map_order)) ∧
    (∀ ops out m'',
       Forall (λ o, o ≠ OpRemove "4") ops →
       run map_order ops (AddWithWeight map_order "4" (3 + 1) (scenario map_order)).2 =
         (out, m'') →
       ∃ ext', hashs m'' !! "4" = Some (hs ++ ext')).
Proof.
  apply (weight_growth_stable map_order (scenario map_order) "4" 3).
  - apply scenario_reachable.
  - reflexivity.
  - apply surjective_pairing.
Defined.

(** C7 as stated fails where the adjuster runs: raising the weight of
    node 1 from 1 to 2 on the ring 2, 12, 22 leaves the ring 2. *)
Lemma weight_growth_not_one_position :
  reachable map_order skewed ∧ replicas skewed !! "1" = Some 1 ∧
  skewed_grown.1 = Ret tt ∧
  keys skewed = [2; 12; 22] ∧ keys skewed_grown.2 = [2] ∧
  ∀ p, ¬ keys skewed_grown.2 ≡ₚ p :: keys skewed.
Proof.
  assert (keys skewed = [2; 12; 22]) as Hk by (vm_compute; reflexivity).
  assert (keys skewed_grown.2 = [2]) as Hk' by (vm_compute; reflexivity).
  split; [apply skewed_reachable |].
  split; [vm_compute; reflexivity |].
  split; [vm_compute; reflexivity |].
  split; [exact Hk |]. split; [exact Hk' |].
  intros p Hp. apply Permutation_length in Hp. rewrite Hk, Hk' in Hp. discriminate.
Qed.

(** No call changes the hash function or the default replica count. *)
Lemma exec_config rg o m out m' :
  ring_inv m → exec rg o m = (out, m') →
  hash m' = hash m ∧ replica m' = replica m.
Proof.
  intros Hinv Hexec. destruct o as [ks|k w|k]; simpl in Hexec.
  - revert m Hinv Hexec. induction ks as [|k ks IH]; intros m Hinv Hexec.
    + simpl in Hexec. by injection Hexec as <- <-.
    + simpl in Hexec.
      destruct (AddWithWeight rg k (replica m) m) as [o1 m1] eqn:E.
      pose proof (AddWithWeight_fields _ _ _ _ _ _ (ri_cache_ok _ Hinv) E)
        as (Hh & Hr & _).
      destruct o1 as [[]|msg].
      * destruct (IH m1 (AddWithWeight_inv _ _ _ _ _ _ Hinv E) Hexec) as [Hh' Hr'].
        split; congruence.
      * by injection Hexec as <- <-.
  - by apply AddWithWeight_fields in Hexec as (Hh & Hr & _);
      [|apply (ri_cache_ok _ Hinv)].
  - by apply Remove_fields in Hexec as (Hh & Hr & _);
      [|apply (ri_cache_ok _ Hinv)].
Qed.

Lemma run_config rg ops m out m' :
  ring_inv m → run rg ops m = (out, m') →
  hash m' = hash m ∧ replica m' = replica m.
Proof.
  revert m. induction ops as [|o ops IH]; intros m Hinv Hrun; simpl in Hrun.
  - by injection Hrun as <- <-.
  - destruct (exec rg o m) as [o1 m1] eqn:E.
    destruct (exec_config _ _ _ _ _ Hinv E) as [Hh Hr].
    destruct o1 as [[]|msg].
    + destruct (IH m1 (exec_inv _ _ _ _ _ Hinv E) Hrun) as [Hh' Hr'].
      split; congruence.
    + by injection Hrun as <- <-.
Qed.

Lemma run_New_config rg ops r h :
  hash (run rg ops (New r (Some h))).2 = h ∧
  replica (run rg ops (New r (Some h))).2 = r.
Proof.
  apply (run_config rg ops (New r (Some h)) (run rg ops (New r (Some h))).1).
  - apply New_inv.
  - apply surjective_pairing.
Qed.

(** ** Two rings with the same membership *)

Lemma cache_disjointb_spec c : cache_disjointb c = true → cache_disjoint c.
Proof.
  unfold cache_disjointb. rewrite forallb_forall.
  intros Hall k1 k2 hs1 hs2 p H1 H2 Hp1 Hp2.
  apply elem_of_map_to_list, list_elem_of_In in H1, H2.
  specialize (Hall _ H1). rewrite forallb_forall in Hall.
  specialize (Hall _ H2). simpl in Hall.
  apply orb_true_iff in Hall as [Heq|Hall]; [by apply bool_decide_eq_true in Heq |].
  rewrite forallb_forall in Hall. apply list_elem_of_In in Hp1.
  specialize (Hall _ Hp1). by apply bool_decide_eq_true in Hall.
Qed.

Lemma ring_eq_owner a b p : ring_eq a b → p ∈ keys a → owner a p = owner b p.
Proof. intros [_ Ho] Hp. unfold owner. by rewrite Ho. Qed.

Lemma Get_ring_eq a b key :
  hash a = hash b → replicas a = replicas b → ring_eq a b →
  Get key a = Get key b.
Proof.
  intros Hh Hrs Heq. unfold Get, IsEmpty, owner_at. rewrite Hrs.
  destruct (size (replicas b) =? 0)%nat; [done |].
  rewrite !lookup_unfold, Hh, <- (proj1 Heq).
  destruct (keys a !! _) as [p|] eqn:Hp; [|done].
  f_equal. apply ring_eq_owner; [done |]. by eapply list_elem_of_lookup_2.
Qed.

Lemma arcs_ext a b prev ks stat :
  (∀ p, p ∈ ks → owner a p = owner b p) →
  arcs a prev ks stat = arcs b prev ks stat.
Proof.
  revert prev stat. induction ks as [|h ks IH]; intros prev stat Ho; [done |].
  simpl. unfold stat_add. rewrite (Ho h) by (by left).
  apply IH. intros p Hp. apply Ho. by right.
Qed.

Lemma adjust_pass_ext scale a b total reps k0 rest :
  replicas a = replicas b → ring_eq a b → keys a = k0 :: rest →
  adjust_pass scale a total reps k0 rest = adjust_pass scale b total reps k0 rest.
Proof.
  intros Hrs Heq Hk. unfold adjust_pass, load_stat.
  rewrite (arcs_ext a b).
  2:{ intros p Hp. apply ring_eq_owner; [done |]. rewrite Hk. by right. }
  rewrite (ring_eq_owner a b k0) by (done || rewrite Hk; by left).
  f_equal. unfold adjust_node. by rewrite Hrs.
Qed.

(** Built from the same weights over valid caches, two rings agree as
    soon as the caches of one keep the nodes' positions apart. *)
Lemma calc_ring_eq rg1 rg2 reps a b :
  cache_ok a → cache_ok b → hash a = hash b →
  cache_disjoint (hashs (calc rg1 reps a)) →
  ring_eq (calc rg1 reps a) (calc rg2 reps b).
Proof.
  intros Ha Hb Hh Hdis.
  assert (keys (calc rg1 reps a) = keys (calc rg2 reps b)) as Hk.
  { rewrite (built_keys_eq _ reps (calc_built rg1 reps a Ha)).
    rewrite (built_keys_eq _ reps (calc_built rg2 reps b Hb)).
    by rewrite !calc_hash, Hh. }
  split; [done |]. intros p Hp.
  destruct (calc_owner rg1 reps a Ha p Hp) as (k1 & r1 & Hk1 & Hp1 & ->).
  rewrite Hk in Hp.
  destruct (calc_owner rg2 reps b Hb p Hp) as (k2 & r2 & Hk2 & Hp2 & ->).
  destruct (calc_cache_cover rg1 reps a Ha k1 r1 Hk1) as (hs1 & Hhs1 & _ & Hin1).
  destruct (calc_cache_cover rg1 reps a Ha k2 r2 Hk2) as (hs2 & Hhs2 & _ & Hin2).
  f_equal. apply (Hdis k1 k2 hs1 hs2 p); try done.
  - by apply Hin1.
  - apply Hin2. by rewrite Hh.
Qed.

Lemma adjust_loop_sim rg1 rg2 tries scale total reps a b oa a' ob b' :
  cache_ok a → cache_ok b → hash a = hash b → replicas a = replicas b →
  ring_eq a b →
  adjust_loop rg1 tries scale total reps a = (oa, a') →
  adjust_loop rg2 tries scale total reps b = (ob, b') →
  cache_disjoint (hashs a') →
  oa = ob ∧ ring_eq a' b' ∧ (ranges a' + ranges b = ranges b' + ranges a)%nat.
Proof.
  revert reps a b. induction tries as [|t IH];
    intros reps a b Ha Hb Hh Hrs Heq Hra Hrb Hdis; simpl in Hra, Hrb.
  - injection Hra as <- <-. injection Hrb as <- <-. split; [done |]; split; [done | lia].
  - rewrite <- (proj1 Heq) in Hrb. destruct (keys a) as [|k0 rest] eqn:Hk.
    { injection Hra as <- <-. injection Hrb as <- <-. split; [done |]; split; [done | lia]. }
    rewrite <- (adjust_pass_ext scale a b) in Hrb by done.
    destruct (adjust_pass scale a total reps k0 rest) as [reps' []].
    + pose proof (adjust_loop_cache_le _ _ _ _ _ _ _ _
                    (calc_cache_ok rg1 reps' a Ha) Hra) as Hle.
      destruct (IH reps' (calc rg1 reps' a) (calc rg2 reps' b))
        as (Ho & Hreq & Hrg); try done.
      * by apply calc_cache_ok.
      * by apply calc_cache_ok.
      * by rewrite !calc_hash.
      * by rewrite !calc_replicas.
      * apply calc_ring_eq; try done. by eapply cache_disjoint_le.
      * rewrite !calc_ranges in Hrg by done. split; [done |]; split; [done | lia].
    + injection Hra as <- <-. injection Hrb as <- <-. split; [done |]; split; [done | lia].
Qed.

Lemma adjust_sim rg1 rg2 tries scale a b oa a' ob b' :
  cache_ok a → cache_ok b →
  hash a = hash b → replica a = replica b → replicas a = replicas b →
  keys a = [] → keys b = [] →
  adjust rg1 tries scale a = (oa, a') →
  adjust rg2 tries scale b = (ob, b') →
  cache_disjoint (hashs a') →
  oa = ob ∧ ring_eq a' b' ∧ (ranges a' + ranges b = ranges b' + ranges a)%nat.
Proof.
  intros Ha Hb Hh Hr Hrs Hka Hkb Hra Hrb Hdis.
  unfold adjust in Hra, Hrb. rewrite Hka in Hra. rewrite Hkb in Hrb.
  cbn [length Nat.eqb negb] in Hra, Hrb.
  rewrite !calc_replicas, calc_replica in Hra, Hrb by done.
  rewrite <- Hr, <- Hrs in Hrb.
  destruct (_ || _).
  - injection Hra as <- <-. injection Hrb as <- <-.
    rewrite !calc_ranges by done. split; [done |]. split; [|lia].
    by apply calc_ring_eq.
  - pose proof (adjust_loop_cache_le _ _ _ _ _ _ _ _
                  (calc_cache_ok rg1 (replicas a) a Ha) Hra) as Hle.
    destruct (adjust_loop_sim rg1 rg2 (Z.to_nat tries) scale
                (total_weight (replicas a)) (replicas a)
                (calc rg1 (replicas a) a) (calc rg2 (replicas a) b) oa a' ob b')
      as (Ho & Hreq & Hrg); try done.
    + by apply calc_cache_ok.
    + by apply calc_cache_ok.
    + by rewrite !calc_hash.
    + by rewrite !calc_replicas.
    + apply calc_ring_eq; try done. by eapply cache_disjoint_le.
    + rewrite !calc_ranges in Hrg by done. split; [done |]; split; [done | lia].
Qed.

Lemma rebuild_fresh rg m0 o m :
  cache_ok m0 → keys m0 = [] → adjust rg 5 0.75%float m0 = (o, m) → fresh rg m.
Proof.
  intros Hok Hk Hrun. right. exists m0, o.
  destruct (adjust_adjusted _ _ _ _ _ _ Hok Hk Hrun) as [[Hh Hr Hrs _ _ _] _].
  by repeat split.
Qed.

Lemma AddWithWeight_fresh rg key w m o m' :
  ring_inv m → fresh rg m → AddWithWeight rg key w m = (o, m') → fresh rg m'.
Proof.
  intros Hinv Hf Hrun. unfold AddWithWeight in Hrun.
  destruct (w <? 1); [by injection Hrun as <- <- |].
  case_bool_decide; [by injection Hrun as <- <- |].
  eapply rebuild_fresh; [| |exact Hrun]; [apply (ri_cache_ok _ Hinv) | done].
Qed.

Lemma Add_fresh rg ks m o m' :
  ring_inv m → fresh rg m → Add rg ks m = (o, m') → fresh rg m'.
Proof.
  revert m. induction ks as [|key ks IH]; intros m Hinv Hf Hrun; simpl in Hrun.
  - by injection Hrun as <- <-.
  - destruct (AddWithWeight rg key (replica m) m) as [[[]|msg] m1] eqn:E.
    + eapply IH; [| |done]; eauto using AddWithWeight_inv, AddWithWeight_fresh.
    + injection Hrun as <- <-. eauto using AddWithWeight_fresh.
Qed.

Lemma Remove_fresh rg key m o m' :
  ring_inv m → fresh rg m → Remove rg key m = (o, m') → fresh rg m'.
Proof.
  intros Hinv Hf Hrun. unfold Remove in Hrun.
  destruct (replicas m !! key) as [r0|] eqn:E; [|by injection Hrun as <- <-].
  eapply rebuild_fresh; [| |exact Hrun]; [|done].
  intros k' hs Hk'. simpl in Hk'. apply lookup_delete_Some in Hk' as [_ Hk'].
  by apply (ri_cache_ok _ Hinv k').
Qed.

Lemma reachable_fresh rg m : reachable rg m → fresh rg m.
Proof.
  induction 1 as [r fn|o m out m' Hreach IH Hexec].
  - by left.
  - pose proof (reachable_inv rg m Hreach) as Hinv.
    destruct o; simpl in Hexec;
      eauto using Add_fresh, AddWithWeight_fresh, Remove_fresh.
Qed.

Lemma Get_empty key m : replicas m = ∅ → Get key m = Ret "".
Proof. intros Hemp. unfold Get, IsEmpty. by rewrite Hemp, map_size_empty. Qed.

(** C9, as the code has it.  Two rings with the same hash function, the
    same default replica count and the same node-to-weight map, however
    each was reached and in whatever order each visits its maps, answer
    [Get] alike for every key, provided no position is cached for two
    different nodes of the first ring (no collision between the virtual
    positions of different nodes). *)
Theorem Get_deterministic (rg1 rg2 : RangeOrder) (m1 m2 : Map) (key : string) :
  reachable rg1 m1 → reachable rg2 m2 →
  hash m1 = hash m2 → replica m1 = replica m2 → replicas m1 = replicas m2 →
  cache_disjoint (hashs m1) →
  Get key m1 = Get key m2.
Proof.
  intros Hr1 Hr2 Hh Hr Hrs Hdis.
  destruct (reachable_fresh rg1 m1 Hr1) as [He1|(a & oa & Ha & Hka & Hha & Hra & Hrsa & Hruna)].
  { rewrite !Get_empty; [done | by rewrite <- Hrs | done]. }
  destruct (reachable_fresh rg2 m2 Hr2) as [He2|(b & ob & Hb & Hkb & Hhb & Hrb & Hrsb & Hrunb)].
  { rewrite !Get_empty; [done | done | by rewrite Hrs]. }
  apply Get_ring_eq; [done | done |].
  destruct (adjust_sim rg1 rg2 5 0.75%float a b oa m1 ob m2) as (_ & Heq & _);
    try done; congruence.
Qed.

Lemma skewed_again_reachable : reachable reverse_order skewed_again.
Proof.
  eapply run_reachable; [apply reach_New | apply surjective_pairing].
Qed.

Lemma Get_deterministic_witness : Get "7" skewed = Get "7" skewed_again.
Proof.
  apply (Get_deterministic map_order reverse_order skewed skewed_again "7").
  - apply skewed_reachable.
  - apply skewed_again_reachable.
  - unfold skewed, skewed_again.
    by rewrite (proj1 (run_New_config _ _ _ _)), (proj1 (run_New_config _ _ _ _)).
  - unfold skewed, skewed_again.
    by rewrite (proj2 (run_New_config _ _ _ _)), (proj2 (run_New_config _ _ _ _)).
  - vm_compute. reflexivity.
  - apply cache_disjointb_spec. vm_compute. reflexivity.
Defined.

(** C9 as stated fails: with the same hash function and the same
    node-to-weight map, [Get] differs between two rings that visit the
    map in different orders when positions collide, and between two rings
    of different default replica counts, of which only one runs the
    adjuster. *)
Lemma Get_not_deterministic :
  (hash (collided map_order) = hash (collided reverse_order) ∧
   replicas (collided map_order) = replicas (collided reverse_order) ∧
   Get "1" (collided map_order) ≠ Get "1" (collided reverse_order)) ∧
  (hash unadjusted = hash skewed ∧
   replicas unadjusted = replicas skewed ∧
   Get "1" unadjusted ≠ Get "1" skewed).
Proof.
  assert (∀ rg ops1 ops2 r1 r2,
            hash (run rg ops1 (New r1 (Some atoi_hash))).2 =
            hash (run rg ops2 (New r2 (Some atoi_hash))).2) as Hh.
  { intros. by rewrite !(proj1 (run_New_config _ _ _ _)). }
  split; split.
  - unfold collided. by rewrite !(proj1 (run_New_config _ _ _ _)).
  - split; [vm_compute; reflexivity | vm_compute; discriminate].
  - apply Hh.
  - split; [vm_compute; reflexivity | vm_compute; discriminate].
Qed.

(** ** The order in which the maps are visited

    Without a collision between the positions of different nodes, a
    sequence of additions leaves the same ring whatever the order in
    which each [range] loop visits its map. *)

Lemma agree_refl m : agree m m.
Proof. by repeat split. Qed.

Lemma owner_at_ring_eq a b idx : ring_eq a b → owner_at a idx = owner_at b idx.
Proof.
  intros Heq. unfold owner_at. rewrite <- (proj1 Heq).
  destruct (keys a !! idx) as [p|] eqn:Hp; [|done].
  f_equal. apply ring_eq_owner; [done |]. by eapply list_elem_of_lookup_2.
Qed.

Lemma scan_ring_eq a b fuel first idx :
  ring_eq a b → scan fuel first idx a = scan fuel first idx b.
Proof.
  intros Heq. revert idx. induction fuel as [|fuel IH]; intros idx; cbn [scan];
    rewrite (owner_at_ring_eq a b) by done; [done |].
  destruct (owner_at b idx) as [o|]; [|done].
  case_bool_decide; [|done]. by rewrite IH, (proj1 Heq).
Qed.

Lemma Get2_agree a b fuel key : agree a b → Get2 fuel key a = Get2 fuel key b.
Proof.
  intros [Hh Hr Hrs Heq]. unfold Get2, IsEmpty. rewrite Hrs.
  destruct (size (replicas b) =? 0)%nat; [done |].
  rewrite !lookup_unfold, Hh, <- (proj1 Heq).
  rewrite (owner_at_ring_eq a b) by done.
  destruct (owner_at b _) as [first|]; [|done].
  destruct (1 <? size (replicas b))%nat; [|done].
  rewrite (scan_ring_eq a b) by done.
  destruct (scan _ _ _ b) as [[idx2|]|]; try done.
  by rewrite (owner_at_ring_eq a b).
Qed.

Lemma Get_agree a b key : agree a b → Get key a = Get key b.
Proof. intros [Hh Hr Hrs Heq]. by apply Get_ring_eq. Qed.

Lemma AddWithWeight_sim rg1 rg2 key w a b oa a' ob b' :
  ring_inv a → ring_inv b → agree a b →
  AddWithWeight rg1 key w a = (oa, a') → AddWithWeight rg2 key w b = (ob, b') →
  cache_disjoint (hashs a') →
  oa = ob ∧ agree a' b' ∧ (ranges a' + ranges b = ranges b' + ranges a)%nat.
Proof.
  intros Ha Hb [Hh Hr Hrs Heq] Hra Hrb Hdis.
  pose proof (AddWithWeight_fields _ _ _ _ _ _ (ri_cache_ok _ Ha) Hra)
    as (Hha & Hrea & _ & Hrsa & _).
  pose proof (AddWithWeight_fields _ _ _ _ _ _ (ri_cache_ok _ Hb) Hrb)
    as (Hhb & Hreb & _ & Hrsb & _).
  unfold AddWithWeight in Hra, Hrb. rewrite <- Hrs in Hrb.
  destruct (Z.ltb_spec w 1) as [Hw|Hw].
  { injection Hra as <- <-. injection Hrb as <- <-.
    split; [done |]. split; [by split | lia]. }
  case_bool_decide.
  { injection Hra as <- <-. injection Hrb as <- <-.
    split; [done |]. split; [by split | lia]. }
  match type of Hra with adjust _ _ _ ?a0 = _ =>
    match type of Hrb with adjust _ _ _ ?b0 = _ =>
      destruct (adjust_sim rg1 rg2 5 0.75%float a0 b0 oa a' ob b')
        as (Ho & Hreq & Hrg); try done;
        try apply (ri_cache_ok _ Ha); try apply (ri_cache_ok _ Hb)
    end end.
  all: try (simpl; congruence).
  split; [done |]. split; [|simpl in Hrg; lia].
  split; [congruence | congruence | | done].
  rewrite Hrsa, Hrsb by done. by rewrite Hrs.
Qed.

Lemma Add_cache_le rg ks m o m' :
  ring_inv m → Add rg ks m = (o, m') → cache_le (hashs m) (hashs m').
Proof.
  revert m. induction ks as [|key ks IH]; intros m Hinv Hrun; simpl in Hrun.
  - injection Hrun as <- <-. apply cache_le_refl.
  - destruct (AddWithWeight rg key (replica m) m) as [o1 m1] eqn:E.
    pose proof (AddWithWeight_fields _ _ _ _ _ _ (ri_cache_ok _ Hinv) E)
      as (_ & _ & Hle & _).
    destruct o1 as [[]|msg].
    + eapply cache_le_trans; [done |].
      apply IH; [|done]. by eapply AddWithWeight_inv.
    + by injection Hrun as <- <-.
Qed.

Lemma Add_sim rg1 rg2 ks a b oa a' ob b' :
  ring_inv a → ring_inv b → agree a b →
  Add rg1 ks a = (oa, a') → Add rg2 ks b = (ob, b') →
  cache_disjoint (hashs a') →
  oa = ob ∧ agree a' b' ∧ (ranges a' + ranges b = ranges b' + ranges a)%nat.
Proof.
  revert a b. induction ks as [|key ks IH]; intros a b Ha Hb Hag Hra Hrb Hdis;
    simpl in Hra, Hrb.
  - injection Hra as <- <-. injection Hrb as <- <-. split; [done |]. split; [done | lia].
  - rewrite <- (ag_replica _ _ Hag) in Hrb.
    destruct (AddWithWeight rg1 key (replica a) a) as [o1 a1] eqn:Ea.
    destruct (AddWithWeight rg2 key (replica a) b) as [o2 b1] eqn:Eb.
    pose proof (AddWithWeight_inv _ _ _ _ _ _ Ha Ea) as Ha1.
    pose proof (AddWithWeight_inv _ _ _ _ _ _ Hb Eb) as Hb1.
    assert (cache_disjoint (hashs a1)) as Hdis1.
    { destruct o1 as [[]|msg].
      - eapply cache_disjoint_le; [|done]. by eapply Add_cache_le.
      - by injection Hra as <- <-. }
    destruct (AddWithWeight_sim _ _ _ _ _ _ _ _ _ _ Ha Hb Hag Ea Eb Hdis1)
      as (<- & Hag1 & Hrg1).
    destruct o1 as [[]|msg].
    + destruct (IH a1 b1 Ha1 Hb1 Hag1 Hra Hrb Hdis) as (Ho & Hag' & Hrg').
      split; [done |]. split; [done | lia].
    + injection Hra as <- <-. injection Hrb as <- <-. by split.
Qed.

Lemma Remove_sim rg1 rg2 key a b oa a' ob b' :
  ring_inv a → ring_inv b → agree a b →
  Remove rg1 key a = (oa, a') → Remove rg2 key b = (ob, b') →
  cache_disjoint (hashs a') →
  oa = ob ∧ agree a' b' ∧ (ranges a' + ranges b = ranges b' + ranges a)%nat.
Proof.
  intros Ha Hb [Hh Hr Hrs Heq] Hra Hrb Hdis.
  pose proof (Remove_fields _ _ _ _ _ (ri_cache_ok _ Ha) Hra) as (Hha & Hrea & Hrsa & _).
  pose proof (Remove_fields _ _ _ _ _ (ri_cache_ok _ Hb) Hrb) as (Hhb & Hreb & Hrsb & _).
  unfold Remove in Hra, Hrb. rewrite <- Hrs in Hrb.
  destruct (replicas a !! key) as [r|].
  - match type of Hra with adjust _ _ _ ?a0 = _ =>
      match type of Hrb with adjust _ _ _ ?b0 = _ =>
        destruct (adjust_sim rg1 rg2 5 0.75%float a0 b0 oa a' ob b')
          as (Ho & Hreq & Hrg); try done
      end end.
    + intros k hs Hk. simpl in Hk. apply lookup_delete_Some in Hk as [_ Hk].
      by apply (ri_cache_ok _ Ha k).
    + intros k hs Hk. simpl in Hk. apply lookup_delete_Some in Hk as [_ Hk].
      by apply (ri_cache_ok _ Hb k).
    + split; [done |]. split; [|simpl in Hrg; lia].
      split; [congruence | congruence | | done]. by rewrite Hrsa, Hrsb, Hrs.
  - injection Hra as <- <-. injection Hrb as <- <-.
    split; [done |]. split; [by split | lia].
Qed.

Lemma exec_sim rg1 rg2 o a b oa a' ob b' :
  ring_inv a → ring_inv b → agree a b →
  exec rg1 o a = (oa, a') → exec rg2 o b = (ob, b') →
  cache_disjoint (hashs a') →
  oa = ob ∧ agree a' b' ∧ (ranges a' + ranges b = ranges b' + ranges a)%nat.
Proof.
  destruct o; simpl; eauto using Add_sim, AddWithWeight_sim, Remove_sim.
Qed.

Lemma run_no_remove_cache_le rg ops m o m' :
  ring_inv m → Forall (λ o, is_remove o = false) ops →
  run rg ops m = (o, m') → cache_le (hashs m) (hashs m').
Proof.
  intros Hinv Hall Hrun k hs Hk.
  apply (run_cache_le rg ops m o m' k hs Hinv); [|done..].
  eapply Forall_impl; [exact Hall |]. by intros [] Hr.
Qed.

(** A sequence of additions on two rings that agree. *)
Lemma run_sim rg1 rg2 ops a b oa a' ob b' :
  ring_inv a → ring_inv b → agree a b →
  Forall (λ o, is_remove o = false) ops →
  run rg1 ops a = (oa, a') → run rg2 ops b = (ob, b') →
  cache_disjoint (hashs a') →
  oa = ob ∧ agree a' b' ∧ (ranges a' + ranges b = ranges b' + ranges a)%nat.
Proof.
  revert a b. induction ops as [|o ops IH];
    intros a b Ha Hb Hag Hall Hra Hrb Hdis; simpl in Hra, Hrb.
  - injection Hra as <- <-. injection Hrb as <- <-. split; [done |]. split; [done | lia].
  - apply Forall_cons in Hall as [Ho Hall].
    destruct (exec rg1 o a) as [o1 a1] eqn:Ea.
    destruct (exec rg2 o b) as [o2 b1] eqn:Eb.
    pose proof (exec_inv _ _ _ _ _ Ha Ea) as Ha1.
    pose proof (exec_inv _ _ _ _ _ Hb Eb) as Hb1.
    assert (cache_disjoint (hashs a1)) as Hdis1.
    { destruct o1 as [[]|msg].
      - eapply cache_disjoint_le; [|done].
        by eapply run_no_remove_cache_le.
      - by injection Hra as <- <-. }
    destruct (exec_sim _ _ _ _ _ _ _ _ _ Ha Hb Hag Ea Eb Hdis1) as (<- & Hag1 & Hrg1).
    destruct o1 as [[]|msg].
    + destruct (IH a1 b1 Ha1 Hb1 Hag1 Hall Hra Hrb Hdis) as (Ho' & Hag' & Hrg').
      split; [done |]. split; [done | lia].
    + injection Hra as <- <-. injection Hrb as <- <-. by split.
Qed.

(** On a new ring: whatever the order, the calls have the outcome they
    have when the maps are visited in [map_order], and leave an agreeing
    ring after as many visits. *)
Lemma order_irrelevant rg ops r fn :
  Forall (λ o, is_remove o = false) ops →
  cache_disjoint (hashs (run map_order ops (New r fn)).2) →
  (run rg ops (New r fn)).1 = (run map_order ops (New r fn)).1 ∧
  agree (run map_order ops (New r fn)).2 (run rg ops (New r fn)).2 ∧
  ranges (run rg ops (New r fn)).2 = ranges (run map_order ops (New r fn)).2.
Proof.
  intros Hall Hdis.
  pose proof (run_sim map_order rg ops (New r fn) (New r fn) _ _ _ _
                (New_inv r fn) (New_inv r fn) (agree_refl _) Hall
                (surjective_pairing _) (surjective_pairing _) Hdis)
    as (Ho & Hag & Hrg).
  split; [done |]. split; [done |]. simpl in Hrg. lia.
Qed.

Lemma owners_ring_eq a b : ring_eq a b → owner a <$> keys a = owner b <$> keys b.
Proof.
  intros Heq. rewrite <- (proj1 Heq). apply list_fmap_ext.
  intros i p Hp. apply ring_eq_owner; [done |]. by eapply list_elem_of_lookup_2.
Qed.

(** What can be observed of the ring is then the same. *)
Lemma order_irrelevant_view rg ops r fn :
  Forall (λ o, is_remove o = false) ops →
  cache_disjointb (hashs (run map_order ops (New r fn)).2) = true →
  (run rg ops (New r fn)).1 = (run map_order ops (New r fn)).1 ∧
  replicas (run rg ops (New r fn)).2 = replicas (run map_order ops (New r fn)).2 ∧
  keys (run rg ops (New r fn)).2 = keys (run map_order ops (New r fn)).2 ∧
  owner (run rg ops (New r fn)).2 <$> keys (run rg ops (New r fn)).2 =
    owner (run map_order ops (New r fn)).2 <$> keys (run map_order ops (New r fn)).2 ∧
  ranges (run rg ops (New r fn)).2 = ranges (run map_order ops (New r fn)).2 ∧
  (∀ key, Get key (run rg ops (New r fn)).2 =
          Get key (run map_order ops (New r fn)).2) ∧
  (∀ fuel key, Get2 fuel key (run rg ops (New r fn)).2 =
               Get2 fuel key (run map_order ops (New r fn)).2).
Proof.
  intros Hall Hdis%cache_disjointb_spec.
  destruct (order_irrelevant rg ops r fn Hall Hdis) as (Ho & Hag & Hrg).
  split; [done |]. split; [by rewrite (ag_replicas _ _ Hag) |].
  split; [by rewrite (proj1 (ag_ring _ _ Hag)) |].
  split; [symmetry; apply owners_ring_eq, (ag_ring _ _ Hag) |].
  split; [done |]. split.
  - intros key. symmetry. by apply Get_agree.
  - intros fuel key. symmetry. by apply Get2_agree.
Qed.

(** ** The dead band of the adjuster *)

(** The correction is applied unless it is exactly 1. *)
Lemma applies_iff a : applies a = true ↔ a ≠ 1.
Proof.
  unfold applies. rewrite orb_true_iff, !Z.ltb_lt. lia.
Qed.

Lemma pair_pass1_keys : keys pair_pass1 = [1; 2; 11; 12].
Proof. vm_compute. reflexivity. Qed.

Lemma pair_pass1_replicas : replicas pair_pass1 = <["2" := 2]> {["1" := 2]}.
Proof. vm_compute. reflexivity. Qed.

Lemma pair_pass1_adjust :
  adjust_pass 0.75%float pair_pass1 4 (<["2" := 2]> {["1" := 2]}) 1 [2; 11; 12] =
    (<["2" := 2]> {["1" := 1]}, true).
Proof. vm_compute. reflexivity. Qed.

(** The second call is the adjuster's loop entered on [pair_pass1]. *)
Lemma pair_ring_loop :
  pair_ring =
    adjust_loop map_order 5 0.75%float 4 (<["2" := 2]> {["1" := 2]}) pair_pass1.
Proof.
  unfold pair_ring, AddWithWeight.
  change (2 <? 1) with false. cbv iota.
  replace (replicas pair_first !! "2") with (@None Z) by (vm_compute; reflexivity).
  rewrite bool_decide_eq_false_2 by (simpl; lia).
  change (adjust map_order 5 0.75%float pair_start =
          adjust_loop map_order 5 0.75%float 4 (<["2" := 2]> {["1" := 2]}) pair_pass1).
  unfold adjust. change (keys pair_start) with (@nil Z).
  cbn [length Nat.eqb negb].
  change (calc map_order (replicas pair_start) pair_start) with pair_pass1.
  replace (size (replicas pair_pass1) <=? 1)%nat with false
    by (vm_compute; reflexivity).
  replace (replica pair_pass1 <? 10) with false by (vm_compute; reflexivity).
  replace (total_weight (replicas pair_pass1)) with 4 by (vm_compute; reflexivity).
  rewrite pair_pass1_replicas. reflexivity.
Qed.

(** After its first pass the loop goes on with four tries left, on
    [pair_pass2]. *)
Lemma pair_ring_second_pass :
  pair_ring =
    adjust_loop map_order 4 0.75%float 4 (<["2" := 2]> {["1" := 1]}) pair_pass2.
Proof.
  rewrite pair_ring_loop. cbn [adjust_loop].
  rewrite pair_pass1_keys, pair_pass1_adjust. reflexivity.
Qed.

(** The two calls, with the maps visited in [map_order]. *)
Lemma pair_run :
  run map_order pair_calls (New 10 (Some atoi_hash)) = pair_ring.
Proof.
  unfold pair_calls, pair_ring, pair_first. cbn [run exec].
  destruct (AddWithWeight map_order "1" 2 (New 10 (Some atoi_hash)))
    as [o m1] eqn:E.
  assert (o = Ret tt) as ->.
  { change o with (o, m1).1. rewrite <- E. vm_compute. reflexivity. }
  cbn [snd]. by destruct (AddWithWeight map_order "2" 2 m1) as [[[]|msg] m2].
Qed.

Lemma pair_disjoint :
  cache_disjointb (hashs (run map_order pair_calls (New 10 (Some atoi_hash))).2)
    = true.
Proof. vm_compute. reflexivity. Qed.

(** C5 fails on the code.  For [AddWithWeight("1", 2)] followed by
    [AddWithWeight("2", 2)] on a ring with default replica count 10, in
    the first pass over the ring 1, 2, 11, 12 the correction of node 1 is
    -1 and that of node 2 is +1; the correction -1 is applied (the working
    weight of node 1 drops to 1 and the pass counts as changed), so that
    position 11 leaves the ring, whatever the order in which the maps are
    visited. *)
Theorem correction_minus_one_applied (rg : RangeOrder) :
  run map_order pair_calls (New 10 (Some atoi_hash)) =
    adjust_loop map_order 5 0.75%float 4 (<["2" := 2]> {["1" := 2]}) pair_pass1 ∧
  keys pair_pass1 = [1; 2; 11; 12] ∧
  load_stat pair_pass1 1 [2; 11; 12] = <["2" := 2]> {["1" := 2 ^ 32 - 2]} ∧
  correction 0.75%float 2 2 4 (2 ^ 32 - 2) = -1 ∧
  correction 0.75%float 2 2 4 2 = 1 ∧
  applies (-1) = true ∧ applies 0 = true ∧
  adjust_pass 0.75%float pair_pass1 4 (<["2" := 2]> {["1" := 2]}) 1 [2; 11; 12] =
    (<["2" := 2]> {["1" := 1]}, true) ∧
  (run rg pair_calls (New 10 (Some atoi_hash))).1 = Ret tt ∧
  keys (run rg pair_calls (New 10 (Some atoi_hash))).2 = [1; 2; 12].
Proof.
  split; [rewrite pair_run; exact pair_ring_loop |].
  do 7 (split; [vm_compute; reflexivity |]).
  destruct (order_irrelevant_view rg pair_calls 10 (Some atoi_hash))
    as (-> & _ & -> & _); [by repeat constructor | exact pair_disjoint |].
  split; vm_compute; reflexivity.
Qed.

(** The adjuster never makes more than [tries] passes: it calls [calc]
    once, and once more after each pass but the last. *)
Lemma adjust_loop_passes rg tries scale total reps m o m' :
  cache_ok m → adjust_loop rg tries scale total reps m = (o, m') →
  (ranges m' ≤ ranges m + tries)%nat.
Proof.
  revert reps m. induction tries as [|t IH]; intros reps m Hok Hrun; simpl in Hrun.
  - injection Hrun as <- <-. lia.
  - destruct (keys m) as [|k0 rest]; [injection Hrun as <- <-; lia |].
    destruct (adjust_pass scale m total reps k0 rest) as [reps' []].
    + apply IH in Hrun; [|by apply calc_cache_ok].
      rewrite calc_ranges in Hrun by done. lia.
    + injection Hrun as <- <-. lia.
Qed.

Lemma adjust_passes rg tries scale m o m' :
  cache_ok m → adjust rg tries scale m = (o, m') →
  (ranges m' ≤ ranges m + 1 + Z.to_nat tries)%nat.
Proof.
  intros Hok Hrun. unfold adjust in Hrun.
  destruct (negb _); [injection Hrun as <- <-; lia |].
  destruct (_ || _).
  - injection Hrun as <- <-. rewrite calc_ranges by done. lia.
  - apply adjust_loop_passes in Hrun; [|by apply calc_cache_ok].
    rewrite calc_ranges in Hrun by done. lia.
Qed.

(** C6 fails on the code.  The second pass of the same run changes no
    working weight (the corrections are 0 and +1), yet it counts as
    changed because 0 is applied, and the adjuster goes on to its fifth
    pass: whatever the order in which the maps are visited, the two calls
    run [calc] seven times, once in the first call and, in the second,
    once before the first pass and once after each of the five passes. *)
Theorem unchanged_pass_does_not_stop (rg : RangeOrder) :
  run map_order pair_calls (New 10 (Some atoi_hash)) =
    adjust_loop map_order 4 0.75%float 4 (<["2" := 2]> {["1" := 1]}) pair_pass2 ∧
  keys pair_pass2 = [1; 2; 12] ∧
  load_stat pair_pass2 1 [2; 12] = <["2" := 11]> {["1" := 2 ^ 32 - 11]} ∧
  correction 0.75%float 1 2 4 (2 ^ 32 - 11) = 0 ∧
  correction 0.75%float 2 2 4 11 = 1 ∧
  adjust_pass 0.75%float pair_pass2 4 (<["2" := 2]> {["1" := 1]}) 1 [2; 12] =
    (<["2" := 2]> {["1" := 1]}, true) ∧
  ranges (run rg [OpAddWithWeight "1" 2] (New 10 (Some atoi_hash))).2 = 1%nat ∧
  (run rg pair_calls (New 10 (Some atoi_hash))).1 = Ret tt ∧
  ranges (run rg pair_calls (New 10 (Some atoi_hash))).2 = 7%nat.
Proof.
  split; [rewrite pair_run; exact pair_ring_second_pass |].
  do 5 (split; [vm_compute; reflexivity |]).
  destruct (order_irrelevant_view rg [OpAddWithWeight "1" 2] 10 (Some atoi_hash))
    as (_ & _ & _ & _ & -> & _);
    [by repeat constructor | vm_compute; reflexivity |].
  destruct (order_irrelevant_view rg pair_calls 10 (Some atoi_hash))
    as (-> & _ & _ & _ & -> & _); [by repeat constructor | exact pair_disjoint |].
  repeat split; vm_compute; reflexivity.
Qed.

(** ** Rings that the adjuster empties *)

(** C10 fails on the code.  On a ring with default replica count 10 and
    the hash function of the test, [Add("3435973836", "2000000000", "9")]
    returns, three nodes are registered, the ring is empty, and [Get]
    panics on it, whatever the order in which the maps are visited. *)
Theorem Get_panics_on_emptied_ring (rg : RangeOrder) :
  (run rg emptied_calls (New 10 (Some atoi_hash))).1 = Ret tt ∧
  size (replicas (run rg emptied_calls (New 10 (Some atoi_hash))).2) = 3%nat ∧
  IsEmpty (run rg emptied_calls (New 10 (Some atoi_hash))).2 = false ∧
  keys (run rg emptied_calls (New 10 (Some atoi_hash))).2 = [] ∧
  Get "5" (run rg emptied_calls (New 10 (Some atoi_hash))).2 = Panic index_panic.
Proof.
  destruct (order_irrelevant_view rg emptied_calls 10 (Some atoi_hash))
    as (-> & Hrs & -> & _ & _ & HGet & _);
    [by repeat constructor | vm_compute; reflexivity |].
  unfold IsEmpty. rewrite HGet, Hrs.
  repeat split; vm_compute; reflexivity.
Qed.

(** On a ring that holds a position, [Get] returns a registered node. *)
Lemma Get_registered rg m key :
  reachable rg m → keys m ≠ [] →
  ∃ k, Get key m = Ret k ∧ is_Some (replicas m !! k).
Proof.
  intros Hreach Hne. pose proof (reachable_inv rg m Hreach) as Hinv.
  destruct (ri_built _ Hinv) as (reps & Hb & Hd).
  destruct (lookup_spec m key (bt_sorted _ _ Hb) Hne) as (p & Hp & _).
  exists (owner m p). split.
  - apply Get_owner; [by apply ring_nonempty_registered | done].
  - apply elem_of_dom, Hd, (built_owner_dom m reps p Hb).
    by eapply list_elem_of_lookup_2.
Qed.

(** ** The second owner *)

Lemma scan_single_owner m first fuel idx :
  (∀ p, p ∈ keys m → owner m p = first) →
  (idx < length (keys m))%nat → scan fuel first idx m = None.
Proof.
  intros Hall. revert idx. induction fuel as [|fuel IH]; intros idx Hidx;
    cbn [scan]; unfold owner_at;
    destruct (lookup_lt_is_Some_2 (keys m) idx Hidx) as [p Hp]; rewrite Hp;
    (rewrite bool_decide_eq_true_2;
       [|apply Hall; by eapply list_elem_of_lookup_2]).
  - done.
  - apply IH. destruct (Nat.eqb_spec (S idx) (length (keys m))) as [Heq|Hne]; lia.
Qed.

Lemma skewed_Get2 fuel : Get2 fuel "5" skewed = None.
Proof.
  assert (keys skewed = [2; 12; 22]) as Hk by (vm_compute; reflexivity).
  unfold Get2.
  replace (IsEmpty skewed) with false by (vm_compute; reflexivity).
  replace (lookup "5" skewed) with 1%nat by (vm_compute; reflexivity).
  replace (owner_at skewed 1) with (Ret (A := string) "2")
    by (vm_compute; reflexivity).
  replace (1 <? size (replicas skewed))%nat with true by (vm_compute; reflexivity).
  rewrite scan_single_owner; [done | | rewrite Hk; simpl; lia].
  assert (Forall (λ p, owner skewed p = "2") [2; 12; 22]) as Hall
    by (repeat constructor; vm_compute; reflexivity).
  intros p Hp. rewrite Hk in Hp. by apply (proj1 (Forall_forall _ _) Hall).
Qed.

(** C3 fails on the code.  After [AddWithWeight("1", 1)] and
    [AddWithWeight("2", 3)] on a ring with default replica count 10 two
    nodes are registered, but the adjuster has left node 1 without a
    position: every position is owned by node 2, and the scan of [Get2]
    never ends, whatever the number of turns it is given and whatever the
    order in which the maps are visited. *)
Theorem Get2_never_returns (rg : RangeOrder) (fuel : nat) :
  (run rg skewed_calls (New 10 (Some atoi_hash))).1 = Ret tt ∧
  size (replicas (run rg skewed_calls (New 10 (Some atoi_hash))).2) = 2%nat ∧
  keys (run rg skewed_calls (New 10 (Some atoi_hash))).2 = [2; 12; 22] ∧
  owner (run rg skewed_calls (New 10 (Some atoi_hash))).2 <$>
    keys (run rg skewed_calls (New 10 (Some atoi_hash))).2 = ["2"; "2"; "2"] ∧
  Get2 fuel "5" (run rg skewed_calls (New 10 (Some atoi_hash))).2 = None.
Proof.
  destruct (order_irrelevant_view rg skewed_calls 10 (Some atoi_hash))
    as (-> & -> & -> & -> & _ & _ & HGet2);
    [by repeat constructor | vm_compute; reflexivity |].
  rewrite HGet2. split; [vm_compute; reflexivity |].
  split; [vm_compute; reflexivity |]. split; [vm_compute; reflexivity |].
  split; [vm_compute; reflexivity |]. apply skewed_Get2.
Qed.

Lemma next_index_lt n idx : (idx < n)%nat → (next_index n idx < n)%nat.
Proof. unfold next_index. destruct (Nat.eqb_spec (S idx) n); lia. Qed.

Lemma iter_next_index_lt n d idx :
  (idx < n)%nat → (Nat.iter d (next_index n) idx < n)%nat.
Proof. intros Hidx. induction d; simpl; auto using next_index_lt. Qed.

(** Walking forward from [idx] reaches every index of the ring. *)
Lemma iter_next_index_reaches n idx j :
  (idx < n)%nat → (j < n)%nat →
  ∃ d, (d < n)%nat ∧ Nat.iter d (next_index n) idx = j.
Proof.
  intros Hidx Hj.
  assert (∀ d, (idx + d < n)%nat → Nat.iter d (next_index n) idx = (idx + d)%nat)
    as Hup.
  { induction d as [|d IH]; intros Hd; simpl; [lia |].
    rewrite IH by lia. unfold next_index.
    destruct (Nat.eqb_spec (S (idx + d)) n); lia. }
  destruct (decide (idx ≤ j)%nat) as [Hle|Hgt].
  - exists (j - idx)%nat. split; [lia |]. rewrite Hup; lia.
  - assert (Nat.iter (n - idx) (next_index n) idx = 0%nat) as Hwrap.
    { replace (n - idx)%nat with (S (n - idx - 1)) by lia. simpl.
      rewrite Hup by lia. unfold next_index.
      destruct (Nat.eqb_spec (S (idx + (n - idx - 1))) n); lia. }
    assert (∀ d, (d < n)%nat → Nat.iter d (next_index n) 0%nat = d) as Hzero.
    { induction d as [|d IH]; intros Hd; simpl; [done |].
      rewrite IH by lia. unfold next_index. destruct (Nat.eqb_spec (S d) n); lia. }
    exists (j + (n - idx))%nat. split; [lia |].
    by rewrite Nat.iter_add, Hwrap, Hzero.
Qed.

(** The scan stops at the first index, walking forward, whose owner is
    not [first]. *)
Lemma scan_finds m first d :
  ∀ fuel idx, (d ≤ fuel)%nat →
    (∀ d', (d' < d)%nat →
       owner_at m (Nat.iter d' (next_index (length (keys m))) idx) = Ret first) →
    (∃ o, owner_at m (Nat.iter d (next_index (length (keys m))) idx) = Ret o ∧
          o ≠ first) →
    scan fuel first idx m =
      Some (Ret (Nat.iter d (next_index (length (keys m))) idx)).
Proof.
  induction d as [|d IH]; intros fuel idx Hfuel Hfirst (o & Ho & Hne).
  - simpl in Ho |- *. destruct fuel; cbn [scan]; rewrite Ho;
      by rewrite bool_decide_eq_false_2.
  - destruct fuel as [|fuel]; [lia |]. cbn [scan].
    pose proof (Hfirst 0%nat ltac:(lia)) as H0. simpl in H0. rewrite H0.
    rewrite bool_decide_eq_true_2 by done.
    rewrite Nat.iter_succ_r in Ho |- *.
    apply IH; [lia | | by exists o].
    intros d' Hd'. rewrite <- Nat.iter_succ_r. apply Hfirst. lia.
Qed.

Lemma least_witness (P : nat → Prop) `{∀ d, Decision (P d)} d :
  P d → ∃ d0, (d0 ≤ d)%nat ∧ P d0 ∧ ∀ d', (d' < d0)%nat → ¬ P d'.
Proof.
  assert (∀ e, (∃ d0, (d0 ≤ e)%nat ∧ P d0 ∧ ∀ d', (d' < d0)%nat → ¬ P d') ∨
               (∀ d', (d' ≤ e)%nat → ¬ P d')) as Hsearch.
  { induction e as [|e [(d0 & Hle & Hd0 & Hmin)|Hnone]].
    - destruct (decide (P 0%nat)) as [H0|H0].
      + left. exists 0%nat. split; [lia |]. split; [done |]. intros d' Hd'. lia.
      + right. intros d' Hd'. by replace d' with 0%nat by lia.
    - left. exists d0. split; [lia | done].
    - destruct (decide (P (S e))) as [HS|HS].
      + left. exists (S e). split; [lia |]. split; [done |].
        intros d' Hd'. apply Hnone. lia.
      + right. intros d' Hd'. destruct (decide (d' = S e)) as [->|Hne]; [done |].
        apply Hnone. lia. }
  intros Hd. destruct (Hsearch d) as [Hfound|Hnone]; [done |].
  by destruct (Hnone d (Nat.le_refl d)).
Qed.

(** On a ring that holds positions of two owners, [Get2] returns, given
    at least as many turns as the ring has positions; the first owner is
    the one [Get] returns, the second is the owner of the first position
    after it, walking forward with wraparound, that another node owns;
    both are registered. *)
Lemma Get2_distinct_owners rg m key fuel :
  reachable rg m →
  (∃ p q, p ∈ keys m ∧ q ∈ keys m ∧ owner m p ≠ owner m q) →
  (length (keys m) ≤ fuel)%nat →
  ∃ first second d,
    Get2 fuel key m = Some (Ret (first, second)) ∧ Get key m = Ret first ∧
    first ≠ second ∧
    is_Some (replicas m !! first) ∧ is_Some (replicas m !! second) ∧
    owner_at m (Nat.iter d (next_index (length (keys m))) (lookup key m)) =
      Ret second ∧
    ∀ d', (d' < d)%nat →
      owner_at m (Nat.iter d' (next_index (length (keys m))) (lookup key m)) =
        Ret first.
Proof.
  intros Hreach (p & q & Hp & Hq & Hpq) Hfuel.
  pose proof (reachable_inv rg m Hreach) as Hinv.
  destruct (ri_built _ Hinv) as (reps & Hb & Hd).
  assert (keys m ≠ []) as Hne by (intros E; rewrite E in Hp; by apply elem_of_nil in Hp).
  assert (∀ x, x ∈ keys m → is_Some (replicas m !! owner m x)) as Hreg.
  { intros x Hx. by apply elem_of_dom, Hd, (built_owner_dom m reps x Hb). }
  pose proof (lookup_lt m key (bt_sorted _ _ Hb) Hne) as Hidx.
  destruct (lookup_lt_is_Some_2 (keys m) _ Hidx) as [p0 Hp0].
  set (n := length (keys m)) in *. set (idx := lookup key m) in *.
  set (first := owner m p0).
  assert (∀ i, (i < n)%nat → ∃ x, keys m !! i = Some x ∧ owner_at m i = Ret (owner m x))
    as Hat.
  { intros i Hi. destruct (lookup_lt_is_Some_2 (keys m) i Hi) as [x Hx].
    exists x. split; [done |]. unfold owner_at. by rewrite Hx. }
  (* some index holds an owner other than [first] *)
  assert (∃ j x, keys m !! j = Some x ∧ owner m x ≠ first) as (j & x & Hj & Hx).
  { destruct (decide (owner m p = first)) as [Hpf|Hpf].
    - apply list_elem_of_lookup_1 in Hq as [j Hj]. exists j, q.
      split; [done | congruence].
    - apply list_elem_of_lookup_1 in Hp as [j Hj]. by exists j, p. }
  destruct (iter_next_index_reaches n idx j Hidx (lookup_lt_Some _ _ _ Hj))
    as (d1 & Hd1n & Hd1).
  destruct (least_witness
              (λ d, owner_at m (Nat.iter d (next_index n) idx) ≠ Ret first) d1)
    as (d & Hle & Hdne & Hmin).
  { rewrite Hd1. unfold owner_at. rewrite Hj. congruence. }
  destruct (Hat (Nat.iter d (next_index n) idx)) as (y & Hy & Hyo);
    [by apply iter_next_index_lt |].
  assert (owner m y ≠ first) as Hyne by (rewrite Hyo in Hdne; congruence).
  exists first, (owner m y), d.
  assert (Get key m = Ret first) as HGet.
  { apply Get_owner; [by apply ring_nonempty_registered | done]. }
  assert (1 < size (replicas m))%nat as Hsize.
  { assert ({[first; owner m y]} ⊆ dom (replicas m)) as Hsub.
    { intros k [->%elem_of_singleton| ->%elem_of_singleton]%elem_of_union;
        apply elem_of_dom, Hreg; by eapply list_elem_of_lookup_2. }
    apply subseteq_size in Hsub. rewrite size_dom in Hsub.
    rewrite size_union, !size_singleton in Hsub; [lia |].
    apply disjoint_singleton_l. by intros ->%elem_of_singleton. }
  assert (∀ d', (d' < d)%nat →
            owner_at m (Nat.iter d' (next_index n) idx) = Ret first) as Hbefore.
  { intros d' Hd'. specialize (Hmin d' Hd').
    destruct (decide (owner_at m (Nat.iter d' (next_index n) idx) = Ret first));
      [done | by exfalso]. }
  repeat split; try done.
  - unfold Get2, IsEmpty. fold idx.
    destruct (Nat.eqb_spec (size (replicas m)) 0) as [Hz|Hz]; [lia |].
    unfold owner_at at 1. rewrite Hp0. fold first.
    rewrite (proj2 (Nat.ltb_lt _ _) Hsize).
    fold n. rewrite (scan_finds m first d fuel idx); fold n.
    + by rewrite Hyo.
    + lia.
    + done.
    + exists (owner m y). by rewrite Hyo.
  - apply Hreg. by eapply list_elem_of_lookup_2.
  - apply Hreg. by eapply list_elem_of_lookup_2.
Qed.

(** * Further properties of the ring *)

(** ** The position that serves a key *)

Lemma closest_unique h ks p q : closest h ks p → closest h ks q → p = q.
Proof.
  intros [Hp [[H1 H2]|[H1 H2]]] [Hq [[H3 H4]|[H3 H4]]].
  - specialize (H2 q Hq H3). specialize (H4 p Hp H1). lia.
  - specialize (H3 p Hp). lia.
  - specialize (H1 q Hq). lia.
  - specialize (H2 q Hq). specialize (H4 p Hp). lia.
Qed.

Lemma closest_sub h ks ks' p :
  (∀ q, q ∈ ks → q ∈ ks') → closest h ks' p → p ∈ ks → closest h ks p.
Proof.
  intros Hsub [_ [[H1 H2]|[H1 H2]]] Hp; (split; [done |]).
  - left. split; [done |]. intros q Hq. apply H2. by apply Hsub.
  - right. split; intros q Hq; [apply H1 | apply H2]; by apply Hsub.
Qed.

Lemma lookup_closest m key :
  Sorted Z.le (keys m) → keys m ≠ [] →
  ∃ p, keys m !! lookup key m = Some p ∧
       closest (uint32 (hash m key)) (keys m) p.
Proof.
  intros Hsorted Hne.
  destruct (lookup_spec m key Hsorted Hne) as (p & Hp & Hcase).
  exists p. split; [done |]. split; [by eapply list_elem_of_lookup_2 |].
  destruct Hcase as [[Hle Hbefore]|[Hz Hall]].
  - left. split; [done |]. intros q Hq Hhq.
    apply list_elem_of_lookup_1 in Hq as [j Hj].
    destruct (decide (j < lookup key m)%nat) as [Hlt|Hge].
    + specialize (Hbefore _ _ Hlt Hj). lia.
    + apply (Sorted_lookup_le (keys m) (lookup key m) j); [done | lia | done..].
  - right. split; [done |]. intros q Hq.
    apply list_elem_of_lookup_1 in Hq as [j Hj].
    apply (Sorted_lookup_le (keys m) (lookup key m) j); [done | lia | done..].
Qed.

(** [Get] returns the owner of the position that serves the key. *)
Lemma Get_of_closest m key p :
  ring_inv m → closest (uint32 (hash m key)) (keys m) p →
  Get key m = Ret (owner m p).
Proof.
  intros Hinv Hp. destruct (ri_built _ Hinv) as (reps & Hb & _).
  assert (keys m ≠ []) as Hne.
  { destruct Hp as [Hp _]. intros E. rewrite E in Hp. by apply elem_of_nil in Hp. }
  destruct (lookup_closest m key (bt_sorted _ _ Hb) Hne) as (q & Hq & Hcl).
  rewrite (closest_unique _ _ _ _ Hp Hcl).
  apply Get_owner; [by apply ring_nonempty_registered | done].
Qed.

(** ** Positions and their owners on a built ring *)

Lemma positions_of_mono h k r r' p :
  r ≤ r' → p ∈ positions_of h (k, r) → p ∈ positions_of h (k, r').
Proof.
  intros Hle. rewrite !elem_of_positions_of. simpl.
  intros (i & Hi & ->). exists i. split; [lia | done].
Qed.

Lemma built_elem_of m reps p :
  built m reps →
  p ∈ keys m ↔ ∃ k r, reps !! k = Some r ∧ p ∈ positions_of (hash m) (k, r).
Proof.
  intros Hb. rewrite (bt_keys _ _ Hb), elem_of_ring_list. split.
  - intros ([k r] & Hin & Hp). apply elem_of_map_to_list in Hin. eauto.
  - intros (k & r & Hk & Hp). exists (k, r). split; [|done].
    by apply elem_of_map_to_list.
Qed.

(** A registered node of positive weight has a position on the ring. *)
Lemma built_nonempty m reps k r :
  built m reps → reps !! k = Some r → 1 ≤ r → keys m ≠ [].
Proof.
  intros Hb Hk Hr E.
  assert (position (hash m) 0 k ∈ keys m) as Hin.
  { apply (built_elem_of m reps _ Hb). exists k, r. split; [done |].
    apply elem_of_positions_of. exists 0%nat. simpl. split; [lia | done]. }
  rewrite E in Hin. by apply elem_of_nil in Hin.
Qed.

(** Without a collision the owner recorded for a position is the node
    the position belongs to. *)
Lemma built_owner_unique m reps k r p :
  built m reps → cache_ok m → cache_disjoint (hashs m) →
  reps !! k = Some r → p ∈ positions_of (hash m) (k, r) → owner m p = k.
Proof.
  intros Hb Hok Hdis Hk Hp.
  assert (p ∈ keys m) as Hin by (apply (built_elem_of m reps p Hb); eauto).
  destruct (bt_owner _ _ Hb p Hin) as (k' & r' & Hk' & Hp' & Hm).
  unfold owner. rewrite Hm. simpl.
  assert (∀ k0 r0, reps !! k0 = Some r0 → p ∈ positions_of (hash m) (k0, r0) →
            ∃ hs, hashs m !! k0 = Some hs ∧ p ∈ hs) as Hcached.
  { intros k0 r0 Hk0 Hp0. destruct (bt_cover _ _ Hb k0 r0 Hk0) as (hs & Hhs & Hlen).
    exists hs. split; [done |].
    apply elem_of_positions_of in Hp0 as (i & Hi & ->). simpl in *.
    destruct (lookup_lt_is_Some_2 hs i) as [x Hx]; [lia |].
    rewrite <- (Hok k0 hs Hhs i x Hx). by eapply list_elem_of_lookup_2. }
  destruct (Hcached k r Hk Hp) as (hs & Hhs & Hin1).
  destruct (Hcached k' r' Hk' Hp') as (hs' & Hhs' & Hin2).
  by apply (Hdis k' k hs' hs p).
Qed.

(** [Get] on a ring of the invariant: the three cases. *)
Lemma Get_cases_inv m key :
  ring_inv m →
  (replicas m = ∅ ∧ Get key m = Ret "") ∨
  (replicas m ≠ ∅ ∧ keys m = [] ∧ Get key m = Panic index_panic) ∨
  (∃ s, keys m ≠ [] ∧ is_Some (replicas m !! s) ∧ Get key m = Ret s).
Proof.
  intros Hinv. destruct (decide (replicas m = ∅)) as [He|Hne].
  { left. split; [done | by apply Get_empty]. }
  right. destruct (keys m) as [|p0 ks] eqn:E.
  - left. repeat split; try done. unfold Get, IsEmpty, owner_at.
    destruct (Nat.eqb_spec (size (replicas m)) 0) as [Hz|Hz].
    { by apply map_size_empty_iff in Hz. }
    by rewrite E, lookup_nil.
  - right. destruct (ri_built _ Hinv) as (reps & Hb & Hd).
    assert (keys m ≠ []) as Hk by (by rewrite E).
    destruct (lookup_spec m key (bt_sorted _ _ Hb) Hk) as (p & Hp & _).
    exists (owner m p). split; [done |]. split.
    + apply elem_of_dom, Hd, (built_owner_dom m reps p Hb).
      by eapply list_elem_of_lookup_2.
    + by apply Get_owner.
Qed.

(** ** Rings whose weights only grow *)

(** Two rings built from their target weights over the same hash
    function, the weights of the second at least those of the first: a
    key is served on the second ring as on the first, unless it moved to
    a node whose weight differs. *)
Lemma ring_growth m1 m2 key :
  ring_inv m1 → ring_inv m2 →
  built m1 (replicas m1) → built m2 (replicas m2) →
  hash m1 = hash m2 →
  (∀ k r, replicas m1 !! k = Some r → ∃ r', replicas m2 !! k = Some r' ∧ r ≤ r') →
  cache_disjoint (hashs m2) →
  Get key m2 = Get key m1 ∨
  ∃ s, Get key m2 = Ret s ∧ replicas m1 !! s ≠ replicas m2 !! s.
Proof.
  intros Hi1 Hi2 Hb1 Hb2 Hh Hle Hdis.
  destruct (decide (replicas m2 = ∅)) as [He2|Hne2].
  { left. rewrite !Get_empty; [done | | done].
    apply map_eq. intros k. rewrite lookup_empty.
    destruct (replicas m1 !! k) as [r|] eqn:E; [|done].
    destruct (Hle k r E) as (r' & Hr' & _). by rewrite He2 in Hr'. }
  assert (keys m2 ≠ []) as Hk2.
  { destruct (map_choose _ Hne2) as (k & r & Hk).
    apply (built_nonempty m2 _ k r Hb2 Hk), (ri_weights _ Hi2 k r Hk). }
  destruct (lookup_closest m2 key (bt_sorted _ _ Hb2) Hk2) as (p & Hp & Hcl).
  pose proof (Get_owner m2 key p Hne2 Hp) as Hget2.
  assert (p ∈ keys m2) as Hin2 by (by eapply list_elem_of_lookup_2).
  destruct (bt_owner _ _ Hb2 p Hin2) as (k2 & r2 & Hreg2 & Hpos2 & Hm2).
  assert (owner m2 p = k2) as Ho2 by (unfold owner; by rewrite Hm2).
  destruct (decide (replicas m1 !! k2 = replicas m2 !! k2)) as [Hsame|Hdiff].
  2:{ right. exists k2. by rewrite Hget2, Ho2. }
  left. rewrite Hreg2 in Hsame.
  assert (p ∈ keys m1) as Hin1.
  { apply (built_elem_of m1 _ p Hb1). exists k2, r2. by rewrite Hh. }
  assert (closest (uint32 (hash m1 key)) (keys m1) p) as Hcl1.
  { rewrite Hh. apply (closest_sub _ _ (keys m2)); [|done..].
    intros q Hq. apply (built_elem_of m1 _ q Hb1) in Hq as (k & r & Hk & Hq).
    destruct (Hle k r Hk) as (r' & Hk' & Hrr').
    apply (built_elem_of m2 _ q Hb2). exists k, r'. split; [done |].
    rewrite <- Hh. by apply (positions_of_mono _ _ r). }
  rewrite (Get_of_closest m1 key p Hi1 Hcl1), Hget2, Ho2. f_equal.
  destruct (bt_owner _ _ Hb1 p Hin1) as (k1 & r1 & Hreg1 & Hpos1 & Hm1).
  unfold owner. rewrite Hm1. simpl.
  destruct (Hle k1 r1 Hreg1) as (r1' & Hreg1' & Hr1).
  rewrite <- Ho2.
  apply (built_owner_unique m2 _ k1 r1' p Hb2 (ri_cache_ok _ Hi2) Hdis Hreg1').
  rewrite <- Hh. by apply (positions_of_mono _ _ r1).
Qed.

(** X1. [Get] on a ring reached by any calls has one of three outcomes:
    with no node registered it returns the empty string; with nodes
    registered but no position on the ring it panics on the index; and
    otherwise it returns a node that is registered.  In particular it
    never returns a node that is not (or no longer) registered. *)
Theorem Get_outcomes (rg : RangeOrder) (m : Map) (key : string) :
  reachable rg m →
  (replicas m = ∅ ∧ Get key m = Ret "") ∨
  (replicas m ≠ ∅ ∧ keys m = [] ∧ Get key m = Panic index_panic) ∨
  (∃ s, keys m ≠ [] ∧ is_Some (replicas m !! s) ∧ Get key m = Ret s).
Proof. intros Hreach. by apply Get_cases_inv, (reachable_inv rg). Qed.

Lemma Get_outcomes_witness :
  (replicas (scenario map_order) = ∅ ∧ Get "27" (scenario map_order) = Ret "") ∨
  (replicas (scenario map_order) ≠ ∅ ∧ keys (scenario map_order) = [] ∧
   Get "27" (scenario map_order) = Panic index_panic) ∨
  (∃ s, keys (scenario map_order) ≠ [] ∧
        is_Some (replicas (scenario map_order) !! s) ∧
        Get "27" (scenario map_order) = Ret s).
Proof. apply (Get_outcomes map_order), scenario_reachable. Defined.

(** X2. Monotonicity of the ring.  Take two rings over the same hash
    function on which the adjuster is skipped, every node of the first
    registered on the second with at least its weight, and no position
    cached for two nodes of the second.  Then a key is served on the
    second ring by the node that serves it on the first, unless it is
    served by a node that is new or whose weight differs. *)
Theorem Get_monotone (rg1 rg2 : RangeOrder) (m1 m2 : Map) (key : string) :
  reachable rg1 m1 → reachable rg2 m2 → hash m1 = hash m2 →
  replica m1 < 10 ∨ (size (replicas m1) ≤ 1)%nat →
  replica m2 < 10 ∨ (size (replicas m2) ≤ 1)%nat →
  (∀ k r, replicas m1 !! k = Some r → ∃ r', replicas m2 !! k = Some r' ∧ r ≤ r') →
  cache_disjoint (hashs m2) →
  Get key m2 = Get key m1 ∨
  ∃ s, Get key m2 = Ret s ∧ replicas m1 !! s ≠ replicas m2 !! s.
Proof.
  intros Hr1 Hr2 Hh Hp1 Hp2 Hle Hdis.
  pose proof (reachable_inv _ _ Hr1) as Hi1.
  pose proof (reachable_inv _ _ Hr2) as Hi2.
  apply ring_growth; try done; by apply ri_plain.
Qed.

Lemma Get_monotone_witness :
  Get "27" (scenario8 map_order) = Get "27" (scenario reverse_order) ∨
  ∃ s, Get "27" (scenario8 map_order) = Ret s ∧
       replicas (scenario reverse_order) !! s ≠ replicas (scenario8 map_order) !! s.
Proof.
  apply (Get_monotone reverse_order map_order).
  - apply scenario_reachable.
  - apply scenario8_reachable.
  - by rewrite (proj1 (scenario_fields _)), (proj1 (scenario8_fields _)).
  - left. rewrite (proj1 (proj2 (scenario_fields _))). lia.
  - left. rewrite (proj1 (proj2 (scenario8_fields _))). lia.
  - intros k r Hk. exists 3.
    rewrite (proj2 (proj2 (scenario_fields _))) in Hk.
    rewrite (proj2 (proj2 (scenario8_fields _))).
    destruct (decide (k = "8")) as [->|Hne]; [by vm_compute in Hk |].
    rewrite lookup_insert_ne by done.
    apply lookup_insert_Some in Hk as [[<- <-]|[? Hk]]; [by simplify_map_eq |].
    apply lookup_insert_Some in Hk as [[<- <-]|[? Hk]]; [by simplify_map_eq |].
    apply lookup_insert_Some in Hk as [[<- <-]|[? Hk]]; [by simplify_map_eq |].
    by rewrite lookup_empty in Hk.
  - apply cache_disjointb_spec. vm_compute. reflexivity.
Defined.

(** X3. Where the adjuster is skipped, registering a node or raising its
    weight returns, and moves keys only to that node: every key is served
    as before or by the node, provided the node's positions collide with
    no other node's. *)
Theorem AddWithWeight_moves_keys_to_node (rg : RangeOrder) (m : Map)
    (node : string) (w : Z) (o : outcome unit) (m' : Map) (key : string) :
  reachable rg m → replica m < 10 → 1 ≤ w →
  (∀ r, replicas m !! node = Some r → r ≤ w) →
  AddWithWeight rg node w m = (o, m') →
  cache_disjoint (hashs m') →
  o = Ret tt ∧ (Get key m' = Get key m ∨ Get key m' = Ret node).
Proof.
  intros Hreach Hskip Hw Hold Hrun Hdis.
  pose proof (reachable_inv _ _ Hreach) as Hinv.
  pose proof (AddWithWeight_inv _ _ _ _ _ _ Hinv Hrun) as Hinv'.
  destruct (AddWithWeight_fields _ _ _ _ _ _ (ri_cache_ok _ Hinv) Hrun)
    as (Hh & Hr & _ & Hrs & _ & Hret).
  specialize (Hrs Hw). split; [by apply Hret |].
  destruct (ring_growth m m' key) as [Heq|(s & Hs & Hdiff)]; try done.
  - apply ri_plain; [done | by left].
  - apply ri_plain; [done | left; by rewrite Hr].
  - intros k r Hk. rewrite Hrs. destruct (decide (k = node)) as [->|Hne].
    + exists w. rewrite lookup_insert_eq. split; [done | by apply Hold].
    + exists r. rewrite lookup_insert_ne by done. split; [done | lia].
  - by left.
  - right. rewrite Hs. f_equal. rewrite Hrs in Hdiff.
    destruct (decide (s = node)) as [->|Hne]; [done |].
    by rewrite lookup_insert_ne in Hdiff.
Qed.

Lemma AddWithWeight_moves_keys_to_node_witness :
  (AddWithWeight map_order "8" 3 (scenario map_order)).1 = Ret tt ∧
  (Get "27" (AddWithWeight map_order "8" 3 (scenario map_order)).2 =
     Get "27" (scenario map_order) ∨
   Get "27" (AddWithWeight map_order "8" 3 (scenario map_order)).2 = Ret "8").
Proof.
  apply (AddWithWeight_moves_keys_to_node map_order (scenario map_order) "8" 3).
  - apply scenario_reachable.
  - rewrite (proj1 (proj2 (scenario_fields _))). lia.
  - lia.
  - intros r Hr. rewrite (proj2 (proj2 (scenario_fields _))) in Hr.
    by vm_compute in Hr.
  - apply surjective_pairing.
  - apply cache_disjointb_spec. vm_compute. reflexivity.
Defined.

(** X4. Where the adjuster is skipped, [Remove] returns and a key that
    was served by another node than the removed one is still served by
    that node, provided no position was cached for two nodes. *)
Theorem Remove_keeps_other_keys (rg : RangeOrder) (m : Map) (node : string)
    (o : outcome unit) (m' : Map) (key s : string) :
  reachable rg m → replica m < 10 →
  Remove rg node m = (o, m') →
  cache_disjoint (hashs m) →
  Get key m = Ret s → s ≠ node →
  o = Ret tt ∧ Get key m' = Ret s.
Proof.
  intros Hreach Hskip Hrun Hdis Hget Hs.
  pose proof (reachable_inv _ _ Hreach) as Hinv.
  pose proof (Remove_inv _ _ _ _ _ Hinv Hrun) as Hinv'.
  destruct (Remove_fields _ _ _ _ _ (ri_cache_ok _ Hinv) Hrun)
    as (Hh & Hr & Hrs & Hret).
  split; [by apply Hret |].
  destruct (ring_growth m' m key) as [Heq|(s' & Hs' & Hdiff)]; try done.
  - apply ri_plain; [done | left; by rewrite Hr].
  - apply ri_plain; [done | by left].
  - intros k r Hk. rewrite Hrs in Hk. apply lookup_delete_Some in Hk as [_ Hk].
    exists r. split; [done | lia].
  - by rewrite <- Heq.
  - rewrite Hget in Hs'. injection Hs' as <-. rewrite Hrs in Hdiff.
    by rewrite lookup_delete_ne in Hdiff.
Qed.

Lemma Remove_keeps_other_keys_witness :
  (Remove map_order "8" (scenario8 map_order)).1 = Ret tt ∧
  Get "23" (Remove map_order "8" (scenario8 map_order)).2 = Ret "4".
Proof.
  apply (Remove_keeps_other_keys map_order (scenario8 map_order) "8").
  - apply scenario8_reachable.
  - rewrite (proj1 (proj2 (scenario8_fields _))). lia.
  - apply surjective_pairing.
  - apply cache_disjointb_spec. vm_compute. reflexivity.
  - vm_compute. reflexivity.
  - discriminate.
Defined.

(** ** One node, two nodes *)

Lemma two_registered (w : gmap string Z) :
  (1 < size w)%nat →
  ∃ k1 r1 k2 r2, k1 ≠ k2 ∧ w !! k1 = Some r1 ∧ w !! k2 = Some r2.
Proof.
  intros Hs. rewrite <- length_map_to_list in Hs.
  pose proof (NoDup_fst_map_to_list w) as Hnd.
  assert (∀ kr, kr ∈ map_to_list w → w !! kr.1 = Some kr.2) as Hin.
  { intros [k r] Hkr. by apply elem_of_map_to_list in Hkr. }
  destruct (map_to_list w) as [|[k1 r1] [|[k2 r2] l]]; simpl in Hs; try lia.
  exists k1, r1, k2, r2. split; [|split].
  - simpl in Hnd. apply NoDup_cons in Hnd as [Hnot _]. intros ->.
    apply Hnot. by left.
  - apply (Hin (k1, r1)). by left.
  - apply (Hin (k2, r2)). right. by left.
Qed.

(** X5. With a single registered node, [Get] returns that node for every
    key, and [Get2] returns it with the empty string as second owner,
    without scanning. *)
Theorem single_node_serves_all (rg : RangeOrder) (m : Map) (node : string) (r : Z)
    (key : string) (fuel : nat) :
  reachable rg m → replicas m = {[node := r]} →
  Get key m = Ret node ∧ Get2 fuel key m = Some (Ret (node, "")).
Proof.
  intros Hreach Hrs. pose proof (reachable_inv _ _ Hreach) as Hinv.
  assert (size (replicas m) = 1%nat) as Hsize by (by rewrite Hrs, map_size_singleton).
  assert (built m (replicas m)) as Hb by (apply ri_plain; [done | right; lia]).
  assert (replicas m !! node = Some r) as Hreg by (by rewrite Hrs, lookup_singleton_eq).
  assert (keys m ≠ []) as Hne.
  { apply (built_nonempty m _ node r Hb Hreg), (ri_weights _ Hinv node r Hreg). }
  destruct (lookup_spec m key (bt_sorted _ _ Hb) Hne) as (p & Hp & _).
  assert (owner m p = node) as Ho.
  { assert (owner m p ∈ dom (replicas m)) as Hd.
    { apply (built_owner_dom m _ p Hb). by eapply list_elem_of_lookup_2. }
    rewrite Hrs, dom_singleton_L in Hd. by apply elem_of_singleton in Hd. }
  assert (owner_at m (lookup key m) = Ret node) as Hat.
  { unfold owner_at. by rewrite Hp, Ho. }
  unfold Get, Get2, IsEmpty. rewrite Hsize, Hat. done.
Qed.

Lemma single_node_serves_all_witness :
  Get "k" (Add map_order ["a"] (New 3 None)).2 = Ret "a" ∧
  Get2 0 "k" (Add map_order ["a"] (New 3 None)).2 = Some (Ret ("a", "")).
Proof.
  apply (single_node_serves_all map_order _ "a" 3).
  - apply (reach_exec map_order (OpAdd ["a"]) (New 3 None)
             (Add map_order ["a"] (New 3 None)).1).
    + apply reach_New.
    + apply surjective_pairing.
  - vm_compute. reflexivity.
Defined.

(** X6. Where the adjuster is skipped, at least two nodes are registered
    and no position is cached for two nodes, [Get2] returns within as
    many turns as the ring has positions: two distinct registered nodes,
    the first the one [Get] returns. *)
Theorem Get2_two_owners (rg : RangeOrder) (m : Map) (key : string) (fuel : nat) :
  reachable rg m → replica m < 10 → (1 < size (replicas m))%nat →
  cache_disjoint (hashs m) → (length (keys m) ≤ fuel)%nat →
  ∃ first second,
    Get2 fuel key m = Some (Ret (first, second)) ∧ Get key m = Ret first ∧
    first ≠ second ∧
    is_Some (replicas m !! first) ∧ is_Some (replicas m !! second).
Proof.
  intros Hreach Hskip Hsize Hdis Hfuel.
  pose proof (reachable_inv _ _ Hreach) as Hinv.
  assert (built m (replicas m)) as Hb by (apply ri_plain; [done | by left]).
  destruct (two_registered _ Hsize) as (k1 & r1 & k2 & r2 & Hne & Hk1 & Hk2).
  assert (∀ k r, replicas m !! k = Some r →
            position (hash m) 0 k ∈ keys m ∧ owner m (position (hash m) 0 k) = k)
    as Hpos.
  { intros k r Hk.
    assert (position (hash m) 0 k ∈ positions_of (hash m) (k, r)) as Hin.
    { apply elem_of_positions_of. exists 0%nat. simpl.
      pose proof (ri_weights _ Hinv k r Hk). split; [lia | done]. }
    split.
    - apply (built_elem_of m _ _ Hb). eauto.
    - by apply (built_owner_unique m _ k r _ Hb (ri_cache_ok _ Hinv) Hdis). }
  destruct (Hpos k1 r1 Hk1) as [Hin1 Ho1]. destruct (Hpos k2 r2 Hk2) as [Hin2 Ho2].
  destruct (Get2_distinct_owners rg m key fuel Hreach) as
    (first & second & d & HG2 & HG & Hdiff & Hf & Hs & _); [| done |].
  { exists (position (hash m) 0 k1), (position (hash m) 0 k2).
    repeat split; try done. by rewrite Ho1, Ho2. }
  by exists first, second.
Qed.

Lemma Get2_two_owners_witness :
  ∃ first second,
    Get2 9 "27" (scenario map_order) = Some (Ret (first, second)) ∧
    Get "27" (scenario map_order) = Ret first ∧
    first ≠ second ∧
    is_Some (replicas (scenario map_order) !! first) ∧
    is_Some (replicas (scenario map_order) !! second).
Proof.
  apply (Get2_two_owners map_order (scenario map_order) "27" 9).
  - apply scenario_reachable.
  - rewrite (proj1 (proj2 (scenario_fields _))). lia.
  - vm_compute. lia.
  - apply cache_disjointb_spec. vm_compute. reflexivity.
  - vm_compute. lia.
Defined.

(** ** Removal *)

Lemma calc_empty rg m : cache_ok m → keys (calc rg ∅ m) = [].
Proof.
  intros Hok. rewrite calc_keys by done.
  pose proof (visit_perm rg (ranges m) ∅) as Hp.
  rewrite map_to_list_empty in Hp. apply Permutation_nil_r in Hp. by rewrite Hp.
Qed.

(** X7. Removing the only registered node returns and leaves a ring with
    no node and no position, on which [IsEmpty] holds and [Get] returns
    the empty string. *)
Theorem Remove_last_node (rg : RangeOrder) (m : Map) (node : string) (r : Z)
    (o : outcome unit) (m' : Map) :
  reachable rg m → replicas m = {[node := r]} →
  Remove rg node m = (o, m') →
  o = Ret tt ∧ replicas m' = ∅ ∧ keys m' = [] ∧ IsEmpty m' = true ∧
  ∀ key, Get key m' = Ret "".
Proof.
  intros Hreach Hrs Hrun. pose proof (reachable_inv _ _ Hreach) as Hinv.
  assert (replicas m' = ∅) as He.
  { destruct (Remove_fields _ _ _ _ _ (ri_cache_ok _ Hinv) Hrun) as (_ & _ & -> & _).
    by rewrite Hrs, delete_singleton_eq. }
  unfold Remove in Hrun. rewrite Hrs, lookup_singleton_eq in Hrun.
  match type of Hrun with adjust _ _ _ ?m0 = _ =>
    destruct (adjust_adjusted rg 5 0.75%float m0 o m') as [_ Hplain];
      [| done | done |] end.
  { intros k hs Hk. simpl in Hk. apply lookup_delete_Some in Hk as [_ Hk].
    by apply (ri_cache_ok _ Hinv k). }
  destruct Hplain as [Ho Hm'].
  { right. simpl. rewrite delete_singleton_eq, map_size_empty. lia. }
  simpl in Hm'. rewrite delete_singleton_eq in Hm'.
  assert (keys m' = []) as Hk.
  { rewrite Hm'. apply calc_empty. intros k hs Hk. simpl in Hk.
    apply lookup_delete_Some in Hk as [_ Hk]. by apply (ri_cache_ok _ Hinv k). }
  repeat split; try done.
  - unfold IsEmpty. by rewrite He, map_size_empty.
  - intros key. by apply Get_empty.
Qed.

Lemma Remove_last_node_witness :
  (Remove map_order "a" (Add map_order ["a"] (New 3 None)).2).1 = Ret tt ∧
  replicas (Remove map_order "a" (Add map_order ["a"] (New 3 None)).2).2 = ∅ ∧
  keys (Remove map_order "a" (Add map_order ["a"] (New 3 None)).2).2 = [] ∧
  IsEmpty (Remove map_order "a" (Add map_order ["a"] (New 3 None)).2).2 = true ∧
  ∀ key, Get key (Remove map_order "a" (Add map_order ["a"] (New 3 None)).2).2 = Ret "".
Proof.
  apply (Remove_last_node map_order (Add map_order ["a"] (New 3 None)).2 "a" 3).
  - apply (reach_exec map_order (OpAdd ["a"]) (New 3 None)
             (Add map_order ["a"] (New 3 None)).1).
    + apply reach_New.
    + apply surjective_pairing.
  - vm_compute. reflexivity.
  - apply surjective_pairing.
Defined.

(** ** The nodes that have a cache *)

Lemma calc_node_hashs_dom m kr :
  dom (hashs (calc_node m kr)) = {[kr.1]} ∪ dom (hashs m).
Proof.
  destruct kr as [k r]. unfold calc_node.
  destruct (foldl _ _ _) as [[hs ks] hm]. simpl. by rewrite dom_insert_L.
Qed.

Lemma calc_nodes_hashs_dom l m0 k :
  k ∈ dom (hashs (foldl calc_node m0 l)) → k ∈ dom (hashs m0) ∨ k ∈ l.*1.
Proof.
  revert m0. induction l as [|kr l IH]; intros m0 Hk; simpl in *; [by left |].
  apply IH in Hk as [Hk|Hk]; [|right; by right].
  rewrite calc_node_hashs_dom in Hk.
  apply elem_of_union in Hk as [->%elem_of_singleton|Hk]; [right; by left | by left].
Qed.

Lemma calc_hashs_dom rg reps m :
  dom (hashs (calc rg reps m)) ⊆ dom (hashs m) ∪ dom reps.
Proof.
  intros k Hk. unfold calc in Hk. simpl in Hk.
  apply calc_nodes_hashs_dom in Hk as [Hk|Hk]; [by apply elem_of_union_l |].
  apply elem_of_union_r. apply list_elem_of_fmap in Hk as ([k' r] & -> & Hin).
  rewrite (visit_perm rg (ranges m) reps) in Hin.
  apply elem_of_map_to_list in Hin. apply elem_of_dom. by exists r.
Qed.

Lemma adjust_loop_hashs_dom rg tries scale total reps m o m' :
  cache_ok m → built m reps → dom reps ⊆ dom (replicas m) →
  dom (hashs m) ⊆ dom (replicas m) →
  adjust_loop rg tries scale total reps m = (o, m') →
  dom (hashs m') ⊆ dom (replicas m').
Proof.
  revert reps m. induction tries as [|t IH]; intros reps m Hok Hb Hd Hc Hrun;
    simpl in Hrun.
  - by injection Hrun as <- <-.
  - destruct (keys m) as [|k0 rest] eqn:Hk; [by injection Hrun as <- <- |].
    pose proof (adjust_pass_dom scale m total reps k0 rest Hb Hk) as Hd'.
    destruct (adjust_pass scale m total reps k0 rest) as [reps' changed].
    destruct changed; [|by injection Hrun as <- <-].
    simpl in Hd'. apply IH in Hrun; [done | by apply calc_cache_ok | by apply calc_built | |].
    + rewrite calc_replicas by done. by etrans.
    + rewrite calc_replicas by done.
      etrans; [apply calc_hashs_dom |]. apply union_least; [done | by etrans].
Qed.

Lemma adjust_hashs_dom rg tries scale m o m' :
  cache_ok m → keys m = [] → dom (hashs m) ⊆ dom (replicas m) →
  adjust rg tries scale m = (o, m') →
  dom (hashs m') ⊆ dom (replicas m').
Proof.
  intros Hok Hk Hc Hrun. unfold adjust in Hrun. rewrite Hk in Hrun.
  cbn [length Nat.eqb negb] in Hrun.
  rewrite !calc_replicas, calc_replica in Hrun by done.
  assert (dom (hashs (calc rg (replicas m) m)) ⊆
          dom (replicas (calc rg (replicas m) m))) as Hc1.
  { rewrite calc_replicas by done.
    etrans; [apply calc_hashs_dom |]. by apply union_least. }
  destruct ((size (replicas m) <=? 1)%nat || (replica m <? 10));
    [by injection Hrun as <- <- |].
  eapply adjust_loop_hashs_dom; [| | | |exact Hrun].
  - by apply calc_cache_ok.
  - by apply calc_built.
  - by rewrite calc_replicas.
  - done.
Qed.

Lemma AddWithWeight_hashs_dom rg key w m o m' :
  ring_inv m → dom (hashs m) ⊆ dom (replicas m) →
  AddWithWeight rg key w m = (o, m') → dom (hashs m') ⊆ dom (replicas m').
Proof.
  intros Hinv Hc Hrun. unfold AddWithWeight in Hrun.
  destruct (w <? 1); [by injection Hrun as <- <- |].
  case_bool_decide; [by injection Hrun as <- <- |].
  eapply adjust_hashs_dom; [| | |exact Hrun]; simpl.
  - apply (ri_cache_ok _ Hinv).
  - done.
  - rewrite dom_insert_L. etrans; [done | apply union_subseteq_r].
Qed.

Lemma Add_hashs_dom rg ks m o m' :
  ring_inv m → dom (hashs m) ⊆ dom (replicas m) →
  Add rg ks m = (o, m') → dom (hashs m') ⊆ dom (replicas m').
Proof.
  revert m. induction ks as [|key ks IH]; intros m Hinv Hc Hrun; simpl in Hrun.
  - by injection Hrun as <- <-.
  - destruct (AddWithWeight rg key (replica m) m) as [[[]|msg] m1] eqn:E.
    + eapply IH; [| |done].
      * by eapply AddWithWeight_inv.
      * by eapply AddWithWeight_hashs_dom.
    + injection Hrun as <- <-. by eapply AddWithWeight_hashs_dom.
Qed.

Lemma Remove_hashs_dom rg key m o m' :
  ring_inv m → dom (hashs m) ⊆ dom (replicas m) →
  Remove rg key m = (o, m') → dom (hashs m') ⊆ dom (replicas m').
Proof.
  intros Hinv Hc Hrun. unfold Remove in Hrun.
  destruct (replicas m !! key) as [r|] eqn:E; [|by injection Hrun as <- <-].
  eapply adjust_hashs_dom; [| | |exact Hrun]; simpl.
  - intros k hs Hk. simpl in Hk. apply lookup_delete_Some in Hk as [_ Hk].
    by apply (ri_cache_ok _ Hinv k).
  - done.
  - rewrite !dom_delete_L. intros k [Hk Hne]%elem_of_difference.
    apply elem_of_difference. split; [by apply Hc | done].
Qed.

Lemma reachable_hashs_dom rg m : reachable rg m → dom (hashs m) ⊆ dom (replicas m).
Proof.
  induction 1 as [|o m out m' Hreach IH Hrun]; [done |].
  pose proof (reachable_inv _ _ Hreach) as Hinv.
  destruct o; simpl in Hrun;
    eauto using Add_hashs_dom, AddWithWeight_hashs_dom, Remove_hashs_dom.
Qed.

(** X8. On a ring reached by any calls the hash cache has an entry
    exactly for the registered nodes ([Remove] discards the node's
    entry); entry [i] of a node's cache is its position
    [uint32(hash(Itoa(i) + node))], the node's weight is at least 1 and
    the cache is at least as long as the weight. *)
Theorem cache_tracks_membership (rg : RangeOrder) (m : Map) :
  reachable rg m →
  dom (hashs m) = dom (replicas m) ∧
  ∀ k hs, hashs m !! k = Some hs →
    cache_valid (hash m) k hs ∧
    ∃ r, replicas m !! k = Some r ∧ 1 ≤ r ∧ (Z.to_nat r ≤ length hs)%nat.
Proof.
  intros Hreach. pose proof (reachable_inv _ _ Hreach) as Hinv.
  pose proof (reachable_hashs_dom _ _ Hreach) as Hsub.
  pose proof (reachable_covered _ _ Hreach) as Hcov.
  split.
  - apply set_eq. intros k. split; [apply Hsub |].
    intros [r Hr]%elem_of_dom. destruct (Hcov k r Hr) as (hs & Hhs & _).
    apply elem_of_dom. by exists hs.
  - intros k hs Hhs. split; [by apply (ri_cache_ok _ Hinv) |].
    assert (k ∈ dom (replicas m)) as [r Hr]%elem_of_dom.
    { apply Hsub, elem_of_dom. by exists hs. }
    exists r. split; [done |]. split; [by apply (ri_weights _ Hinv k) |].
    destruct (Hcov k r Hr) as (hs' & Hhs' & Hlen). congruence.
Qed.

Lemma cache_tracks_membership_witness :
  dom (hashs (scenario8 map_order)) = dom (replicas (scenario8 map_order)) ∧
  ∀ k hs, hashs (scenario8 map_order) !! k = Some hs →
    cache_valid (hash (scenario8 map_order)) k hs ∧
    ∃ r, replicas (scenario8 map_order) !! k = Some r ∧ 1 ≤ r ∧
         (Z.to_nat r ≤ length hs)%nat.
Proof. apply (cache_tracks_membership map_order), scenario8_reachable. Defined.

(** X9. After [Remove(node)], whether it returned or panicked in the
    adjuster, the node is no longer registered, the weights of the
    others are as they were, the node has no cache entry, and [Get]
    never returns the node (unless the node is the empty string, which
    [Get] returns on an empty ring); removing a node that is not
    registered changes nothing. *)
Theorem Remove_unregisters (rg : RangeOrder) (m : Map) (node : string)
    (o : outcome unit) (m' : Map) :
  reachable rg m → Remove rg node m = (o, m') →
  replicas m' = delete node (replicas m) ∧
  hashs m' !! node = None ∧
  (node ≠ "" → ∀ key, Get key m' ≠ Ret node) ∧
  (replicas m !! node = None → o = Ret tt ∧ m' = m).
Proof.
  intros Hreach Hrun. pose proof (reachable_inv _ _ Hreach) as Hinv.
  assert (reachable rg m') as Hreach' by (by apply (reach_exec rg (OpRemove node) m o)).
  pose proof (reachable_inv _ _ Hreach') as Hinv'.
  destruct (Remove_fields _ _ _ _ _ (ri_cache_ok _ Hinv) Hrun) as (_ & _ & Hrs & _).
  split; [done |]. split; [|split].
  - apply not_elem_of_dom. intros Hin%(reachable_hashs_dom rg m' Hreach').
    rewrite Hrs, dom_delete_L in Hin. apply elem_of_difference in Hin as [_ Hin].
    apply Hin. by apply elem_of_singleton.
  - intros Hne key Hget.
    destruct (Get_cases_inv m' key Hinv') as [[_ H]|[(_ & _ & H)|(s & _ & Hs & H)]];
      rewrite Hget in H; try done.
    + injection H as ->. done.
    + injection H as ->. rewrite Hrs, lookup_delete_eq in Hs. by destruct Hs.
  - intros Habs. unfold Remove in Hrun. rewrite Habs in Hrun.
    by injection Hrun as <- <-.
Qed.

Lemma Remove_unregisters_witness :
  replicas (Remove map_order "8" (scenario8 map_order)).2 =
    delete "8" (replicas (scenario8 map_order)) ∧
  hashs (Remove map_order "8" (scenario8 map_order)).2 !! "8" = None ∧
  ("8" ≠ "" → ∀ key, Get key (Remove map_order "8" (scenario8 map_order)).2 ≠ Ret "8") ∧
  (replicas (scenario8 map_order) !! "8" = None →
     (Remove map_order "8" (scenario8 map_order)).1 = Ret tt ∧
     (Remove map_order "8" (scenario8 map_order)).2 = scenario8 map_order).
Proof.
  apply (Remove_unregisters map_order (scenario8 map_order) "8").
  - apply scenario8_reachable.
  - apply surjective_pairing.
Defined.

(** ** What the mutators register *)

Lemma insert_all_lookup (v : Z) (ks : list string) (w : gmap string Z) k :
  foldl (λ w key, <[key := v]> w) w ks !! k =
    if bool_decide (k ∈ ks) then Some v else w !! k.
Proof.
  revert w. induction ks as [|key ks IH]; intros w; cbn [foldl].
  - rewrite bool_decide_eq_false_2; [done | apply not_elem_of_nil].
  - rewrite IH. destruct (decide (k ∈ ks)) as [Hin|Hin].
    + rewrite !bool_decide_eq_true_2; [done | by right | done].
    + rewrite (bool_decide_eq_false_2 (k ∈ ks)) by done.
      destruct (decide (k = key)) as [->|Hne].
      * rewrite lookup_insert_eq, bool_decide_eq_true_2; [done | by left].
      * rewrite lookup_insert_ne by done.
        rewrite bool_decide_eq_false_2; [done |].
        intros [?|?]%elem_of_cons; done.
Qed.

(** X10. [AddWithWeight] is idempotent: after a call with a valid
    weight, whatever its outcome, the same call again returns at once
    and leaves the state as it is (the ring is not rebuilt). *)
Theorem AddWithWeight_again (rg : RangeOrder) (m : Map) (node : string) (w : Z)
    (o : outcome unit) (m1 : Map) :
  reachable rg m → 1 ≤ w → AddWithWeight rg node w m = (o, m1) →
  AddWithWeight rg node w m1 = (Ret tt, m1).
Proof.
  intros Hreach Hw Hrun. pose proof (reachable_inv _ _ Hreach) as Hinv.
  destruct (AddWithWeight_fields _ _ _ _ _ _ (ri_cache_ok _ Hinv) Hrun)
    as (_ & _ & _ & Hrs & _).
  unfold AddWithWeight. destruct (Z.ltb_spec w 1) as [?|_]; [lia |].
  rewrite (Hrs Hw), lookup_insert_eq. simpl. by rewrite bool_decide_eq_true_2.
Qed.

Lemma AddWithWeight_again_witness :
  AddWithWeight map_order "4" 5 (AddWithWeight map_order "4" 5 (scenario map_order)).2 =
    (Ret tt, (AddWithWeight map_order "4" 5 (scenario map_order)).2).
Proof.
  apply (AddWithWeight_again map_order (scenario map_order) "4" 5
           (AddWithWeight map_order "4" 5 (scenario map_order)).1).
  - apply scenario_reachable.
  - lia.
  - apply surjective_pairing.
Defined.

(** X11. [Add] on a ring with a default replica count of at least 1:
    when it returns, exactly the listed nodes have been given the
    default weight and the weights of the others are as they were; it
    always returns when the default count is below 10. *)
Theorem Add_registers (rg : RangeOrder) (m : Map) (ks : list string)
    (o : outcome unit) (m' : Map) :
  reachable rg m → 1 ≤ replica m → Add rg ks m = (o, m') →
  (replica m < 10 → o = Ret tt) ∧
  (o = Ret tt →
     ∀ k, replicas m' !! k =
            if bool_decide (k ∈ ks) then Some (replica m) else replicas m !! k).
Proof.
  intros Hreach Hr Hrun. pose proof (reachable_inv _ _ Hreach) as Hinv.
  destruct (Add_fields _ _ _ _ _ (ri_cache_ok _ Hinv) Hr Hrun) as (_ & _ & Hrs & Hret).
  split; [done |]. intros Ho k. rewrite (Hrs Ho). apply insert_all_lookup.
Qed.

Lemma Add_registers_witness :
  (replica (scenario map_order) < 10 → (Add map_order ["8"; "9"] (scenario map_order)).1 = Ret tt) ∧
  ((Add map_order ["8"; "9"] (scenario map_order)).1 = Ret tt →
     ∀ k, replicas (Add map_order ["8"; "9"] (scenario map_order)).2 !! k =
            if bool_decide (k ∈ ["8"; "9"]) then Some (replica (scenario map_order))
            else replicas (scenario map_order) !! k).
Proof.
  apply (Add_registers map_order (scenario map_order) ["8"; "9"]).
  - apply scenario_reachable.
  - rewrite (proj1 (proj2 (scenario_fields _))). lia.
  - apply surjective_pairing.
Defined.

(** X12. On a ring constructed with a default replica count below 1,
    [Add] of any node panics with "replica should be positive" at the
    first node and registers nothing. *)
Theorem Add_needs_positive_default (rg : RangeOrder) (m : Map) (ks : list string) :
  replica m < 1 → ks ≠ [] →
  Add rg ks m = (Panic "replica should be positive", m).
Proof.
  intros Hr Hks. destruct ks as [|key ks]; [done |]. simpl.
  by rewrite AddWithWeight_invalid.
Qed.

Lemma Add_needs_positive_default_witness :
  Add map_order ["a"; "b"] (New 0 None) =
    (Panic "replica should be positive", New 0 None).
Proof.
  apply (Add_needs_positive_default map_order (New 0 None) ["a"; "b"]).
  - simpl. lia.
  - discriminate.
Defined.

(** ** Rings on which the adjuster is skipped *)

Lemma ring_list_length h (l : list (string * Z)) :
  (∀ kr, kr ∈ l → 0 ≤ kr.2) →
  Z.of_nat (length (ring_list h l)) = foldr (λ kr acc, kr.2 + acc) 0 l.
Proof.
  induction l as [|kr l IH]; intros Hpos; [done |].
  unfold ring_list in *. cbn [mbind list_bind foldr]. rewrite length_app.
  unfold positions_of at 1. rewrite length_fmap, length_seq.
  rewrite Nat2Z.inj_add, IH.
  - rewrite Z2Nat.id; [done |]. apply Hpos. by left.
  - intros kr' Hin. apply Hpos. by right.
Qed.

(** X13. Where the adjuster is skipped (default replica count below 10,
    or at most one node), the ring of a reachable state is determined by
    the registered weights alone: it is the sorted list of the positions
    [uint32(hash(Itoa(i) + node))] for every registered node and every
    [i] below its weight; it has as many positions as the weights add up
    to; and it is empty exactly when no node is registered. *)
Theorem unadjusted_ring (rg : RangeOrder) (m : Map) :
  reachable rg m → replica m < 10 ∨ (size (replicas m) ≤ 1)%nat →
  keys m = ring_keys (hash m) (replicas m) ∧
  Z.of_nat (length (keys m)) = positions_total (replicas m) ∧
  (keys m = [] ↔ replicas m = ∅).
Proof.
  intros Hreach Hskip. pose proof (reachable_inv _ _ Hreach) as Hinv.
  pose proof (ri_plain _ Hinv Hskip) as Hb.
  split; [by apply built_keys_eq |]. split.
  - rewrite (bt_keys _ _ Hb). apply ring_list_length.
    intros [k r] Hin. apply elem_of_map_to_list in Hin. simpl.
    pose proof (ri_weights _ Hinv k r Hin). lia.
  - split.
    + intros Hk. destruct (decide (replicas m = ∅)) as [|Hne]; [done |].
      destruct (map_choose _ Hne) as (k & r & Hkr).
      by destruct (built_nonempty m _ k r Hb Hkr (ri_weights _ Hinv k r Hkr)).
    + intros He. destruct (keys m) as [|p ks] eqn:E; [done |].
      destruct (ring_nonempty_registered m Hinv); [by rewrite E | done].
Qed.

Lemma unadjusted_ring_witness :
  keys (scenario map_order) =
    ring_keys (hash (scenario map_order)) (replicas (scenario map_order)) ∧
  Z.of_nat (length (keys (scenario map_order))) =
    positions_total (replicas (scenario map_order)) ∧
  (keys (scenario map_order) = [] ↔ replicas (scenario map_order) = ∅).
Proof.
  apply (unadjusted_ring map_order).
  - apply scenario_reachable.
  - left. rewrite (proj1 (proj2 (scenario_fields _))). lia.
Defined.

(** X14. On a ring with default replica count below 10, a sequence of
    calls with valid weights ([AddWithWeight] with a weight of at least
    1, [Add] when the default count is at least 1, any [Remove]) returns
    without a panic, and on the ring it leaves [Get] returns for every
    key: a registered node, or the empty string when no node is
    registered. *)
Theorem calls_return_without_adjuster (rg : RangeOrder) (ops : list op) (m : Map) :
  reachable rg m → replica m < 10 →
  forallb (valid_op (replica m)) ops = true →
  (run rg ops m).1 = Ret tt ∧
  ∀ key, ∃ s, Get key (run rg ops m).2 = Ret s ∧
    (s = "" ∧ replicas (run rg ops m).2 = ∅ ∨
     is_Some (replicas (run rg ops m).2 !! s)).
Proof.
  intros Hreach Hskip Hvalid.
  assert ((run rg ops m).1 = Ret tt ∧ replica (run rg ops m).2 = replica m) as [Hret Hr].
  { assert (ring_inv m → (run rg ops m).1 = Ret tt ∧
            replica (run rg ops m).2 = replica m) as Hgen;
      [|by apply Hgen, (reachable_inv rg)].
    clear Hreach. revert m Hskip Hvalid. induction ops as [|o ops IH]; intros m Hskip Hvalid Hinv;
      [done |].
    cbn [forallb] in Hvalid. apply andb_true_iff in Hvalid as [Hv Hvalid].
    cbn [run]. destruct (exec rg o m) as [out m1] eqn:E.
    pose proof (exec_inv _ _ _ _ _ Hinv E) as Hinv1.
    destruct (exec_config _ _ _ _ _ Hinv E) as [_ Hr1].
    assert (out = Ret tt) as ->.
    { destruct o as [ks|key w|key]; simpl in E, Hv.
      - apply orb_true_iff in Hv as [Hv|Hv].
        + apply Z.leb_le in Hv.
          by destruct (Add_fields _ _ _ _ _ (ri_cache_ok _ Hinv) Hv E) as (_ & _ & _ & ->).
        + apply bool_decide_eq_true in Hv as ->. simpl in E. by injection E as <- <-.
      - apply Z.leb_le in Hv.
        by destruct (AddWithWeight_fields _ _ _ _ _ _ (ri_cache_ok _ Hinv) E)
          as (_ & _ & _ & _ & _ & ->).
      - by destruct (Remove_fields _ _ _ _ _ (ri_cache_ok _ Hinv) E) as (_ & _ & _ & ->). }
    destruct (IH m1) as [Hret Hr]; [by rewrite Hr1 | by rewrite Hr1 | done |].
    split; [done | by rewrite Hr, Hr1]. }
  split; [done |]. intros key.
  assert (reachable rg (run rg ops m).2) as Hreach'.
  { eapply run_reachable; [done | apply surjective_pairing]. }
  pose proof (reachable_inv _ _ Hreach') as Hinv'.
  destruct (Get_cases_inv (run rg ops m).2 key Hinv')
    as [[He H]|[(Hne & Hk & _)|(s & _ & Hs & H)]].
  - exists "". split; [done | by left].
  - assert (built (run rg ops m).2 (replicas (run rg ops m).2)) as Hb.
    { apply ri_plain; [done | left; by rewrite Hr]. }
    destruct (map_choose _ Hne) as (k & r & Hkr).
    by destruct (built_nonempty _ _ k r Hb Hkr (ri_weights _ Hinv' k r Hkr)).
  - exists s. split; [done | by right].
Qed.

Lemma calls_return_without_adjuster_witness :
  (run map_order [OpAdd ["8"]; OpRemove "4"; OpAddWithWeight "6" 7] (scenario map_order)).1
    = Ret tt ∧
  ∀ key, ∃ s,
    Get key (run map_order [OpAdd ["8"]; OpRemove "4"; OpAddWithWeight "6" 7]
               (scenario map_order)).2 = Ret s ∧
    (s = "" ∧
     replicas (run map_order [OpAdd ["8"]; OpRemove "4"; OpAddWithWeight "6" 7]
                 (scenario map_order)).2 = ∅ ∨
     is_Some (replicas (run map_order [OpAdd ["8"]; OpRemove "4"; OpAddWithWeight "6" 7]
                          (scenario map_order)).2 !! s)).
Proof.
  apply (calls_return_without_adjuster map_order
           [OpAdd ["8"]; OpRemove "4"; OpAddWithWeight "6" 7] (scenario map_order)).
  - apply scenario_reachable.
  - rewrite (proj1 (proj2 (scenario_fields _))). lia.
  - rewrite (proj1 (proj2 (scenario_fields _))). reflexivity.
Defined.

(** ** The shape of every ring *)

(** X15. On every reachable ring, adjusted or not, the positions are
    sorted, each lies in the range of [uint32], and the table records for
    each a registered node one of whose virtual positions
    [uint32(hash(Itoa(i) + node))] it is. *)
Theorem ring_well_formed (rg : RangeOrder) (m : Map) :
  reachable rg m →
  Sorted Z.le (keys m) ∧
  ∀ p, p ∈ keys m →
    0 ≤ p < 2 ^ 32 ∧
    ∃ k i, hashMap m !! p = Some k ∧ is_Some (replicas m !! k) ∧
           p = position (hash m) i k.
Proof.
  intros Hreach. pose proof (reachable_inv _ _ Hreach) as Hinv.
  destruct (ri_built _ Hinv) as (reps & Hb & Hd).
  split; [apply (bt_sorted _ _ Hb) |]. intros p Hp.
  destruct (bt_owner _ _ Hb p Hp) as (k & r & Hk & Hpos & Hm).
  apply elem_of_positions_of in Hpos as (i & _ & Hi). cbn [fst snd] in Hi.
  split.
  - rewrite Hi. unfold position, uint32. apply Z.mod_pos_bound. lia.
  - exists k, i. repeat split; [done | | done].
    apply elem_of_dom, Hd, elem_of_dom. by exists r.
Qed.

Lemma ring_well_formed_witness :
  Sorted Z.le (keys skewed) ∧
  ∀ p, p ∈ keys skewed →
    0 ≤ p < 2 ^ 32 ∧
    ∃ k i, hashMap skewed !! p = Some k ∧ is_Some (replicas skewed !! k) ∧
           p = position (hash skewed) i k.
Proof. apply (ring_well_formed map_order), skewed_reachable. Defined.

(** ** Rings of the same membership *)

(** Two reachable rings with the same hash function, default replica
    count and weights serve every key alike, when no position is cached
    for two nodes of the first. *)
Lemma same_membership_same_owner rg1 rg2 m1 m2 key :
  reachable rg1 m1 → reachable rg2 m2 →
  hash m1 = hash m2 → replica m1 = replica m2 → replicas m1 = replicas m2 →
  cache_disjoint (hashs m1) →
  Get key m1 = Get key m2.
Proof.
  intros Hr1 Hr2 Hh Hr Hrs Hdis.
  destruct (reachable_fresh rg1 m1 Hr1) as [He1|(a & oa & Ha & Hka & Hha & Hra & Hrsa & Hruna)].
  { rewrite !Get_empty; [done | by rewrite <- Hrs | done]. }
  destruct (reachable_fresh rg2 m2 Hr2) as [He2|(b & ob & Hb & Hkb & Hhb & Hrb & Hrsb & Hrunb)].
  { rewrite !Get_empty; [done | done | by rewrite Hrs]. }
  apply Get_ring_eq; [done | done |].
  destruct (adjust_sim rg1 rg2 5 0.75%float a b oa m1 ob m2) as (_ & Heq & _);
    try done; congruence.
Qed.

(** X16. Registering a node that was not registered and removing it
    again restores the weights, and every key is served as before,
    whether or not the adjuster runs and whatever the outcomes of the
    two calls, provided no position was cached for two nodes before. *)
Theorem AddWithWeight_Remove_restores (rg : RangeOrder) (m : Map) (node : string)
    (w : Z) (o1 : outcome unit) (m1 : Map) (o2 : outcome unit) (m2 : Map)
    (key : string) :
  reachable rg m → replicas m !! node = None → 1 ≤ w →
  AddWithWeight rg node w m = (o1, m1) → Remove rg node m1 = (o2, m2) →
  cache_disjoint (hashs m) →
  replicas m2 = replicas m ∧ Get key m2 = Get key m.
Proof.
  intros Hreach Hnew Hw Hadd Hrem Hdis.
  pose proof (reachable_inv _ _ Hreach) as Hinv.
  assert (reachable rg m1) as Hreach1
    by (by apply (reach_exec rg (OpAddWithWeight node w) m o1)).
  assert (reachable rg m2) as Hreach2
    by (by apply (reach_exec rg (OpRemove node) m1 o2)).
  pose proof (reachable_inv _ _ Hreach1) as Hinv1.
  destruct (AddWithWeight_fields _ _ _ _ _ _ (ri_cache_ok _ Hinv) Hadd)
    as (Hh1 & Hr1 & _ & Hrs1 & _).
  destruct (Remove_fields _ _ _ _ _ (ri_cache_ok _ Hinv1) Hrem)
    as (Hh2 & Hr2 & Hrs2 & _).
  assert (replicas m2 = replicas m) as Hrs.
  { rewrite Hrs2, (Hrs1 Hw). by apply delete_insert_id. }
  split; [done |]. symmetry.
  apply (same_membership_same_owner rg rg); try done; congruence.
Qed.

Lemma AddWithWeight_Remove_restores_witness :
  replicas (Remove map_order "3" (AddWithWeight map_order "3" 2 skewed).2).2 =
    replicas skewed ∧
  Get "7" (Remove map_order "3" (AddWithWeight map_order "3" 2 skewed).2).2 =
    Get "7" skewed.
Proof.
  apply (AddWithWeight_Remove_restores map_order skewed "3" 2
           (AddWithWeight map_order "3" 2 skewed).1
           (AddWithWeight map_order "3" 2 skewed).2
           (Remove map_order "3" (AddWithWeight map_order "3" 2 skewed).2).1).
  - apply skewed_reachable.
  - vm_compute. reflexivity.
  - lia.
  - apply surjective_pairing.
  - apply surjective_pairing.
  - apply cache_disjointb_spec. vm_compute. reflexivity.
Defined.

(** A call that is known to return. *)
Lemma pair_of_fst {A B} (p : A * B) (a : A) : p.1 = a → p = (a, p.2).
Proof. destruct p. simpl. by intros ->. Qed.

(** X17. The order of the nodes in [Add] does not matter: two new rings
    with the same hash function and default replica count, to which the
    same nodes are added in different orders (and whose maps are visited
    in different orders), register the same weights and serve every key
    alike, provided no position is cached for two nodes of the first.
    This is what [TestConsistency] checks for three nodes. *)
Theorem Add_order_irrelevant (rg1 rg2 : RangeOrder) (r : Z)
    (fn : option (string → Z)) (ks1 ks2 : list string) (m1 m2 : Map)
    (key : string) :
  ks1 ≡ₚ ks2 → 1 ≤ r →
  Add rg1 ks1 (New r fn) = (Ret tt, m1) → Add rg2 ks2 (New r fn) = (Ret tt, m2) →
  cache_disjoint (hashs m1) →
  replicas m1 = replicas m2 ∧ Get key m1 = Get key m2.
Proof.
  intros Hperm Hr Hadd1 Hadd2 Hdis.
  pose proof (New_inv r fn) as Hinv.
  assert (reachable rg1 m1) as Hreach1
    by (apply (reach_exec rg1 (OpAdd ks1) (New r fn) (Ret tt)); [apply reach_New | done]).
  assert (reachable rg2 m2) as Hreach2
    by (apply (reach_exec rg2 (OpAdd ks2) (New r fn) (Ret tt)); [apply reach_New | done]).
  destruct (Add_fields _ _ _ _ _ (ri_cache_ok _ Hinv) Hr Hadd1) as (Hh1 & Hr1 & Hrs1 & _).
  destruct (Add_fields _ _ _ _ _ (ri_cache_ok _ Hinv) Hr Hadd2) as (Hh2 & Hr2 & Hrs2 & _).
  assert (replicas m1 = replicas m2) as Hrs.
  { rewrite Hrs1, Hrs2 by done. apply map_eq. intros k.
    rewrite !insert_all_lookup. destruct (decide (k ∈ ks1)) as [Hin|Hin].
    - rewrite !bool_decide_eq_true_2; [done | by rewrite <- Hperm | done].
    - rewrite !bool_decide_eq_false_2; [done | by rewrite <- Hperm | done]. }
  split; [done |].
  apply (same_membership_same_owner rg1 rg2); try done; congruence.
Qed.

Lemma Add_order_irrelevant_witness :
  replicas (Add map_order ["Bill"; "Bob"; "Bonny"] (New 1 None)).2 =
    replicas (Add reverse_order ["Bob"; "Bonny"; "Bill"] (New 1 None)).2 ∧
  Get "Ben" (Add map_order ["Bill"; "Bob"; "Bonny"] (New 1 None)).2 =
    Get "Ben" (Add reverse_order ["Bob"; "Bonny"; "Bill"] (New 1 None)).2.
Proof.
  apply (Add_order_irrelevant map_order reverse_order 1 None
           ["Bill"; "Bob"; "Bonny"] ["Bob"; "Bonny"; "Bill"]).
  - apply (Permutation_cons_append ["Bob"; "Bonny"] "Bill").
  - lia.
  - apply (pair_of_fst (Add map_order ["Bill"; "Bob"; "Bonny"] (New 1 None)) (Ret tt)).
    vm_compute. reflexivity.
  - apply (pair_of_fst (Add reverse_order ["Bob"; "Bonny"; "Bill"] (New 1 None)) (Ret tt)).
    vm_compute. reflexivity.
  - apply cache_disjointb_spec. vm_compute. reflexivity.
Defined.

(** * The earlier version *)

(** ** What [calc] builds *)

Lemma V1_place_fold h key n ks hm :
  foldl (V1.place h key) (ks, hm) (seq 0 n) =
    (ks ++ ((λ i, position h i key) <$> seq 0 n),
     write_all key hm ((λ i, position h i key) <$> seq 0 n)).
Proof.
  induction n as [|n IH].
  - simpl. by rewrite app_nil_r.
  - rewrite seq_S, foldl_app, IH, fmap_app. cbn [fmap list_fmap foldl Nat.add].
    unfold V1.place. cbn [fst snd]. by rewrite write_all_snoc, <- (assoc_L (++)).
Qed.

Lemma V1_calc_node_eq h st kr :
  V1.calc_node h st kr =
    (st.1 ++ positions_of h kr, write_all kr.1 st.2 (positions_of h kr)).
Proof. destruct st as [ks hm]. unfold V1.calc_node. by rewrite V1_place_fold. Qed.

(** The outer loop: the ring grows by the positions of the entries, and
    the table maps each of them to an entry that it belongs to. *)
Lemma V1_calc_nodes h l ks hm :
  (foldl (V1.calc_node h) (ks, hm) l).1 = ks ++ ring_list h l ∧
  (∀ p, p ∈ ring_list h l →
     ∃ kr, kr ∈ l ∧ p ∈ positions_of h kr ∧
           (foldl (V1.calc_node h) (ks, hm) l).2 !! p = Some kr.1) ∧
  (∀ p, p ∉ ring_list h l → (foldl (V1.calc_node h) (ks, hm) l).2 !! p = hm !! p).
Proof.
  induction l as [|kr l IH] using rev_ind.
  - unfold ring_list. simpl. rewrite app_nil_r. split; [done |]. split; [|done].
    intros p Hp. by apply elem_of_nil in Hp.
  - destruct IH as (Hk & Ho & Hn). rewrite foldl_app. cbn [foldl].
    rewrite V1_calc_node_eq, ring_list_snoc. cbn [fst snd]. split; [|split].
    + by rewrite Hk, (assoc_L (++)).
    + intros p Hp. rewrite write_all_lookup. case_bool_decide as Hin.
      * exists kr. split; [|done]. apply elem_of_app. right. by left.
      * apply elem_of_app in Hp as [Hp|Hp]; [|done].
        destruct (Ho p Hp) as (kr' & Hkr' & Hpos & Hm). exists kr'.
        split; [|done]. apply elem_of_app. by left.
    + intros p Hp. rewrite write_all_lookup.
      rewrite bool_decide_eq_false_2.
      * apply Hn. intros Hin. apply Hp, elem_of_app. by left.
      * intros Hin. apply Hp, elem_of_app. by right.
Qed.

Lemma V1_calc_built rg reps m : V1.built (V1.calc rg reps m) reps.
Proof.
  destruct (V1_calc_nodes (V1.hash m) (visit rg (V1.ranges m) reps) [] ∅)
    as (Hk & Ho & _).
  assert (merge_sort Z.le
            (foldl (V1.calc_node (V1.hash m)) ([], ∅) (visit rg (V1.ranges m) reps)).1
          ≡ₚ ring_list (V1.hash m) (map_to_list reps)) as Hperm.
  { rewrite merge_sort_Permutation, Hk. simpl.
    apply ring_list_perm, visit_perm. }
  split; unfold V1.calc; cbn [V1.keys V1.hash V1.hashMap].
  - apply (Sorted_merge_sort Z.le).
  - done.
  - intros p Hp. rewrite Hperm in Hp.
    assert (p ∈ ring_list (V1.hash m) (visit rg (V1.ranges m) reps)) as Hp'.
    { by rewrite (ring_list_perm _ _ _ (visit_perm rg (V1.ranges m) reps)). }
    destruct (Ho p Hp') as ([k r] & Hin & Hpos & Hm).
    exists k, r. split; [|done].
    rewrite (visit_perm rg (V1.ranges m) reps) in Hin.
    by apply elem_of_map_to_list in Hin.
Qed.

Lemma V1_built_elem_of m reps p :
  V1.built m reps →
  p ∈ V1.keys m ↔ ∃ k r, reps !! k = Some r ∧ p ∈ positions_of (V1.hash m) (k, r).
Proof.
  intros Hb. rewrite (V1.bt_keys _ _ Hb), elem_of_ring_list. split.
  - intros ([k r] & Hin & Hp). apply elem_of_map_to_list in Hin. eauto.
  - intros (k & r & Hk & Hp). exists (k, r). split; [|done].
    by apply elem_of_map_to_list.
Qed.

Lemma V1_built_nonempty m reps k r :
  V1.built m reps → reps !! k = Some r → 1 ≤ r → V1.keys m ≠ [].
Proof.
  intros Hb Hk Hr E.
  assert (position (V1.hash m) 0 k ∈ V1.keys m) as Hin.
  { apply (V1_built_elem_of m reps _ Hb). exists k, r. split; [done |].
    apply elem_of_positions_of. exists 0%nat. simpl. split; [lia | done]. }
  rewrite E in Hin. by apply elem_of_nil in Hin.
Qed.

Lemma V1_built_keys_eq m reps :
  V1.built m reps → V1.keys m = ring_keys (V1.hash m) reps.
Proof.
  intros Hb. apply (Sorted_unique Z.le).
  - apply (V1.bt_sorted _ _ Hb).
  - apply (Sorted_merge_sort Z.le).
  - unfold ring_keys. rewrite merge_sort_Permutation. apply (V1.bt_keys _ _ Hb).
Qed.

Lemma V1_built_owner m reps p :
  V1.built m reps → p ∈ V1.keys m →
  ∃ r, reps !! V1.owner m p = Some r ∧
       p ∈ positions_of (V1.hash m) (V1.owner m p, r).
Proof.
  intros Hb Hp. destruct (V1.bt_owner _ _ Hb p Hp) as (k & r & Hk & Hpos & Hm).
  unfold V1.owner. rewrite Hm. simpl. by exists r.
Qed.

(** ** The single adjustment pass *)

Lemma V1_arcs_dom m prev ks stat k :
  k ∈ dom (V1.arcs m prev ks stat) →
  k ∈ dom stat ∨ ∃ p, p ∈ ks ∧ k = V1.owner m p.
Proof.
  revert prev stat. induction ks as [|h ks IH]; intros prev stat Hk; simpl in Hk.
  - by left.
  - apply IH in Hk as [Hk|(p & Hp & ->)].
    + unfold V1.stat_add in Hk. rewrite dom_insert_L in Hk.
      apply elem_of_union in Hk as [->%elem_of_singleton|Hk]; [|by left].
      right. exists h. split; [by left | done].
    + right. exists p. split; [by right | done].
Qed.

Lemma V1_load_stat_dom m k0 rest k :
  k ∈ dom (V1.load_stat m k0 rest) → ∃ p, p ∈ k0 :: rest ∧ k = V1.owner m p.
Proof.
  unfold V1.load_stat. intros [Hk|(p & Hp & ->)]%V1_arcs_dom.
  - rewrite dom_singleton_L in Hk. apply elem_of_singleton in Hk as ->.
    exists k0. split; [by left | done].
  - exists p. split; [by right | done].
Qed.

Lemma V1_adjust_nodes_dom scale m total l reps k :
  k ∈ dom (foldl (V1.adjust_node scale m total) reps l) → k ∈ dom reps ∨ k ∈ l.*1.
Proof.
  revert reps. induction l as [|[k' v] l IH]; intros reps Hk; simpl in *.
  - by left.
  - apply IH in Hk as [Hk|Hk]; [|right; by right].
    unfold V1.adjust_node in Hk. simpl in Hk. rewrite dom_insert_L in Hk.
    apply elem_of_union in Hk as [->%elem_of_singleton|Hk]; [right; by left | by left].
Qed.

(** The loop over [stat] computes the same in whatever order the map is
    visited. *)
Lemma V1_adjust_order scale m total (stat : gmap string Z) (l : list (string * Z)) :
  l ≡ₚ map_to_list stat →
  foldl (V1.adjust_node scale m total) ∅ l =
    foldl (V1.adjust_node scale m total) ∅ (map_to_list stat).
Proof.
  intros Hl. apply foldl_distinct_keys_perm; [| done |].
  - intros reps x y Hxy. unfold V1.adjust_node. by apply insert_insert_ne.
  - rewrite Hl. apply NoDup_fst_map_to_list.
Qed.

(** ** What [init] leaves behind *)


Lemma V1_init_inv rg scale m o m1 :
  V1.ring_inv m → V1.init rg scale m = (o, m1) → V1.ring_inv m1.
Proof.
  intros Hinv Hrun. unfold V1.init in Hrun.
  destruct (V1.hashMap m) as [hm|] eqn:E; [by injection Hrun as <- <- |].
  pose proof (V1_calc_built rg (V1.replicas m) m) as Hb.
  assert (V1.ring_inv (V1.calc rg (V1.replicas m) m)) as Hinv1.
  { split; [apply (V1.ri_weights _ Hinv) | by eexists | done]. }
  change (V1.replicas (V1.calc rg (V1.replicas m) m)) with (V1.replicas m) in Hrun.
  change (V1.replica (V1.calc rg (V1.replicas m) m)) with (V1.replica m) in Hrun.
  destruct ((size (V1.replicas m) <=? 1)%nat || (V1.replica m <? 10)) eqn:Hskip;
    [by injection Hrun as <- <- |].
  apply orb_false_iff in Hskip as [Hs%Nat.leb_gt Hr%Z.ltb_ge].
  destruct (V1.keys (V1.calc rg (V1.replicas m) m)) as [|k0 rest] eqn:Hk;
    [by injection Hrun as <- <- |].
  injection Hrun as <- <-.
  match goal with |- V1.ring_inv (V1.calc rg ?reps ?m1) =>
    pose proof (V1_calc_built rg reps m1) as Hb2; set (reps' := reps) in * end.
  split.
  - apply (V1.ri_weights _ Hinv).
  - intros _. exists reps'. split; [done |].
    intros k Hin. apply V1_adjust_nodes_dom in Hin as [Hin|Hin];
      [by rewrite dom_empty_L in Hin |].
    apply list_elem_of_fmap in Hin as ([k' v] & -> & Hin). simpl.
    apply elem_of_map_to_list in Hin.
    assert (k' ∈ dom (V1.load_stat (V1.calc rg (V1.replicas m) m) k0 rest)) as Hd
      by (apply elem_of_dom; eauto).
    apply V1_load_stat_dom in Hd as (p & Hp & ->). rewrite <- Hk in Hp.
    destruct (V1_built_owner _ _ p Hb Hp) as (r & Hr' & _).
    apply elem_of_dom. by exists r.
  - intros _ [Hlt|Hle]; simpl in *; lia.
Qed.

Lemma V1_AddWithWeight_inv key w m :
  V1.ring_inv m → V1.ring_inv (V1.AddWithWeight key w m).2.
Proof.
  intros Hinv. unfold V1.AddWithWeight.
  destruct (Z.ltb_spec w 1) as [Hw|Hw]; [done |].
  case_bool_decide; [done |]. split; simpl.
  - intros k r Hk. apply lookup_insert_Some in Hk as [[-> <-]|[_ Hk]]; [done |].
    by apply (V1.ri_weights _ Hinv k).
  - by intros [? ?].
  - by intros [? ?].
Qed.

Lemma V1_Add_inv ks m : V1.ring_inv m → V1.ring_inv (V1.Add ks m).2.
Proof.
  revert m. induction ks as [|key ks IH]; intros m Hinv; simpl; [done |].
  pose proof (V1_AddWithWeight_inv key (V1.replica m) m Hinv) as H1.
  destruct (V1.AddWithWeight key (V1.replica m) m) as [[[]|msg] m1]; simpl in *.
  - by apply IH.
  - done.
Qed.

Lemma V1_Remove_inv key m : V1.ring_inv m → V1.ring_inv (V1.Remove key m).
Proof.
  intros Hinv. split; simpl.
  - intros k r Hk. apply lookup_delete_Some in Hk as [_ Hk].
    by apply (V1.ri_weights _ Hinv k).
  - by intros [? ?].
  - by intros [? ?].
Qed.

Lemma V1_Get_inv rg key m : V1.ring_inv m → V1.ring_inv (V1.Get rg key m).2.
Proof.
  intros Hinv. unfold V1.Get. destruct (V1.IsEmpty m); [done |].
  destruct (V1.init rg 1%float m) as [o m1] eqn:E.
  pose proof (V1_init_inv _ _ _ _ _ Hinv E) as Hinv1.
  destruct o as [[]|msg]; [|done].
  by destruct (V1.keys m1 !! _).
Qed.

Lemma V1_reachable_inv rg m : V1.reachable rg m → V1.ring_inv m.
Proof.
  induction 1 as [r fn|c m Hreach IH].
  - split; simpl; [intros k w Hk; by simplify_map_eq | by intros [? ?] | by intros [? ?]].
  - destruct c; simpl;
      eauto using V1_Add_inv, V1_AddWithWeight_inv, V1_Remove_inv, V1_Get_inv.
Qed.

(** The calls, one by one. *)
Lemma V1_reach_Add rg ks m : V1.reachable rg m → V1.reachable rg (V1.Add ks m).2.
Proof. intros H. exact (V1.reach_exec rg (V1.CAdd ks) m H). Qed.

Lemma V1_reach_AddWithWeight rg key w m :
  V1.reachable rg m → V1.reachable rg (V1.AddWithWeight key w m).2.
Proof. intros H. exact (V1.reach_exec rg (V1.CAddWithWeight key w) m H). Qed.

Lemma V1_reach_Remove rg key m : V1.reachable rg m → V1.reachable rg (V1.Remove key m).
Proof. intros H. exact (V1.reach_exec rg (V1.CRemove key) m H). Qed.

Lemma V1_reach_Get rg key m : V1.reachable rg m → V1.reachable rg (V1.Get rg key m).2.
Proof. intros H. exact (V1.reach_exec rg (V1.CGet key) m H). Qed.

(** On a ring of the invariant on which the adjustment is skipped,
    [init] returns and leaves the ring of the registered weights. *)
Lemma V1_init_plain rg scale m :
  V1.ring_inv m → V1.replica m < 10 ∨ (size (V1.replicas m) ≤ 1)%nat →
  ∃ m1, V1.init rg scale m = (Ret tt, m1) ∧ V1.built m1 (V1.replicas m) ∧
        V1.hash m1 = V1.hash m ∧ V1.replica m1 = V1.replica m ∧
        V1.replicas m1 = V1.replicas m.
Proof.
  intros Hinv Hskip. unfold V1.init. destruct (V1.hashMap m) as [hm|] eqn:E.
  - exists m. split_and!; try done. apply (V1.ri_plain _ Hinv); [|done].
    rewrite E. by eexists.
  - exists (V1.calc rg (V1.replicas m) m).
    change (V1.replicas (V1.calc rg (V1.replicas m) m)) with (V1.replicas m).
    change (V1.replica (V1.calc rg (V1.replicas m) m)) with (V1.replica m).
    replace ((size (V1.replicas m) <=? 1)%nat || (V1.replica m <? 10)) with true.
    + split_and!; try done. apply V1_calc_built.
    + symmetry. apply orb_true_iff. destruct Hskip as [H|H].
      * right. by apply Z.ltb_lt.
      * left. by apply Nat.leb_le.
Qed.

Lemma lookup_in_closest x ks :
  Sorted Z.le ks → ks ≠ [] →
  ∃ p, ks !! lookup_in (uint32 x) ks = Some p ∧ closest (uint32 x) ks p.
Proof.
  intros Hs Hne.
  apply (lookup_closest (mkMap (λ _, x) 0 ks ∅ ∅ ∅ 0) ""); done.
Qed.

Lemma V1_IsEmpty_false m : V1.replicas m ≠ ∅ → V1.IsEmpty m = false.
Proof.
  intros Hne. unfold V1.IsEmpty. apply Nat.eqb_neq. intros Hz.
  by apply map_size_empty_iff in Hz.
Qed.



(** [Get] where the adjustment is skipped. *)
Lemma V1_Get_plain rg m key :
  V1.ring_inv m → V1.replica m < 10 ∨ (size (V1.replicas m) ≤ 1)%nat →
  V1.replicas m ≠ ∅ →
  ∃ p k r m1,
    V1.Get rg key m = (Ret k, m1) ∧
    V1.replicas m1 = V1.replicas m ∧
    V1.keys m1 = ring_keys (V1.hash m) (V1.replicas m) ∧
    closest (uint32 (V1.hash m key)) (V1.keys m1) p ∧
    V1.replicas m !! k = Some r ∧ p ∈ positions_of (V1.hash m) (k, r).
Proof.
  intros Hinv Hskip Hne.
  destruct (V1_init_plain rg 1%float m Hinv Hskip) as (m1 & Hrun & Hb & Hh & Hr & Hrs).
  assert (V1.keys m1 ≠ []) as Hk.
  { destruct (map_choose _ Hne) as (k & r & Hkr).
    apply (V1_built_nonempty m1 _ k r Hb Hkr), (V1.ri_weights _ Hinv k r Hkr). }
  destruct (lookup_in_closest (V1.hash m1 key) (V1.keys m1) (V1.bt_sorted _ _ Hb) Hk)
    as (p & Hp & Hcl).
  destruct (V1_built_owner m1 _ p Hb) as (r & Hreg & Hpos);
    [by eapply list_elem_of_lookup_2 |].
  exists p, (V1.owner m1 p), r, m1. split_and!.
  - unfold V1.Get. by rewrite (V1_IsEmpty_false m Hne), Hrun, Hp.
  - done.
  - rewrite <- Hh. by apply V1_built_keys_eq.
  - by rewrite <- Hh.
  - done.
  - by rewrite <- Hh.
Qed.



(** X19. Earlier version: the ring that [Get] answers from is never
    stale.  Where the adjustment is skipped (default replica count below
    10, or at most one node), after any calls [Get] returns, leaves the
    weights as they are, and answers from the sorted ring of the
    positions of the currently registered weights: the node returned is
    registered and owns, among its positions, the position that serves
    the key. *)
Theorem V1_Get_current_ring (rg : RangeOrder) (m : V1.Map) (key : string) :
  V1.reachable rg m →
  V1.replica m < 10 ∨ (size (V1.replicas m) ≤ 1)%nat →
  V1.replicas m ≠ ∅ →
  ∃ p k r m1,
    V1.Get rg key m = (Ret k, m1) ∧
    V1.replicas m1 = V1.replicas m ∧
    V1.keys m1 = ring_keys (V1.hash m) (V1.replicas m) ∧
    closest (uint32 (V1.hash m key)) (V1.keys m1) p ∧
    V1.replicas m !! k = Some r ∧ p ∈ positions_of (V1.hash m) (k, r).
Proof. intros Hreach. by apply V1_Get_plain, (V1_reachable_inv rg). Qed.

Lemma V1_Get_current_ring_witness :
  ∃ p k r m1,
    V1.Get map_order "27"
      (V1.Remove "4" (V1.Get map_order "1" (V1.Add ["6"; "4"; "2"] (V1.New 3 None)).2).2) =
      (Ret k, m1) ∧
    V1.replicas m1 =
      V1.replicas
        (V1.Remove "4" (V1.Get map_order "1" (V1.Add ["6"; "4"; "2"] (V1.New 3 None)).2).2) ∧
    V1.keys m1 =
      ring_keys
        (V1.hash (V1.Remove "4"
           (V1.Get map_order "1" (V1.Add ["6"; "4"; "2"] (V1.New 3 None)).2).2))
        (V1.replicas (V1.Remove "4"
           (V1.Get map_order "1" (V1.Add ["6"; "4"; "2"] (V1.New 3 None)).2).2)) ∧
    closest
      (uint32 (V1.hash (V1.Remove "4"
         (V1.Get map_order "1" (V1.Add ["6"; "4"; "2"] (V1.New 3 None)).2).2) "27"))
      (V1.keys m1) p ∧
    V1.replicas (V1.Remove "4"
       (V1.Get map_order "1" (V1.Add ["6"; "4"; "2"] (V1.New 3 None)).2).2) !! k = Some r ∧
    p ∈ positions_of
          (V1.hash (V1.Remove "4"
             (V1.Get map_order "1" (V1.Add ["6"; "4"; "2"] (V1.New 3 None)).2).2))
          (k, r).
Proof.
  apply (V1_Get_current_ring map_order).
  - apply V1_reach_Remove, V1_reach_Get, V1_reach_Add, V1.reach_New.
  - left. vm_compute. reflexivity.
  - intros He.
    assert (size (V1.replicas (V1.Remove "4"
              (V1.Get map_order "1" (V1.Add ["6"; "4"; "2"] (V1.New 3 None)).2).2)) = 2%nat)
      as Hs by (vm_compute; reflexivity).
    rewrite He, map_size_empty in Hs. discriminate.
Defined.

(** X20. The two versions agree where no adjustment is made: with the
    same hash function and the same registered weights, and default
    replica counts below 10, [Get] of the earlier version returns what
    [Get] of the version with the hash cache returns, provided no
    position is cached for two nodes. *)
Theorem V1_agrees_with_cached_version (rg1 rg2 : RangeOrder) (m1 : V1.Map)
    (m2 : Map) (key : string) :
  V1.reachable rg1 m1 → reachable rg2 m2 →
  V1.hash m1 = hash m2 → V1.replicas m1 = replicas m2 →
  V1.replica m1 < 10 → replica m2 < 10 →
  cache_disjoint (hashs m2) →
  (V1.Get rg1 key m1).1 = Get key m2.
Proof.
  intros Hr1 Hr2 Hh Hrs Hs1 Hs2 Hdis.
  pose proof (V1_reachable_inv _ _ Hr1) as Hi1.
  pose proof (reachable_inv _ _ Hr2) as Hi2.
  destruct (decide (replicas m2 = ∅)) as [He|Hne].
  { rewrite (Get_empty key m2 He). unfold V1.Get, V1.IsEmpty.
    by rewrite Hrs, He, map_size_empty. }
  destruct (V1_Get_plain rg1 m1 key Hi1) as (p & k & r & m1' & -> & _ & Hk & Hcl & Hreg & Hpos);
    [by left | by rewrite Hrs |].
  assert (built m2 (replicas m2)) as Hb by (apply ri_plain; [done | by left]).
  simpl. rewrite Hh, Hrs in *.
  rewrite (Get_of_closest m2 key p Hi2).
  - f_equal. symmetry.
    by apply (built_owner_unique m2 _ k r p Hb (ri_cache_ok _ Hi2) Hdis).
  - rewrite (built_keys_eq m2 _ Hb). unfold ring_keys in Hk. by rewrite <- Hk.
Qed.

Lemma V1_agrees_with_cached_version_witness :
  (V1.Get reverse_order "27" (V1.Add ["6"; "4"; "2"] (V1.New 3 (Some atoi_hash))).2).1 =
    Get "27" (scenario map_order).
Proof.
  apply (V1_agrees_with_cached_version reverse_order map_order).
  - apply V1_reach_Add, V1.reach_New.
  - apply scenario_reachable.
  - rewrite (proj1 (scenario_fields _)).
    assert (∀ ks m, V1.hash (V1.Add ks m).2 = V1.hash m) as Hhash.
    { intros ks. induction ks as [|k ks IH]; intros m; [done |]. simpl.
      unfold V1.AddWithWeight. destruct (_ <? _); [done |].
      case_bool_decide; [apply IH |]. by rewrite IH. }
    by rewrite Hhash.
  - vm_compute. reflexivity.
  - vm_compute. reflexivity.
  - rewrite (proj1 (proj2 (scenario_fields _))). lia.
  - apply cache_disjointb_spec. vm_compute. reflexivity.
Defined.



